(** * tuna: the Spotify source (src/query/spotify_source.cpp)

    A shallow embedding of the Spotify polling client: the Retry-After
    header scan, the OAuth token refresh, the transport back-off of
    [execute_command], the poll cycle [spotify_source::refresh], the
    track parser and the capability dispatcher. *)

From Stdlib Require Import ZArith QArith Lia String Ascii List.
From stdpp Require Import base option countable gmap strings.

Local Open Scope string_scope.
Local Open Scope Z_scope.

(** ** Machine integers *)

Definition INT_MAX : Z := 2147483647.
Definition INT_MIN : Z := -2147483648.

(** Conversion of a value to [int]: reduction modulo 2^32 into the
    signed range. *)
Definition to_int (z : Z) : Z := (z + 2147483648) mod 4294967296 - 2147483648.

(** Conversion of a value to [uint64_t]. *)
Definition to_uint64 (z : Z) : Z := z mod 18446744073709551616.

Definition in_int (z : Z) : bool := (INT_MIN <=? z) && (z <=? INT_MAX).

(** ** C++ exceptions and partial results *)

Inductive exn : Type :=
| out_of_range        (* std::out_of_range *)
| invalid_argument.   (* std::invalid_argument *)

Inductive result (A : Type) : Type :=
| Ok (a : A)
| Throw (e : exn).
Arguments Ok {A} a.
Arguments Throw {A} e.

(** ** std::string helpers *)

Definition newline : ascii := "010"%char.

(** [starts_with what s]: [what] is a prefix of [s]. *)
Fixpoint starts_with (what s : string) : bool :=
  match what, s with
  | EmptyString, _ => true
  | String _ _, EmptyString => false
  | String a what', String b s' => Ascii.eqb a b && starts_with what' s'
  end.

(** [std::string::find]: index of the first occurrence, [None] for npos.
    [find_from what s i] searches the text [s] that starts at index [i]. *)
Fixpoint find_from (what s : string) (i : nat) : option nat :=
  if starts_with what s then Some i
  else match s with
       | EmptyString => None
       | String _ s' => find_from what s' (S i)
       end.

Definition find (what header : string) : option nat := find_from what header 0.

(** The text of [s] from index [n] on. *)
Fixpoint string_drop (n : nat) (s : string) : string :=
  match n, s with
  | O, _ => s
  | S n', String _ s' => string_drop n' s'
  | S _, EmptyString => EmptyString
  end.

(** [std::string::substr (pos, n)] is [String.substring pos n]. *)
Definition substr (s : string) (pos n : nat) : string := String.substring pos n s.

(** ** std::stoi

    Leading white space is skipped, one sign is accepted, then the longest
    run of decimal digits is read; no digit raises [invalid_argument], a
    value outside [int] raises [out_of_range]. Trailing text is ignored. *)

Definition isspace (c : ascii) : bool :=
  let n := nat_of_ascii c in
  (Nat.eqb n 32 || ((9 <=? n)%nat && (n <=? 13)%nat))%bool.

Definition digit_of (c : ascii) : option Z :=
  let n := Z.of_nat (nat_of_ascii c) in
  if (48 <=? n) && (n <=? 57) then Some (n - 48) else None.

Definition isdigit (c : ascii) : bool :=
  match digit_of c with Some _ => true | None => false end.

Fixpoint skip_space (s : string) : string :=
  match s with
  | String c s' => if isspace c then skip_space s' else s
  | EmptyString => EmptyString
  end.

Fixpoint read_digits (s : string) (acc : Z) : Z :=
  match s with
  | String c s' =>
      match digit_of c with
      | Some d => read_digits s' (10 * acc + d)
      | None => acc
      end
  | EmptyString => acc
  end.

(** The optional sign: [(negative, rest)]. *)
Definition read_sign (s : string) : bool * string :=
  match s with
  | String "-"%char s' => (true, s')
  | String "+"%char s' => (false, s')
  | _ => (false, s)
  end.

Definition begins_with_digit (s : string) : bool :=
  match s with
  | String c _ => isdigit c
  | EmptyString => false
  end.

Definition stoi (str : string) : result Z :=
  let '(neg, s) := read_sign (skip_space str) in
  if begins_with_digit s then
    let v := read_digits s 0 in
    let v := if neg : bool then - v else v in
    if in_int v then Ok v else Throw out_of_range
  else Throw invalid_argument.

(** ** extract_timeout (spotify_source.cpp, lines 113-127) *)

Definition what : string := "Retry-After: ".

(** [while (header.at(end) != '\n') end++;]
    [rest] is the text of [header] from index [end_] on; [at] raises
    [out_of_range] once [end_] reaches the size of the header. *)
Fixpoint scan_newline (rest : string) (end_ : nat) : result nat :=
  match rest with
  | EmptyString => Throw out_of_range
  | String c rest' =>
      if Ascii.eqb c newline then Ok end_ else scan_newline rest' (S end_)
  end.

(** [extract_timeout header] is the value left in the reference
    parameter [timeout] (a [uint64_t]) together with the exception that
    leaves the function, if any. [timeout] is zeroed before the search,
    so 0 is what it holds when the function throws. *)
Definition extract_timeout (header : string) : Z * option exn :=
  match find what header with
  | None => (0, None)
  | Some pos0 =>
      let pos := (pos0 + String.length what)%nat in
      match scan_newline (string_drop pos header) pos with
      | Throw e => (0, Some e)
      | Ok end_ =>
          let tmp := substr header pos (end_ - pos) in
          match stoi tmp with
          | Throw e => (0, Some e)
          | Ok v => (to_uint64 v, None)
          end
      end
  end.

(** ** QByteArray::toBase64 (standard alphabet, padded) *)

Definition b64_alphabet : string :=
  "ABCDEFGHIJKLMNOPQRSTUVWXYZabcdefghijklmnopqrstuvwxyz0123456789+/".

Definition b64_char (n : nat) : ascii :=
  match String.get n b64_alphabet with
  | Some c => c
  | None => "="%char
  end.

Fixpoint toBase64 (s : string) : string :=
  match s with
  | EmptyString => EmptyString
  | String a EmptyString =>
      let x := nat_of_ascii a in
      String (b64_char (x / 4))
        (String (b64_char (x mod 4 * 16)) "==")
  | String a (String b EmptyString) =>
      let x := nat_of_ascii a in
      let y := nat_of_ascii b in
      String (b64_char (x / 4))
        (String (b64_char (x mod 4 * 16 + y / 16))
           (String (b64_char (y mod 16 * 4)) "="))
  | String a (String b (String c rest)) =>
      let x := nat_of_ascii a in
      let y := nat_of_ascii b in
      let z := nat_of_ascii c in
      String (b64_char (x / 4))
        (String (b64_char (x mod 4 * 16 + y / 16))
           (String (b64_char (y mod 16 * 4 + z / 64))
              (String (b64_char (z mod 64)) (toBase64 rest))))
  end%nat.

Definition isEmpty (s : string) : bool :=
  match s with EmptyString => true | _ => false end.

(** ** QJsonValue, QJsonObject, QJsonArray, QJsonDocument

    A JSON number is a rational; an object is the list of its members. *)

#[local] Set Warnings "-register-all".
Inductive QJsonValue : Type :=
| JNull
| JBool (b : bool)
| JDouble (d : Q)
| JString (s : string)
| JArray (a : list QJsonValue)
| JObject (o : list (string * QJsonValue))
| JUndefined.

Definition QJsonArray : Type := list QJsonValue.
Definition QJsonObject : Type := list (string * QJsonValue).

Inductive QJsonDocument : Type :=
| DocNull
| DocArray (a : QJsonArray)
| DocObject (o : QJsonObject).

(** [QJsonObject::operator[] (key) const]: the member, or Undefined. *)
Fixpoint value (o : QJsonObject) (key : string) : QJsonValue :=
  match o with
  | [] => JUndefined
  | (k, v) :: o' => if String.eqb k key then v else value o' key
  end.

Definition contains (o : QJsonObject) (key : string) : bool :=
  existsb (fun kv => String.eqb (fst kv) key) o.

Definition isString (v : QJsonValue) : bool :=
  match v with JString _ => true | _ => false end.
Definition isBool (v : QJsonValue) : bool :=
  match v with JBool _ => true | _ => false end.
Definition isDouble (v : QJsonValue) : bool :=
  match v with JDouble _ => true | _ => false end.
Definition isArray (v : QJsonValue) : bool :=
  match v with JArray _ => true | _ => false end.
Definition isObject (v : QJsonValue) : bool :=
  match v with JObject _ => true | _ => false end.

Definition toString (v : QJsonValue) : string :=
  match v with JString s => s | _ => EmptyString end.
Definition toBool (v : QJsonValue) : bool :=
  match v with JBool b => b | _ => false end.
Definition toArray (v : QJsonValue) : QJsonArray :=
  match v with JArray a => a | _ => [] end.
Definition toObject (v : QJsonValue) : QJsonObject :=
  match v with JObject o => o | _ => [] end.

(** [QJsonValue::toInt ()]: the number when it is whole and fits [int],
    the default 0 otherwise. *)
Definition toInt (v : QJsonValue) : Z :=
  match v with
  | JDouble d =>
      if (Qnum d mod Zpos (Qden d) =? 0) && in_int (Qnum d / Zpos (Qden d))
      then Qnum d / Zpos (Qden d) else 0
  | _ => 0
  end.

(** [QJsonValue::operator[] (key)] is [toObject ().value (key)]. *)
Definition value_at (v : QJsonValue) (key : string) : QJsonValue :=
  value (toObject v) key.

Definition doc_isNull (d : QJsonDocument) : bool :=
  match d with DocNull => true | _ => false end.
Definition doc_isObject (d : QJsonDocument) : bool :=
  match d with DocObject _ => true | _ => false end.
(** [QJsonDocument::object ()]: empty when the document is no object. *)
Definition object (d : QJsonDocument) : QJsonObject :=
  match d with DocObject o => o | _ => [] end.
(** [QJsonDocument::operator[] (key)]. *)
Definition doc_at (d : QJsonDocument) (key : string) : QJsonValue :=
  value (object d) key.

(** ** QString::split and QString::toInt *)

(** [QString::split (sep)] for a separator of one character: the parts
    between separators, empty parts kept (Qt::KeepEmptyParts is the
    default). *)
Fixpoint split (s : string) (sep : ascii) : list string :=
  match s with
  | EmptyString => [EmptyString]
  | String c s' =>
      if Ascii.eqb c sep then EmptyString :: split s' sep
      else match split s' sep with
           | part :: parts => String c part :: parts
           | [] => [String c EmptyString]
           end
  end.

Fixpoint all_digits (s : string) : bool :=
  match s with
  | EmptyString => true
  | String c s' => isdigit c && all_digits s'
  end.

(** Removes the white space at the end of [s]. *)
Fixpoint trim_end (s : string) : string :=
  match s with
  | EmptyString => EmptyString
  | String c s' =>
      match trim_end s' with
      | EmptyString => if isspace c then EmptyString else String c EmptyString
      | t => String c t
      end
  end.

(** [QString::toInt ()]: surrounding white space is dropped, one sign is
    accepted, and the rest has to be a non-empty run of decimal digits
    whose value fits [int]; every other text converts to 0. *)
Definition QString_toInt (s : string) : Z :=
  let '(neg, t) := read_sign (trim_end (skip_space s)) in
  if begins_with_digit t && all_digits t then
    let v := read_digits t 0 in
    let v := if neg : bool then - v else v in
    if in_int v then v else 0
  else 0.

(** ** The playback record (class song, util/song.hpp)

    Modelled from the spec: song.hpp is not among the sources. The record
    is the normalized metadata of section 3: a field per [meta] id that is
    either unset or holds a value; [clear] resets every field, [set]
    writes one field, [get<int>] reads a field as a number (0 when it is
    unset or no number). The play states are numbered in the order the
    spec lists them. *)

Module meta.
Inductive type : Type :=
| TITLE | ARTIST | ALBUM | RELEASE | COVER | DURATION | PROGRESS | STATUS
| URL | CONTEXT | CONTEXT_URL | CONTEXT_EXTERNAL_URL | PLAYLIST_NAME
| EXPLICIT | DISC_NUMBER | TRACK_NUMBER
| RELEASE_DAY | RELEASE_MONTH | RELEASE_YEAR.

Definition index (m : type) : nat :=
  match m with
  | TITLE => 0 | ARTIST => 1 | ALBUM => 2 | RELEASE => 3 | COVER => 4
  | DURATION => 5 | PROGRESS => 6 | STATUS => 7 | URL => 8 | CONTEXT => 9
  | CONTEXT_URL => 10 | CONTEXT_EXTERNAL_URL => 11 | PLAYLIST_NAME => 12
  | EXPLICIT => 13 | DISC_NUMBER => 14 | TRACK_NUMBER => 15
  | RELEASE_DAY => 16 | RELEASE_MONTH => 17 | RELEASE_YEAR => 18
  end%nat.

Definition of_index (n : nat) : option type :=
  match n with
  | 0 => Some TITLE | 1 => Some ARTIST | 2 => Some ALBUM | 3 => Some RELEASE
  | 4 => Some COVER | 5 => Some DURATION | 6 => Some PROGRESS
  | 7 => Some STATUS | 8 => Some URL | 9 => Some CONTEXT
  | 10 => Some CONTEXT_URL | 11 => Some CONTEXT_EXTERNAL_URL
  | 12 => Some PLAYLIST_NAME | 13 => Some EXPLICIT | 14 => Some DISC_NUMBER
  | 15 => Some TRACK_NUMBER | 16 => Some RELEASE_DAY
  | 17 => Some RELEASE_MONTH | 18 => Some RELEASE_YEAR
  | _ => None
  end%nat.

Definition of_index_index (m : type) : of_index (index m) = Some m :=
  match m with
  | TITLE | ARTIST | ALBUM | RELEASE | COVER | DURATION | PROGRESS | STATUS
  | URL | CONTEXT | CONTEXT_URL | CONTEXT_EXTERNAL_URL | PLAYLIST_NAME
  | EXPLICIT | DISC_NUMBER | TRACK_NUMBER
  | RELEASE_DAY | RELEASE_MONTH | RELEASE_YEAR => eq_refl
  end.

#[global] Instance type_eq_dec : EqDecision type.
Proof. solve_decision. Defined.

#[global] Instance type_countable : Countable type :=
  inj_countable index of_index of_index_index.
End meta.

Inductive QVariant : Type :=
| VString (s : string)
| VStringList (l : list string)
| VInt (z : Z)
| VBool (b : bool).

Inductive play_state : Type :=
| state_playing | state_paused | state_stopped | state_unknown.

Definition play_state_int (s : play_state) : Z :=
  match s with
  | state_playing => 0
  | state_paused => 1
  | state_stopped => 2
  | state_unknown => 3
  end.

Abbreviation song := (gmap meta.type QVariant).

Module Song.
Definition clear (s : song) : song := ∅.
Definition set (id : meta.type) (v : QVariant) (s : song) : song := <[id := v]> s.
Definition set_state (id : meta.type) (st : play_state) (s : song) : song :=
  set id (VInt (play_state_int st)) s.
Definition get_int (s : song) (id : meta.type) : Z :=
  match s !! id with
  | Some (VInt z) => z
  | _ => 0
  end.
End Song.

(** ** Constants

    Modelled from the spec: util/constants.hpp is not among the sources.
    The spec names the statuses HTTP 200, HTTP 204 (no content) and
    "too many requests"; a second has 10^9 nanoseconds. *)

Definition HTTP_OK : Z := 200.
Definition HTTP_NO_CONTENT : Z := 204.
Definition STATUS_RETRY_AFTER : Z := 429.
Definition SECOND_TO_NS : Z := 1000000000.

Definition TOKEN_URL : string := "https://accounts.spotify.com/api/token".
Definition PLAYER_URL : string := "https://api.spotify.com/v1/me/player".
Definition PLAYER_PAUSE_URL : string := PLAYER_URL ++ "/pause".
Definition PLAYER_PLAY_URL : string := PLAYER_URL ++ "/play".
Definition PLAYER_NEXT_URL : string := PLAYER_URL ++ "/next".
Definition PLAYER_PREVIOUS_URL : string := PLAYER_URL ++ "/previous".
Definition PLAYER_VOLUME_URL : string := PLAYER_URL ++ "/volume".

(** The capabilities the source file names (the enum is declared in
    music_source.hpp). *)
Inductive capability : Type :=
| CAP_NEXT_SONG | CAP_PREV_SONG | CAP_PLAY_PAUSE | CAP_STOP_SONG
| CAP_VOLUME_UP | CAP_VOLUME_DOWN | CAP_VOLUME_MUTE.

(** ** The client object, the static locals, the configuration *)

Record spotify_source : Type := mk_spotify_source {
  m_logged_in : bool;
  m_token : string;
  m_refresh_token : string;
  m_auth_code : string;
  m_token_termination : Z;
  m_curl_timeout_ms : Z;
  m_creds : string;
  m_timout_start : Z;      (* uint64_t, nanoseconds *)
  m_timeout_length : Z;    (* uint64_t *)
  m_current : song;
  m_last_state : Z
}.

Definition set_m_logged_in (v : bool) (s : spotify_source) : spotify_source :=
  mk_spotify_source v (m_token s) (m_refresh_token s) (m_auth_code s)
    (m_token_termination s) (m_curl_timeout_ms s) (m_creds s)
    (m_timout_start s) (m_timeout_length s) (m_current s) (m_last_state s).
Definition set_m_token (v : string) (s : spotify_source) : spotify_source :=
  mk_spotify_source (m_logged_in s) v (m_refresh_token s) (m_auth_code s)
    (m_token_termination s) (m_curl_timeout_ms s) (m_creds s)
    (m_timout_start s) (m_timeout_length s) (m_current s) (m_last_state s).
Definition set_m_refresh_token (v : string) (s : spotify_source) : spotify_source :=
  mk_spotify_source (m_logged_in s) (m_token s) v (m_auth_code s)
    (m_token_termination s) (m_curl_timeout_ms s) (m_creds s)
    (m_timout_start s) (m_timeout_length s) (m_current s) (m_last_state s).
Definition set_m_token_termination (v : Z) (s : spotify_source) : spotify_source :=
  mk_spotify_source (m_logged_in s) (m_token s) (m_refresh_token s) (m_auth_code s)
    v (m_curl_timeout_ms s) (m_creds s)
    (m_timout_start s) (m_timeout_length s) (m_current s) (m_last_state s).
Definition set_m_creds (v : string) (s : spotify_source) : spotify_source :=
  mk_spotify_source (m_logged_in s) (m_token s) (m_refresh_token s) (m_auth_code s)
    (m_token_termination s) (m_curl_timeout_ms s) v
    (m_timout_start s) (m_timeout_length s) (m_current s) (m_last_state s).
Definition set_m_timout_start (v : Z) (s : spotify_source) : spotify_source :=
  mk_spotify_source (m_logged_in s) (m_token s) (m_refresh_token s) (m_auth_code s)
    (m_token_termination s) (m_curl_timeout_ms s) (m_creds s)
    v (m_timeout_length s) (m_current s) (m_last_state s).
Definition set_m_timeout_length (v : Z) (s : spotify_source) : spotify_source :=
  mk_spotify_source (m_logged_in s) (m_token s) (m_refresh_token s) (m_auth_code s)
    (m_token_termination s) (m_curl_timeout_ms s) (m_creds s)
    (m_timout_start s) v (m_current s) (m_last_state s).
Definition set_m_current (v : song) (s : spotify_source) : spotify_source :=
  mk_spotify_source (m_logged_in s) (m_token s) (m_refresh_token s) (m_auth_code s)
    (m_token_termination s) (m_curl_timeout_ms s) (m_creds s)
    (m_timout_start s) (m_timeout_length s) v (m_last_state s).
Definition set_m_last_state (v : Z) (s : spotify_source) : spotify_source :=
  mk_spotify_source (m_logged_in s) (m_token s) (m_refresh_token s) (m_auth_code s)
    (m_token_termination s) (m_curl_timeout_ms s) (m_creds s)
    (m_timout_start s) (m_timeout_length s) (m_current s) v.

(** The static locals of [execute_command], all of type [int]. *)
Record exec_statics : Type := mk_exec_statics {
  timeout_start : Z;
  timeout : Z;
  timeout_multiplier : Z
}.

(** The settings the client reads and writes through CGET and CSET. *)
Record config : Type := mk_config {
  CFG_SPOTIFY_CLIENT_ID : string;
  CFG_SPOTIFY_CLIENT_SECRET : string;
  CFG_SPOTIFY_LOGGEDIN : bool;
  CFG_SPOTIFY_TOKEN : string;
  CFG_SPOTIFY_AUTH_CODE : string;
  CFG_SPOTIFY_REFRESH_TOKEN : string;
  CFG_SPOTIFY_TOKEN_TERMINATION : Z
}.

(** ** The network, the clock and what the client leaves behind *)

(** What [curl_easy_perform] comes back with: [CURLE_OK] with the status,
    the body and the header text, or any other code with the header text
    received until then. *)
Inductive curl_result : Type :=
| CURLE_OK (http_code : Z) (response : string) (response_header : string)
| CURLE_FAILED (response_header : string).

Record request : Type := mk_request {
  req_token : string;
  req_url : string;
  req_type : option string;     (* CURLOPT_CUSTOMREQUEST *)
  req_data : option string      (* CURLOPT_POSTFIELDS *)
}.

(** One call of [execute_command]: the request, whether it went out,
    and what the call handed back to its caller. *)
Record exec_event : Type := mk_exec_event {
  ev_request : request;
  ev_sent : bool;
  ev_http_code : Z;
  ev_header : string;
  ev_json : QJsonDocument
}.

Inductive log_level : Type := LOG_ERROR | LOG_WARNING | LOG_INFO | LOG_DEBUG.

(** A detached thread of [execute_capability] with what it captured. *)
Record thread_args : Type := mk_thread_args {
  th_timeout : Z;
  th_token : string;
  th_playing : Z;
  th_c : capability
}.

Record environment : Type := mk_environment {
  epoch_at : nat -> Z;           (* util::epoch (), reading by reading *)
  gettime_ns_at : nat -> Z;      (* os_gettime_ns (), reading by reading *)
  (* the answer to the n-th request [execute_command] performs *)
  api_perform : nat -> request -> curl_result;
  (* the answer to the n-th token request, given its body and credentials *)
  token_perform : nat -> string -> string -> curl_result;
  fromJson : string -> QJsonDocument;
  toJson : QJsonDocument -> string;
  SPOTIFY_CREDENTIALS : string   (* util/creds.hpp or the build flag *)
}.

Record world : Type := mk_world {
  self : spotify_source;
  statics : exec_statics;
  cfg : config;
  clock : nat;                            (* clock readings so far *)
  api_log : list exec_event;              (* calls of execute_command *)
  token_log : list (string * string);     (* token requests sent: body, credentials *)
  messages : list (log_level * string);   (* blog output *)
  detached : list thread_args
}.

(** ** The monad of the client: state of the world, C++ exceptions *)

Definition M (A : Type) : Type := world -> world * result A.

#[global] Instance M_ret : MRet M := fun A a w => (w, Ok a).
#[global] Instance M_bind : MBind M := fun A B f m w =>
  match m w with
  | (w', Ok a) => f a w'
  | (w', Throw e) => (w', Throw e)
  end.

Definition throw {A : Type} (e : exn) : M A := fun w => (w, Throw e).

Definition get_self : M spotify_source := fun w => (w, Ok (self w)).
Definition modify_self (f : spotify_source -> spotify_source) : M unit := fun w =>
  (mk_world (f (self w)) (statics w) (cfg w) (clock w) (api_log w)
     (token_log w) (messages w) (detached w), Ok ()).
Definition get_statics : M exec_statics := fun w => (w, Ok (statics w)).
Definition put_statics (st : exec_statics) : M unit := fun w =>
  (mk_world (self w) st (cfg w) (clock w) (api_log w)
     (token_log w) (messages w) (detached w), Ok ()).
Definition get_cfg : M config := fun w => (w, Ok (cfg w)).
Definition put_cfg (c : config) : M unit := fun w =>
  (mk_world (self w) (statics w) c (clock w) (api_log w)
     (token_log w) (messages w) (detached w), Ok ()).
Definition tick : M nat := fun w =>
  (mk_world (self w) (statics w) (cfg w) (S (clock w)) (api_log w)
     (token_log w) (messages w) (detached w), Ok (clock w)).
Definition get_api_log : M (list exec_event) := fun w => (w, Ok (api_log w)).
Definition record_exec (ev : exec_event) : M unit := fun w =>
  (mk_world (self w) (statics w) (cfg w) (clock w) (api_log w ++ [ev])
     (token_log w) (messages w) (detached w), Ok ()).
Definition get_token_log : M (list (string * string)) := fun w => (w, Ok (token_log w)).
Definition record_token (request credentials : string) : M unit := fun w =>
  (mk_world (self w) (statics w) (cfg w) (clock w) (api_log w)
     (token_log w ++ [(request, credentials)]) (messages w) (detached w), Ok ()).
Definition blog (lvl : log_level) (format : string) : M unit := fun w =>
  (mk_world (self w) (statics w) (cfg w) (clock w) (api_log w)
     (token_log w) (messages w ++ [(lvl, format)]) (detached w), Ok ()).
Definition detach (t : thread_args) : M unit := fun w =>
  (mk_world (self w) (statics w) (cfg w) (clock w) (api_log w)
     (token_log w) (messages w) (detached w ++ [t]), Ok ()).

Definition berr : string -> M unit := blog LOG_ERROR.
Definition bwarn : string -> M unit := blog LOG_WARNING.
Definition binfo : string -> M unit := blog LOG_INFO.
Definition bdebug : string -> M unit := blog LOG_DEBUG.

(** [m_current.set (id, v)] and [m_current.clear ()] on the client. *)
Definition current_set (id : meta.type) (v : QVariant) : M unit :=
  modify_self (fun s => set_m_current (Song.set id v (m_current s)) s).
Definition current_set_state (id : meta.type) (st : play_state) : M unit :=
  modify_self (fun s => set_m_current (Song.set_state id st (m_current s)) s).
Definition current_clear : M unit :=
  modify_self (fun s => set_m_current (Song.clear (m_current s)) s).

(** The number of requests [execute_command] has performed. *)
Definition sent_count (l : list exec_event) : nat :=
  List.length (List.filter ev_sent l).

Section Client.
Variable env : environment.

Definition epoch : M Z := n ← tick; mret (epoch_at env n).
Definition os_gettime_ns : M Z := n ← tick; mret (gettime_ns_at env n).

(** *** build_credentials (lines 60-72) *)
Definition build_credentials : M unit :=
  c ← get_cfg;
  let client_id := CFG_SPOTIFY_CLIENT_ID c in
  let client_secret := CFG_SPOTIFY_CLIENT_SECRET c in
  if negb (isEmpty client_id) && negb (isEmpty client_secret) then
    modify_self (set_m_creds (toBase64 (client_id ++ ":" ++ client_secret)))
  else
    modify_self (set_m_creds (toBase64 (SPOTIFY_CREDENTIALS env))).

(** *** save

    Modelled from the spec: [spotify_source::save] is not among the
    sources. Section 6: the token fields are written to the settings in
    full after every token mutation. *)
Definition save : M unit :=
  s ← get_self;
  c ← get_cfg;
  put_cfg (mk_config (CFG_SPOTIFY_CLIENT_ID c) (CFG_SPOTIFY_CLIENT_SECRET c)
             (m_logged_in s) (m_token s) (m_auth_code s) (m_refresh_token s)
             (m_token_termination s)).

(** *** begin_refresh

    Modelled from the spec: [music_source::begin_refresh] is not among the
    sources. The spec gives the start of a cycle no effect on the record
    or on the token state. *)
Definition begin_refresh : M unit := mret ().

(** *** request_token (lines 376-414) *)
Definition request_token (request credentials : string)
    (response_json : QJsonDocument) (timeout : Z) : M QJsonDocument :=
  if isEmpty request || isEmpty credentials then
    berr "Cannot request token without valid credentials and/or auth code!";;
    mret response_json
  else
    sent ← get_token_log;
    record_token request credentials;;
    match token_perform env (List.length sent) request credentials with
    | CURLE_OK _ response _ =>
        let response_json := fromJson env response in
        (if doc_isNull response_json
         then berr "Couldn't parse response to json: %s"
         else binfo "Spotify response: %s");;
        mret response_json
    | CURLE_FAILED _ =>
        berr "Curl returned error code (%i) %s";;
        mret response_json
    end.

(** *** do_refresh_token (lines 417-468)

    The result and the text left in the reference parameter [log]. *)
Definition do_refresh_token (log : string) : M (bool * string) :=
  build_credentials;;
  s ← get_self;
  (if isEmpty (m_refresh_token s) then berr "Refresh token is empty!" else mret ());;
  let request := "grant_type=refresh_token&refresh_token=" ++ m_refresh_token s in
  response ← request_token request (m_creds s) DocNull (m_curl_timeout_ms s);
  '(result, log) ←
    (if doc_isNull response then
       berr "Couldn't refresh Spotify token, response was null";;
       mret (false, log)
     else
       let response_obj := object response in
       let token := value response_obj "access_token" in
       let expires := value response_obj "expires_in" in
       let error := value response_obj "error" in
       let refresh_token := value response_obj "refresh_token" in
       let log := toJson env response in
       result ←
         (if isString token && isDouble expires then
            modify_self (set_m_token (toString token));;
            now ← epoch;
            modify_self (set_m_token_termination (now + toInt expires));;
            binfo "Successfully logged in";;
            mret true
          else
            (if isString error
             then berr "Received error from spotify: %s"
             else berr "Couldn't parse json response");;
            mret false);
       (if isString refresh_token then
          let tmp := toString refresh_token in
          if negb (isEmpty tmp) then
            binfo "Received a new fresh token";;
            modify_self (set_m_refresh_token (toString refresh_token))
          else mret ()
        else mret ());;
       mret (result, log));
  modify_self (set_m_logged_in result);;
  save;;
  mret (result, log).

(** *** new_token (lines 471-505) *)
Definition REDIRECT_URI : string := "https%3A%2F%2Funivrsal.github.io%2Fauth%2Ftoken".

Definition new_token (log : string) : M (bool * string) :=
  build_credentials;;
  s ← get_self;
  let request := "grant_type=authorization_code&code=" ++ m_auth_code s
                 ++ "&redirect_uri=" ++ REDIRECT_URI in
  response ← request_token request (m_creds s) DocNull (m_curl_timeout_ms s);
  '(result, log) ←
    (if doc_isObject response then
       let response_obj := object response in
       let token := value response_obj "access_token" in
       let refresh := value response_obj "refresh_token" in
       let expires := value response_obj "expires_in" in
       let log := toJson env response in
       if isString token && isString refresh && isDouble expires then
         modify_self (set_m_token (toString token));;
         modify_self (set_m_refresh_token (toString refresh));;
         now ← epoch;
         modify_self (set_m_token_termination (now + toInt expires));;
         mret (true, log)
       else
         berr "Couldn't parse json response!";;
         mret (false, log)
     else mret (false, log));
  modify_self (set_m_logged_in result);;
  save;;
  mret (result, log).

(** *** execute_command (lines 509-581)

    The result is the returned status together with the contents of the
    reference parameters [response_header] and [response_json] at exit.
    Arithmetic on the static [int]s is reduced to [int]. *)
Definition execute_command (auth_token url response_header : string)
    (response_json : QJsonDocument) (curl_timeout : Z)
    (custom_request_type request_data : option string)
    : M (Z * string * QJsonDocument) :=
  let req := mk_request auth_token url custom_request_type
               (match custom_request_type with
                | Some _ => Some (default "{}" request_data)
                | None => None
                end) in
  st ← get_statics;
  waiting ←
    (if 0 <? timeout st then
       now ← epoch;
       if now - timeout_start st >=? timeout st then
         binfo "cURL request timeout over.";;
         put_statics (mk_exec_statics (timeout_start st) 0 (timeout_multiplier st));;
         mret false
       else mret true
     else mret false);
  if waiting : bool then
    (* Waiting for timeout to be over *)
    record_exec (mk_exec_event req false 0 response_header response_json);;
    mret (0, response_header, response_json)
  else
    (if negb (isEmpty response_header) then bdebug "Response header: %s" else mret ());;
    done ← get_api_log;
    match api_perform env (sent_count done) req with
    | CURLE_OK http_code response header =>
        let response_header := response_header ++ header in
        let response_json := fromJson env response in
        (if doc_isNull response_json && negb (isEmpty response) then
           berr "Failed to parse json response: %s, Error: %s"
         else
           (* Reset on successful requests *)
           put_statics (mk_exec_statics 0 0 1));;
        record_exec (mk_exec_event req true http_code response_header response_json);;
        mret (http_code, response_header, response_json)
    | CURLE_FAILED header =>
        let response_header := response_header ++ header in
        now ← epoch;
        st ← get_statics;
        put_statics (mk_exec_statics (to_int now)
                       (to_int (5 * timeout_multiplier st))
                       (to_int (timeout_multiplier st + 1)));;
        berr "cURL failed while sending spotify command (HTTP error %i, cURL error %i: '%s'). Waiting %i seconds before trying again";;
        record_exec (mk_exec_event req true (-1) response_header response_json);;
        mret (-1, response_header, response_json)
    end.

(** *** parse_track_json (lines 210-287) *)
Definition parse_track_json (response : QJsonValue) : M unit :=
  let trackObj := toObject (value_at response "item") in
  let album := toObject (value trackObj "album") in
  let artists := toArray (value trackObj "artists") in
  let urls := toObject (value trackObj "external_urls") in
  current_clear;;
  (if isObject (value_at response "context") then
     let context := toObject (value_at response "context") in
     current_set meta.CONTEXT (VString (toString (value context "type")));;
     current_set meta.CONTEXT_URL (VString (toString (value context "uri")));;
     (if isObject (value context "external_urls") then
        current_set meta.CONTEXT_EXTERNAL_URL
          (VString (toString (value (toObject (value context "external_urls")) "spotify")))
      else mret ());;
     (if isString (value context "href") then
        let url := toString (value context "href") in
        s ← get_self;
        '(http_code, _, playlist_response) ←
          execute_command (m_token s) url EmptyString DocNull (m_curl_timeout_ms s) None None;
        if http_code =? HTTP_OK then
          current_set meta.PLAYLIST_NAME (VString (toString (doc_at playlist_response "name")))
        else mret ()
      else mret ())
   else mret ());;
  (* Get All artists *)
  current_set meta.ARTIST
    (VStringList (map (fun artist => toString (value (toObject artist) "name")) artists));;
  (* Cover link *)
  (let covers := value album "images" in
   if isArray covers && negb (Nat.eqb (List.length (toArray covers)) 0) then
     let v := nth 0 (toArray covers) JUndefined in
     if isObject v && contains (toObject v) "url" then
       current_set meta.COVER (VString (toString (value (toObject v) "url")))
     else mret ()
   else mret ());;
  (* Song link *)
  (if negb (Nat.eqb (List.length urls) 0) && isString (value urls "spotify") then
     current_set meta.URL (VString (toString (value urls "spotify")))
   else mret ());;
  (* Other stuff *)
  current_set meta.TITLE (VString (toString (value trackObj "name")));;
  current_set meta.DURATION (VInt (toInt (value trackObj "duration_ms")));;
  current_set meta.ALBUM (VString (toString (value album "name")));;
  current_set meta.EXPLICIT (VBool (toBool (value trackObj "explicit")));;
  current_set meta.DISC_NUMBER (VInt (toInt (value trackObj "disc_number")));;
  current_set meta.TRACK_NUMBER (VInt (toInt (value trackObj "track_number")));;
  (* Release date *)
  let date := toString (value album "release_date") in
  if (0 <? String.length date)%nat then
    let list := split date "-"%char in
    let day := current_set meta.RELEASE_DAY (VInt (QString_toInt (nth 2 list EmptyString))) in
    let month := current_set meta.RELEASE_MONTH (VInt (QString_toInt (nth 1 list EmptyString))) in
    let year := current_set meta.RELEASE_YEAR (VInt (QString_toInt (nth 0 list EmptyString))) in
    match List.length list with
    | 3%nat => day;; month;; year
    | 2%nat => month;; year
    | 1%nat => year
    | _ => mret ()
    end
  else mret ().

(** *** spotify_source::refresh (lines 129-208) *)
Definition refresh : M unit :=
  s ← get_self;
  if negb (m_logged_in s) then mret ()
  else
    begin_refresh;;
    bdebug "[Spotify] begin refresh";;
    now ← epoch;
    (if now >? m_token_termination s then
       binfo "Refreshing Spotify token";;
       do_refresh_token EmptyString;;
       save
     else mret ());;
    s ← get_self;
    waiting ←
      (if negb (m_timout_start s =? 0) then
         now_ns ← os_gettime_ns;
         if to_uint64 (now_ns - m_timout_start s) >=? m_timeout_length s then
           modify_self (set_m_timout_start 0);;
           modify_self (set_m_timeout_length 0);;
           binfo "API timeout of %i seconds is over";;
           mret false
         else
           bdebug "Waiting for Spotify-API timeout";;
           mret true
       else mret false);
    if waiting : bool then mret ()
    else
      s ← get_self;
      '(http_code, header, response) ←
        execute_command (m_token s) PLAYER_URL EmptyString DocNull (m_curl_timeout_ms s) None None;
      bdebug "Executed %s command";;
      let obj := if doc_isObject response then object response else [] in
      if http_code =? HTTP_OK then
        let progress := value obj "progress_ms" in
        let device := value obj "device" in
        let playing := value obj "is_playing" in
        let play_type := value obj "currently_playing_type" in
        (* If an ad is playing we assume playback is paused *)
        if isString play_type && String.eqb (toString play_type) "ad" then
          current_set_state meta.STATUS state_paused
        else
          (if isObject device && isBool playing then
             (if toBool (value (toObject device) "is_private") then
                berr "Spotify session is private! Can't read track"
              else
                parse_track_json (JObject obj);;
                current_set_state meta.STATUS
                  (if toBool playing then state_playing else state_stopped));;
             current_set meta.PROGRESS (VInt (toInt progress))
           else
             berr "Couldn't fetch song data from spotify json: %s");;
          s ← get_self;
          modify_self (set_m_last_state (Song.get_int (m_current s) meta.STATUS));;
          bdebug "[Spotify] Finished refresh"
      else if http_code =? HTTP_NO_CONTENT then
        (* No session running *)
        current_clear;;
        bdebug "[Spotify] Finished refresh"
      else
        (* Don't reset cover or info here *)
        (if (http_code =? STATUS_RETRY_AFTER) && negb (isEmpty header) then
           let '(length, thrown) := extract_timeout header in
           modify_self (set_m_timeout_length length);;
           match thrown with
           | Some e => throw e
           | None =>
               if negb (length =? 0) then
                 bwarn "Spotify-API Rate limit hit, waiting %i seconds\n";;
                 modify_self (set_m_timeout_length (to_uint64 (length * SECOND_TO_NS)));;
                 start ← os_gettime_ns;
                 modify_self (set_m_timout_start start)
               else mret ()
           end
         else mret ());;
        bdebug "[Spotify] Finished refresh".

(** *** spotify_source::execute_capability (lines 289-337) *)

(** The request the switch arrives at: the url, the request type and the
    request data. The label of [CAP_STOP_SONG] sits inside the branch
    that [CAP_PLAY_PAUSE] takes when [playing] is non-zero. *)
Definition position_zero : string :=
  "{" ++ String "034"%char "position_ms" ++ String "034"%char ": 0}".

Definition capability_request (c : capability) (playing : Z)
    : option (string * string * option string) :=
  match c with
  | CAP_PLAY_PAUSE =>
      if negb (playing =? 0) then Some (PLAYER_PAUSE_URL, "PUT", None)
      else Some (PLAYER_PLAY_URL, "PUT", Some position_zero)
  | CAP_STOP_SONG => Some (PLAYER_PAUSE_URL, "PUT", None)
  | CAP_PREV_SONG => Some (PLAYER_PREVIOUS_URL, "POST", None)
  | CAP_NEXT_SONG => Some (PLAYER_NEXT_URL, "POST", None)
  | CAP_VOLUME_UP => None
  | CAP_VOLUME_DOWN => None
  | _ => None
  end.

(** The body of the detached thread. *)
Definition capability_thread (t : thread_args) : M unit :=
  '(http_code, _, response) ←
    match capability_request (th_c t) (th_playing t) with
    | Some (url, type, data) =>
        execute_command (th_token t) url EmptyString DocNull (th_timeout t) (Some type) data
    | None => mret (-1, EmptyString, DocNull)
    end;
  (* Parse response *)
  if negb (http_code =? HTTP_NO_CONTENT) then
    binfo "Couldn't run spotify command! HTTP code: %i";;
    binfo "Spotify controls only work for premium users!";;
    binfo "Response: %s"
  else mret ().

Definition execute_capability (c : capability) : M bool :=
  s ← get_self;
  let token := m_token s in
  let playing := Song.get_int (m_current s) meta.STATUS in
  let timeout := m_curl_timeout_ms s in
  detach (mk_thread_args timeout token playing c);;
  mret true.

End Client.

(** ** Vocabulary of the statements *)

(** The header line of the spec's example. *)
Definition retry_after_30 : string := "Retry-After: 30" ++ String newline EmptyString.

Fixpoint has_newline (s : string) : bool :=
  match s with
  | EmptyString => false
  | String c s' => Ascii.eqb c newline || has_newline s'
  end.

(** The text of [s] before its first line break (all of [s] without one). *)
Fixpoint line (s : string) : string :=
  match s with
  | EmptyString => EmptyString
  | String c s' => if Ascii.eqb c newline then EmptyString else String c (line s')
  end.

Fixpoint has_digit (s : string) : bool :=
  match s with
  | EmptyString => false
  | String c s' => isdigit c || has_digit s'
  end.

(** What [std::stoi] takes for a number: white space, one optional sign,
    then a digit. *)
Definition begins_number (s : string) : bool :=
  begins_with_digit (snd (read_sign (skip_space s))).

(** The text between the first "Retry-After: " and the end of its line. *)
Definition retry_after_text (header : string) (pos0 : nat) : string :=
  line (string_drop (pos0 + String.length what) header).

(** No non-empty suffix of [w] is a prefix of [x]. *)
Fixpoint no_suffix_starts (w x : string) : bool :=
  match w with
  | EmptyString => true
  | String _ w' => negb (starts_with w x) && no_suffix_starts w' x
  end.

(** [wp m Q w]: running [m] from [w] ends in a world and a result that
    satisfy [Q]. Every computation of [M] ends, so this is total
    correctness. *)
Definition wp {A : Type} (m : M A) (Q : world -> result A -> Prop) (w : world) : Prop :=
  Q (fst (m w)) (snd (m w)).

(** The first call of [execute_command] between [w] and [w'] is [ev]. *)
Definition polled (w w' : world) (ev : exec_event) : Prop :=
  exists rest, api_log w' = (api_log w ++ ev :: rest)%list.

(** [w'] differs from [w] in the record, the static locals, the clock,
    the messages and further calls of [execute_command] at most. *)
Definition client_frame (w w' : world) : Prop :=
  (exists extra, api_log w' = (api_log w ++ extra)%list)
  /\ set_m_current ∅ (self w') = set_m_current ∅ (self w)
  /\ cfg w' = cfg w /\ token_log w' = token_log w /\ detached w' = detached w.

(** What the token refresh leaves alone. *)
Definition poll_view (w : world) :=
  (m_current (self w), m_last_state (self w), m_timout_start (self w),
   m_timeout_length (self w), m_curl_timeout_ms (self w), m_auth_code (self w),
   statics w, api_log w, detached w).

(** The request [execute_command] builds from its arguments. *)
Definition request_of (auth_token url : string)
    (custom_request_type request_data : option string) : request :=
  mk_request auth_token url custom_request_type
    (match custom_request_type with
     | Some _ => Some (default "{}" request_data)
     | None => None
     end).

(** The release fields of a record: year, month, day. *)
Definition release_is (s : song) (r : option Z * option Z * option Z) : Prop :=
  s !! meta.RELEASE_YEAR = VInt <$> r.1.1
  /\ s !! meta.RELEASE_MONTH = VInt <$> r.1.2
  /\ s !! meta.RELEASE_DAY = VInt <$> r.2.

Definition release_unset (s : song) : Prop := release_is s (None, None, None).

(** The release fields as section 4.4 of the spec words them: the date
    is split on the dash; three parts give year, month and day, two give
    year and month, one gives the year, the empty date gives nothing. *)
Definition expected_release (date : string) : option Z * option Z * option Z :=
  if isEmpty date then (None, None, None)
  else match split date "-"%char with
       | [y] => (Some (QString_toInt y), None, None)
       | [y; m] => (Some (QString_toInt y), Some (QString_toInt m), None)
       | [y; m; d] =>
           (Some (QString_toInt y), Some (QString_toInt m), Some (QString_toInt d))
       | _ => (None, None, None)
       end.

(** [album["release_date"].toString ()] of a playback payload. *)
Definition release_date_of (response : QJsonValue) : string :=
  toString (value (toObject (value (toObject (value_at response "item")) "album"))
              "release_date").

Fixpoint no_dash (s : string) : bool :=
  match s with
  | EmptyString => true
  | String c s' => negb (Ascii.eqb c "-"%char) && no_dash s'
  end.

(** ** Sample data *)

Definition sample_source : spotify_source :=
  mk_spotify_source true "token" "refresh" EmptyString 2000000000 1000 EmptyString 0 0
    (Song.set meta.PROGRESS (VInt 1000) (Song.set meta.TITLE (VString "Song") ∅)) 0.

Definition sample_config : config :=
  mk_config "id" "secret" true "token" EmptyString "refresh" 2000000000.

Definition sample_world : world :=
  mk_world sample_source (mk_exec_statics 0 0 1) sample_config 0 [] [] [] [].

(** An environment whose clock reads [now], whose player endpoint answers
    every request with [api] and whose token endpoint answers with [tok];
    a body that is not empty parses to [doc]. *)
Definition sample_env (now : Z) (api tok : curl_result) (doc : QJsonDocument)
    : environment :=
  mk_environment (fun _ => now) (fun _ => 0) (fun _ _ => api) (fun _ _ _ => tok)
    (fun body => if isEmpty body then DocNull else doc) (fun _ => "{}")
    "fallback:creds".

Definition no_network : curl_result := CURLE_FAILED EmptyString.

Definition track_payload (date : string) : QJsonObject :=
  [("is_playing", JBool true);
   ("progress_ms", JDouble (5000 # 1));
   ("currently_playing_type", JString "track");
   ("device", JObject [("is_private", JBool false)]);
   ("item", JObject [("name", JString "Song");
                     ("album", JObject [("release_date", JString date)])])].


Definition ad_payload : QJsonObject :=
  [("is_playing", JBool true);
   ("progress_ms", JDouble (5000 # 1));
   ("currently_playing_type", JString "ad")].

(** The player endpoint answers [code] with a body that parses to [doc]. *)
Definition player_env (code : Z) (header : string) (doc : QJsonDocument) : environment :=
  sample_env 1000 (CURLE_OK code "{...}" header) no_network doc.

(** The player endpoint answers [code] with an empty body. *)
Definition empty_body_env (code : Z) (header : string) : environment :=
  sample_env 1000 (CURLE_OK code EmptyString header) no_network DocNull.

(** The event of the poll in [player_env]. *)
Definition player_event (code : Z) (header : string) (doc : QJsonDocument) : exec_event :=
  mk_exec_event (request_of "token" PLAYER_URL None None) true code header doc.

(** ** The token endpoint, as the statements see it *)

(** The credentials [build_credentials] ends up with. *)
Definition credentials_of (env : environment) (c : config) : string :=
  if negb (isEmpty (CFG_SPOTIFY_CLIENT_ID c)) && negb (isEmpty (CFG_SPOTIFY_CLIENT_SECRET c))
  then toBase64 (CFG_SPOTIFY_CLIENT_ID c ++ ":" ++ CFG_SPOTIFY_CLIENT_SECRET c)
  else toBase64 (SPOTIFY_CREDENTIALS env).

(** The body of the refresh request. *)
Definition refresh_request (w : world) : string :=
  "grant_type=refresh_token&refresh_token=" ++ m_refresh_token (self w).

(** The document [do_refresh_token] gets back from [request_token]: null
    when no request goes out or the transfer fails. *)
Definition token_response (env : environment) (w : world) : QJsonDocument :=
  if isEmpty (credentials_of env (cfg w)) then DocNull
  else match token_perform env (List.length (token_log w)) (refresh_request w)
               (credentials_of env (cfg w)) with
       | CURLE_OK _ response _ => fromJson env response
       | CURLE_FAILED _ => DocNull
       end.

(** The token endpoint answers with a body that parses to [doc]. *)
Definition token_env (doc : QJsonDocument) : environment :=
  sample_env 1000 no_network (CURLE_OK 200 "{...}" EmptyString) doc.

Definition rotated_payload : QJsonObject :=
  [("error", JString "invalid_grant"); ("refresh_token", JString "rotated")].

Definition granted_payload : QJsonObject :=
  [("access_token", JString "fresh"); ("expires_in", JDouble (3600 # 1))].

(** The sample client with no refresh token stored. *)
Definition signed_out_world : world :=
  mk_world (set_m_refresh_token EmptyString sample_source) (mk_exec_statics 0 0 1)
    sample_config 0 [] [] [] [].

(** ** Runs of execute_command *)

(** The arguments of one call; the reference parameters start out empty,
    as at every call site. *)
Record command : Type := mk_command {
  c_token : string;
  c_url : string;
  c_timeout : Z;
  c_type : option string;
  c_data : option string
}.

Definition run_command (env : environment) (c : command) : M (Z * string * QJsonDocument) :=
  execute_command env (c_token c) (c_url c) EmptyString DocNull (c_timeout c)
    (c_type c) (c_data c).

Fixpoint run_commands (env : environment) (cs : list command) : M unit :=
  match cs with
  | [] => mret ()
  | c :: cs' => run_command env c;; run_commands env cs'
  end.

Definition command_request (c : command) : request :=
  request_of (c_token c) (c_url c) (c_type c) (c_data c).

(** Whether a call of [execute_command] from [w] is held back: the
    cooldown is set and has not run out at the next clock reading. *)
Definition held_back (env : environment) (w : world) : bool :=
  (0 <? timeout (statics w))
  && negb (epoch_at env (clock w) - timeout_start (statics w) >=? timeout (statics w)).

(** A clock far in the future and a network that is down. *)
Definition far_future : Z := 1099511627776.
Definition offline_env : environment := sample_env far_future no_network no_network DocNull.
Definition poll_command : command := mk_command "token" PLAYER_URL 1000 None None.
Definition overflow_count : Z := 429496730.

(** The static locals after [j] failures in a row, reduced to [int]. *)
Definition backoff_state (j : Z) (w : world) : Prop :=
  timeout_start (statics w) = 0
  /\ timeout (statics w) = to_int (5 * j)
  /\ timeout_multiplier (statics w) = to_int (j + 1).

(** The sample client two failures into a back-off that started at 998. *)
Definition cooling_world : world :=
  mk_world sample_source (mk_exec_statics 998 10 3) sample_config 0 [] [] [] [].

(** ** The record parse_track_json builds *)

(** The fields of the context block, given the playlist name the
    secondary request came back with. *)
Definition context_fields (response : QJsonValue) (playlist : option string) (s : song) : song :=
  if isObject (value_at response "context") then
    let context := toObject (value_at response "context") in
    let s := Song.set meta.CONTEXT (VString (toString (value context "type"))) s in
    let s := Song.set meta.CONTEXT_URL (VString (toString (value context "uri"))) s in
    let s :=
      if isObject (value context "external_urls") then
        Song.set meta.CONTEXT_EXTERNAL_URL
          (VString (toString (value (toObject (value context "external_urls")) "spotify"))) s
      else s in
    match playlist with
    | Some name => Song.set meta.PLAYLIST_NAME (VString name) s
    | None => s
    end
  else s.

Definition cover_field (album : QJsonObject) (s : song) : song :=
  let covers := value album "images" in
  if isArray covers && negb (Nat.eqb (List.length (toArray covers)) 0) then
    let v := nth 0 (toArray covers) JUndefined in
    if isObject v && contains (toObject v) "url" then
      Song.set meta.COVER (VString (toString (value (toObject v) "url"))) s
    else s
  else s.

Definition url_field (urls : QJsonObject) (s : song) : song :=
  if negb (Nat.eqb (List.length urls) 0) && isString (value urls "spotify") then
    Song.set meta.URL (VString (toString (value urls "spotify"))) s
  else s.

Definition scalar_fields (trackObj album : QJsonObject) (s : song) : song :=
  Song.set meta.TRACK_NUMBER (VInt (toInt (value trackObj "track_number")))
    (Song.set meta.DISC_NUMBER (VInt (toInt (value trackObj "disc_number")))
       (Song.set meta.EXPLICIT (VBool (toBool (value trackObj "explicit")))
          (Song.set meta.ALBUM (VString (toString (value album "name")))
             (Song.set meta.DURATION (VInt (toInt (value trackObj "duration_ms")))
                (Song.set meta.TITLE (VString (toString (value trackObj "name"))) s))))).

Definition release_fields (date : string) (s : song) : song :=
  if (0 <? String.length date)%nat then
    let list := split date "-"%char in
    let day := Song.set meta.RELEASE_DAY (VInt (QString_toInt (nth 2 list EmptyString))) in
    let month := Song.set meta.RELEASE_MONTH (VInt (QString_toInt (nth 1 list EmptyString))) in
    let year := Song.set meta.RELEASE_YEAR (VInt (QString_toInt (nth 0 list EmptyString))) in
    match List.length list with
    | 3%nat => year (month (day s))
    | 2%nat => year (month s)
    | 1%nat => year s
    | _ => s
    end
  else s.

(** The record [parse_track_json] builds from a payload and the
    playlist name. *)
Definition track_record (response : QJsonValue) (playlist : option string) : song :=
  let trackObj := toObject (value_at response "item") in
  let album := toObject (value trackObj "album") in
  let artists := toArray (value trackObj "artists") in
  let urls := toObject (value trackObj "external_urls") in
  release_fields (toString (value album "release_date"))
    (scalar_fields trackObj album
       (url_field urls
          (cover_field album
             (Song.set meta.ARTIST
                (VStringList (map (fun artist => toString (value (toObject artist) "name")) artists))
                (context_fields response playlist ∅))))).

(** Whether the payload makes the parser look the playlist up. *)
Definition playlist_link (response : QJsonValue) : option string :=
  let context := toObject (value_at response "context") in
  if isObject (value_at response "context") && isString (value context "href")
  then Some (toString (value context "href")) else None.

(** The playlist name an answer to the secondary request gives. *)
Definition playlist_of (ev : exec_event) : option string :=
  if ev_http_code ev =? HTTP_OK then Some (toString (doc_at (ev_json ev) "name")) else None.

(** What [parse_track_json] leaves behind: the record of the payload, and
    the one call of the playlist look-up where the payload has a link; the
    request of that call is sent unless the call is held back. *)
Definition parsed (env : environment) (response : QJsonValue) (w w' : world) : Prop :=
  match playlist_link response with
  | None => api_log w' = api_log w /\ m_current (self w') = track_record response None
  | Some href =>
      exists ev,
        api_log w' = (api_log w ++ [ev])%list
        /\ ev_request ev = request_of (m_token (self w)) href None None
        /\ ev_sent ev = negb (held_back env w)
        /\ m_current (self w') = track_record response (playlist_of ev)
  end.

(** [w] with the record replaced by [f] of it. *)
Definition with_record (f : song -> song) (w : world) : world :=
  mk_world (set_m_current (f (m_current (self w))) (self w)) (statics w) (cfg w) (clock w)
    (api_log w) (token_log w) (messages w) (detached w).

(** [m] does nothing but update the record by [f]. *)
Definition updates_record (m : M unit) (f : song -> song) : Prop :=
  forall w, m w = (with_record f w, Ok ()).

(** What one call of [execute_command] with fresh reference parameters
    does, in terms of the event it records. *)
Definition exec_outcome (env : environment) (w w' : world) (ev : exec_event) : Prop :=
  if held_back env w then
    ev_sent ev = false /\ ev_http_code ev = 0 /\ ev_header ev = EmptyString
    /\ ev_json ev = DocNull /\ statics w' = statics w
  else
    ev_sent ev = true
    /\ match api_perform env (sent_count (api_log w)) (ev_request ev) with
       | CURLE_OK code body h =>
           ev_http_code ev = code /\ ev_header ev = h /\ ev_json ev = fromJson env body
           /\ timeout_multiplier (statics w')
              = (if doc_isNull (fromJson env body) && negb (isEmpty body)
                 then timeout_multiplier (statics w) else 1)
       | CURLE_FAILED h =>
           ev_http_code ev = -1 /\ ev_header ev = h /\ ev_json ev = DocNull
           /\ timeout (statics w') = to_int (5 * timeout_multiplier (statics w))
           /\ timeout_multiplier (statics w') = to_int (timeout_multiplier (statics w) + 1)
       end.


(** Whether the answer of the token endpoint grants a token. *)
Definition refresh_granted (env : environment) (w : world) : bool :=
  isString (doc_at (token_response env w) "access_token")
  && isDouble (doc_at (token_response env w) "expires_in").

(** The token state [do_refresh_token] leaves behind when run from [w]. *)
Definition token_outcome (env : environment) (w w' : world) : Prop :=
  let doc := token_response env w in
  let ok := refresh_granted env w in
  let rt := doc_at doc "refresh_token" in
  m_logged_in (self w') = ok
  /\ m_token (self w') = (if ok then toString (doc_at doc "access_token") else m_token (self w))
  /\ m_token_termination (self w')
     = (if ok then epoch_at env (clock w) + toInt (doc_at doc "expires_in")
        else m_token_termination (self w))
  /\ m_refresh_token (self w')
     = (if isString rt && negb (isEmpty (toString rt)) then toString rt
        else m_refresh_token (self w))
  /\ token_log w'
     = (if isEmpty (credentials_of env (cfg w)) then token_log w
        else token_log w ++ [(refresh_request w, credentials_of env (cfg w))])%list.

(** The body of the request for the first token. *)
Definition code_request (w : world) : string :=
  "grant_type=authorization_code&code=" ++ m_auth_code (self w)
  ++ "&redirect_uri=" ++ REDIRECT_URI.

(** The document [new_token] gets back from [request_token]. *)
Definition code_response (env : environment) (w : world) : QJsonDocument :=
  if isEmpty (credentials_of env (cfg w)) then DocNull
  else match token_perform env (List.length (token_log w)) (code_request w)
               (credentials_of env (cfg w)) with
       | CURLE_OK _ response _ => fromJson env response
       | CURLE_FAILED _ => DocNull
       end.

(** What the thread logs when the command did not come back with 204. *)
Definition capability_report : list (log_level * string) :=
  [(LOG_INFO, "Couldn't run spotify command! HTTP code: %i");
   (LOG_INFO, "Spotify controls only work for premium users!");
   (LOG_INFO, "Response: %s")].

(** [w] with [msgs] logged. *)
Definition logged (msgs : list (log_level * string)) (w : world) : world :=
  mk_world (self w) (statics w) (cfg w) (clock w) (api_log w) (token_log w)
    (messages w ++ msgs) (detached w).

(** ** Further sample data *)



(** An environment whose nanosecond clock reads [ns] and whose wall clock
    reads 1000; the player endpoint answers every request with [api]. *)
Definition ns_env (ns : Z) (api : curl_result) : environment :=
  mk_environment (fun _ => 1000) (fun _ => ns) (fun _ _ => api) (fun _ _ _ => no_network)
    (fun _ => DocNull) (fun _ => "{}") "fallback:creds".

(** The sample client one second into a rate-limit cooldown of 30 s. *)
Definition limited_world : world :=
  mk_world (set_m_timeout_length 30000000000 (set_m_timout_start 1000000000 sample_source))
    (mk_exec_statics 0 0 1) sample_config 0 [] [] [] [].

(** The sample client with a token that ran out. *)
Definition expired_world : world :=
  mk_world (set_m_token_termination 0 sample_source) (mk_exec_statics 0 0 1)
    sample_config 0 [] [] [] [].

(** A build without compiled-in credentials, and a client without a
    client id or secret of its own. *)
Definition bare_env : environment :=
  mk_environment (fun _ => 1000) (fun _ => 0) (fun _ _ => no_network)
    (fun _ _ _ => no_network) (fun _ => DocNull) (fun _ => "{}") EmptyString.

Definition unconfigured_world : world :=
  mk_world sample_source (mk_exec_statics 0 0 1)
    (mk_config EmptyString EmptyString true "token" EmptyString "refresh" 2000000000)
    0 [] [] [] [].

Definition too_many_requests : string :=
  "HTTP/1.1 429 Too Many Requests" ++ String newline EmptyString.

(** A Retry-After line that carries a date. *)
Definition retry_after_date : string :=
  "Retry-After: Wed, 21 Oct 2015 07:28:00 GMT" ++ String newline EmptyString.

(** An answer that grants a token and carries an [error] member too. *)
Definition granted_with_error_payload : QJsonObject :=
  [("error", JString "temporarily_unavailable");
   ("access_token", JString "fresh");
   ("expires_in", JDouble (3600 # 1))].

(** Headers that contain the line "Retry-After: 30" after an earlier
    "Retry-After: ": a first line of 5 seconds, and a note that quotes the
    name of the header. *)
Definition two_retry_lines : string :=
  "Retry-After: 5" ++ String newline EmptyString ++ retry_after_30.
Definition quoted_retry_line : string :=
  "Warning: no Retry-After: given" ++ String newline EmptyString ++ retry_after_30.

(** A clock that reads three seconds more at every reading, and a network
    that is down. *)
Definition ticking_env : environment :=
  mk_environment (fun n => 1000 + 3 * Z.of_nat n) (fun _ => 0) (fun _ _ => no_network)
    (fun _ _ _ => no_network) (fun _ => DocNull) (fun _ => "{}") "fallback:creds".

(** * The output list of the configuration (src/util/config.cpp) *)

Module Config.

(** [struct output] (config.hpp), with the members config.cpp uses. *)
Record output : Type := mk_output {
  format : string;
  path : string;
  log_mode : bool;
  last_output : string
}.

(** [QString::replace (before, after, Qt::CaseSensitive)] for a
    non-empty [before]: every occurrence is replaced, found from the left
    and not overlapping; the text put in is not searched again. [n]
    bounds the number of steps; the length of [s] is enough. *)
Fixpoint replace_upto (n : nat) (before after s : string) : string :=
  match n with
  | O => s
  | S n' =>
      if starts_with before s then
        after ++ replace_upto n' before after (string_drop (String.length before) s)
      else match s with
           | EmptyString => EmptyString
           | String c s' => String c (replace_upto n' before after s')
           end
  end.

Definition replace (before after s : string) : string :=
  replace_upto (String.length s) before after s.

(** The table of [legacy_convert] (lines 156-171). *)
Definition conversions : list (string * string) :=
  [("%t", "{title}"); ("%T", "{TITLE}"); ("%e", "{linebreak}"); ("%m", "{artists}");
   ("%M", "{ARTIST}"); ("%n", "{track_number}"); ("%a", "{album}"); ("%A", "{ALBUM}");
   ("%r", "{release_date}"); ("%y", "{release_year}"); ("%p", "{progress}");
   ("%l", "{duration}"); ("%b", "{label}"); ("%o", "{time_left}")].

(** The lambda [legacy_convert] of [load_outputs] (lines 155-176). *)
Definition legacy_convert (old : string) : string :=
  fold_left (fun copy t => replace (fst t) (snd t) copy) conversions old.

(** [QJsonObject::operator[] (key) = v]: the member is replaced, or added.
    Qt keeps the members sorted by key; [value] does not depend on the
    order. *)
Fixpoint insert (o : QJsonObject) (key : string) (v : QJsonValue) : QJsonObject :=
  match o with
  | [] => [(key, v)]
  | (k, v') :: o' =>
      if String.eqb k key then (k, v) :: o' else (k, v') :: insert o' key v
  end.

Definition doc_isArray (d : QJsonDocument) : bool :=
  match d with DocArray _ => true | _ => false end.
(** [QJsonDocument::array ()]: empty when the document is no array. *)
Definition array (d : QJsonDocument) : QJsonArray :=
  match d with DocArray a => a | _ => [] end.

Section Outputs.
(** The member names (util/constants.hpp, not among the sources) and
    [QDir::toNativeSeparators], which depends on the platform. *)
Variables JSON_FORMAT_ID JSON_OUTPUT_PATH_ID JSON_FORMAT_LOG_MODE JSON_LAST_OUTPUT : string.
Variable toNativeSeparators : string -> string.

(** *** load_outputs (lines 153-204)

    [opened] is the document [util::open_config] read, [None] when it
    failed. The result is the list [outputs] at exit: the list is cleared
    first, so what it held before plays no part. *)
Definition load_outputs (opened : option QJsonDocument) : list output :=
  match opened with
  | Some doc =>
      let array := if doc_isArray doc then array doc else [] in
      map (fun val =>
             let obj := toObject val in
             mk_output (legacy_convert (toString (value obj JSON_FORMAT_ID)))
               (toString (value obj JSON_OUTPUT_PATH_ID))
               (if isBool (value obj JSON_FORMAT_LOG_MODE)
                then toBool (value obj JSON_FORMAT_LOG_MODE) else false)
               (if isString (value obj JSON_LAST_OUTPUT)
                then toString (value obj JSON_LAST_OUTPUT) else EmptyString))
          array
  | None => []
  end.

(** *** save_outputs (lines 206-218)

    The document handed to [util::save_config]. *)
Definition save_outputs (outputs : list output) : QJsonDocument :=
  DocArray
    (map (fun o =>
            let output := [] in
            let output := insert output JSON_FORMAT_ID (JString (format o)) in
            let output := insert output JSON_OUTPUT_PATH_ID
                            (JString (toNativeSeparators (path o))) in
            let output := insert output JSON_FORMAT_LOG_MODE (JBool (log_mode o)) in
            let output := insert output JSON_LAST_OUTPUT (JString (last_output o)) in
            JObject output)
       outputs).
End Outputs.

(** Whether [s] holds a percent sign. *)
Fixpoint has_percent (s : string) : bool :=
  match s with
  | EmptyString => false
  | String c s' => Ascii.eqb c "%"%char || has_percent s'
  end.

(** Whether [before] occurs in [s]. *)
Fixpoint contains_text (before s : string) : bool :=
  starts_with before s
  || match s with
     | EmptyString => false
     | String _ s' => contains_text before s'
     end.

(** No place holder of the table occurs in [s]. *)
Definition no_legacy (s : string) : Prop :=
  forall t, In t conversions -> contains_text (fst t) s = false.

(** The shape of a line of the table: a percent sign and a letter, put
    in for a text in braces that holds no percent sign. *)
Definition braced (t : string * string) : Prop :=
  exists d after,
    t = (String "%" (String d EmptyString), String "{" after)
    /\ has_percent after = false /\ d <> "{"%char.

(** The place holder made of a percent sign and [c]. *)
Abbreviation pat c := (String "%" (String c EmptyString)).

(** Sample member names and a sample list. *)
Definition sample_outputs : list output :=
  [mk_output "{title} - {artists}" "/home/user/song.txt" false "Song - Artist";
   mk_output "{album}" "/home/user/album.txt" true EmptyString].

End Config.

(** * Properties *)

(** ** extract_timeout *)

#[local] Arguments Ascii.eqb : simpl never.

Lemma starts_with_app (w r : string) : starts_with w (w ++ r) = true.
Proof.
  induction w as [|a w IH]; simpl; [done|].
  by rewrite Ascii.eqb_refl, IH.
Qed.

Lemma starts_with_cons (a b : ascii) (w s : string) :
  starts_with (String a w) (String b s) = Ascii.eqb a b && starts_with w s.
Proof. reflexivity. Qed.

Lemma starts_with_straddle (w pre x : string) :
  no_suffix_starts w x = true ->
  starts_with w pre = false ->
  starts_with w (pre ++ x) = false.
Proof.
  revert pre. induction w as [|a w IH]; intros pre Hs H; [done|].
  simpl in Hs. apply andb_true_iff in Hs as [Hx Hs].
  destruct pre as [|c pre].
  - simpl. by apply negb_true_iff in Hx.
  - simpl in *. destruct (Ascii.eqb a c); [|done]. simpl in *. by apply IH.
Qed.

(** No occurrence of the token straddles the end of [pre]: the token has
    a single R, at its start. *)
Lemma starts_with_what_straddle (pre rest : string) :
  pre <> EmptyString ->
  starts_with what pre = false ->
  starts_with what (pre ++ what ++ rest) = false.
Proof.
  intros Hne H. destruct pre as [|c pre]; [done|]. clear Hne.
  set (x := what ++ rest).
  change (String c pre ++ x) with (String c (pre ++ x)).
  change what with (String "R" "etry-After: ") in H |- *.
  rewrite starts_with_cons in H |- *.
  destruct (Ascii.eqb "R" c); [|done].
  rewrite andb_true_l in H |- *.
  by apply starts_with_straddle.
Qed.

Lemma find_from_hit (w s : string) (i : nat) :
  starts_with w s = true -> find_from w s i = Some i.
Proof. intros H. destruct s; simpl; by rewrite H. Qed.

Lemma find_from_miss (w s : string) (c : ascii) (i : nat) :
  starts_with w (String c s) = false ->
  find_from w (String c s) i = find_from w s (S i).
Proof. intros H. simpl find_from. by rewrite H. Qed.

Lemma find_from_none_cons (w s : string) (c : ascii) (i : nat) :
  find_from w (String c s) i = None ->
  starts_with w (String c s) = false /\ find_from w s (S i) = None.
Proof.
  simpl find_from. destruct (starts_with w (String c s)); [done|]. by split.
Qed.

Lemma find_from_app (pre rest : string) (i : nat) :
  find_from what pre i = None ->
  find_from what (pre ++ what ++ rest) i = Some (i + String.length pre)%nat.
Proof.
  revert i. induction pre as [|c pre IH]; intros i H.
  - change (EmptyString ++ what ++ rest) with (what ++ rest).
    rewrite find_from_hit by apply starts_with_app.
    simpl. f_equal. lia.
  - apply find_from_none_cons in H as [Hs H].
    change (String c pre ++ what ++ rest) with (String c (pre ++ what ++ rest)).
    rewrite find_from_miss.
    + rewrite IH by done. simpl. f_equal. lia.
    + change (String c (pre ++ what ++ rest)) with (String c pre ++ what ++ rest).
      by apply starts_with_what_straddle.
Qed.

Lemma string_drop_app (pre s : string) (n : nat) :
  string_drop (String.length pre + n) (pre ++ s) = string_drop n s.
Proof. induction pre as [|c pre IH]; cbn; auto. Qed.

Lemma substring_app_skip (pre s : string) (n m : nat) :
  substring (String.length pre + n) m (pre ++ s) = substring n m s.
Proof. induction pre as [|c pre IH]; cbn; auto. Qed.

Lemma substring_drop (s : string) (n m : nat) :
  substring n m s = substring 0 m (string_drop n s).
Proof.
  revert s; induction n as [|n IH]; intros [|c s]; cbn; auto.
  by destruct m.
Qed.

Lemma substring_line (s : string) :
  substring 0 (String.length (line s)) s = line s.
Proof.
  induction s as [|c s IH]; cbn; [done|].
  destruct (Ascii.eqb c newline); cbn; [done|]. by rewrite IH.
Qed.

Lemma scan_newline_spec (rest : string) (pos : nat) :
  scan_newline rest pos =
    if has_newline rest then Ok (pos + String.length (line rest))%nat
    else Throw out_of_range.
Proof.
  revert pos; induction rest as [|c rest IH]; intros pos; cbn; [done|].
  destruct (Ascii.eqb c newline); cbn.
  - f_equal; lia.
  - rewrite IH. destruct (has_newline rest); [f_equal; lia | done].
Qed.

(** [extract_timeout] in terms of the line that follows the first token. *)
Lemma extract_timeout_found (header : string) (pos0 : nat) :
  find what header = Some pos0 ->
  extract_timeout header =
    if has_newline (string_drop (pos0 + String.length what) header) then
      match stoi (retry_after_text header pos0) with
      | Ok v => (to_uint64 v, None)
      | Throw e => (0, Some e)
      end
    else (0, Some out_of_range).
Proof.
  intros Hf. unfold extract_timeout, retry_after_text. rewrite Hf.
  rewrite scan_newline_spec.
  destruct (has_newline _); [|done].
  unfold substr. rewrite substring_drop.
  replace (pos0 + String.length what + String.length (line (string_drop (pos0 + String.length what) header))
           - (pos0 + String.length what))%nat
    with (String.length (line (string_drop (pos0 + String.length what) header))) by lia.
  by rewrite substring_line.
Qed.

Lemma stoi_ok_begins_number (s : string) (v : Z) :
  stoi s = Ok v -> begins_number s = true.
Proof.
  unfold stoi, begins_number.
  destruct (read_sign (skip_space s)) as [neg t]; cbn.
  by destruct (begins_with_digit t).
Qed.

Lemma stoi_not_number (s : string) :
  begins_number s = false -> stoi s = Throw invalid_argument.
Proof.
  unfold stoi, begins_number.
  destruct (read_sign (skip_space s)) as [neg t]; cbn.
  by intros ->.
Qed.

Lemma read_sign_has_digit (s : string) :
  has_digit s = false -> has_digit (snd (read_sign s)) = false.
Proof.
  destruct s as [|c s]; [done|]. intros H. cbn in H.
  apply orb_false_iff in H as [Hc Hs].
  unfold read_sign.
  repeat match goal with
         | |- context [match ?x with _ => _ end] => destruct x; try done
         end; cbn; by rewrite ?Hc, ?Hs.
Qed.

Lemma no_digit_not_number (s : string) :
  has_digit s = false -> begins_number s = false.
Proof.
  intros H. unfold begins_number.
  assert (Hk : has_digit (skip_space s) = false).
  { induction s as [|c s IH]; [done|]. cbn in *.
    apply orb_false_iff in H as [Hc Hs].
    destruct (isspace c); [auto|]. cbn. by rewrite Hc, Hs. }
  apply read_sign_has_digit in Hk.
  destruct (snd (read_sign (skip_space s))) as [|c t]; [done|].
  cbn in *. by apply orb_false_iff in Hk as [-> _].
Qed.

Lemma extract_timeout_absent (header : string) :
  find what header = None -> extract_timeout header = (0, None).
Proof. intros H. unfold extract_timeout. by rewrite H. Qed.

Lemma extract_timeout_example (pre suf : string) :
  find what pre = None ->
  extract_timeout (pre ++ retry_after_30 ++ suf) = (30, None).
Proof.
  intros H.
  set (tail := String "3" (String "0" (String newline suf))).
  assert (Hh : pre ++ retry_after_30 ++ suf = pre ++ what ++ tail) by reflexivity.
  rewrite Hh.
  assert (Hf : find what (pre ++ what ++ tail) = Some (String.length pre)).
  { unfold find. by rewrite find_from_app. }
  rewrite (extract_timeout_found _ _ Hf). unfold retry_after_text.
  rewrite string_drop_app.
  change (string_drop (String.length what) (what ++ tail)) with tail.
  reflexivity.
Qed.

(** C9 as amended. A header that contains the token makes
    [extract_timeout] throw [out_of_range] when no line break follows the
    first token, and [invalid_argument] when the text up to the line break
    holds no digit; it returns without an exception only if a line break
    follows and that text, after optional white space and one optional
    sign, begins with a digit. *)
Theorem extract_timeout_partial :
  (forall header pos0,
      find what header = Some pos0 ->
      has_newline (string_drop (pos0 + String.length what) header) = false ->
      extract_timeout header = (0, Some out_of_range))
  /\ (forall header pos0,
      find what header = Some pos0 ->
      has_newline (string_drop (pos0 + String.length what) header) = true ->
      has_digit (retry_after_text header pos0) = false ->
      extract_timeout header = (0, Some invalid_argument))
  /\ (forall header pos0 t,
      find what header = Some pos0 ->
      extract_timeout header = (t, None) ->
      has_newline (string_drop (pos0 + String.length what) header) = true
      /\ begins_number (retry_after_text header pos0) = true).
Proof.
  split; [|split].
  - intros header pos0 Hf Hn. rewrite (extract_timeout_found _ _ Hf). by rewrite Hn.
  - intros header pos0 Hf Hn Hd. rewrite (extract_timeout_found _ _ Hf), Hn.
    by rewrite stoi_not_number by by apply no_digit_not_number.
  - intros header pos0 t Hf He. rewrite (extract_timeout_found _ _ Hf) in He.
    destruct (has_newline _); [|done]. split; [done|].
    destruct (stoi (retry_after_text header pos0)) as [v|e] eqn:Hs; [|done].
    by apply stoi_ok_begins_number in Hs.
Qed.

Lemma extract_timeout_partial_witness :
  extract_timeout "Retry-After: 30" = (0, Some out_of_range)
  /\ extract_timeout ("Retry-After: soon" ++ String newline EmptyString)
     = (0, Some invalid_argument)
  /\ (has_newline (string_drop (0 + String.length what) retry_after_30) = true
      /\ begins_number (retry_after_text retry_after_30 0) = true).
Proof.
  destruct extract_timeout_partial as (H1 & H2 & H3).
  split; [|split].
  - apply (H1 "Retry-After: 30" 0%nat); reflexivity.
  - apply (H2 ("Retry-After: soon" ++ String newline EmptyString) 0%nat); reflexivity.
  - apply (H3 retry_after_30 0%nat 30); reflexivity.
Defined.

(** C9 as stated fails: the text after the token need not begin with a
    digit. With a sign in front the header is accepted and yields 5. *)
Lemma extract_timeout_signed_text :
  let header := "Retry-After: +5" ++ String newline EmptyString in
  find what header = Some 0%nat
  /\ has_newline (string_drop (0 + String.length what) header) = true
  /\ retry_after_text header 0 = "+5"
  /\ begins_with_digit (retry_after_text header 0) = false
  /\ extract_timeout header = (5, None).
Proof. repeat split. Qed.

(** ** Weakest preconditions of the monad *)

Section Wp.
Context {A B : Type}.

Lemma wp_ret (a : A) (Q : world -> result A -> Prop) (w : world) :
  Q w (Ok a) -> wp (mret a) Q w.
Proof. done. Qed.

Lemma wp_throw (e : exn) (Q : world -> result A -> Prop) (w : world) :
  Q w (Throw e) -> wp (throw e) Q w.
Proof. done. Qed.

Lemma wp_bind (m : M A) (f : A -> M B) (Q : world -> result B -> Prop) (w : world) :
  wp m (fun w' r => match r with
                    | Ok a => wp (f a) Q w'
                    | Throw e => Q w' (Throw e)
                    end) w ->
  wp (m ≫= f) Q w.
Proof.
  unfold wp, mbind, M_bind. destruct (m w) as [w' [a|e]]; simpl; auto.
Qed.

Lemma wp_mono (m : M A) (Q Q' : world -> result A -> Prop) (w : world) :
  wp m Q w -> (forall w' r, Q w' r -> Q' w' r) -> wp m Q' w.
Proof. unfold wp. auto. Qed.
End Wp.

Lemma wp_get_self (Q : world -> result spotify_source -> Prop) w :
  Q w (Ok (self w)) -> wp get_self Q w.
Proof. done. Qed.
Lemma wp_modify_self f (Q : world -> result unit -> Prop) w :
  Q (mk_world (f (self w)) (statics w) (cfg w) (clock w) (api_log w)
       (token_log w) (messages w) (detached w)) (Ok ()) ->
  wp (modify_self f) Q w.
Proof. done. Qed.
Lemma wp_get_statics (Q : world -> result exec_statics -> Prop) w :
  Q w (Ok (statics w)) -> wp get_statics Q w.
Proof. done. Qed.
Lemma wp_put_statics st (Q : world -> result unit -> Prop) w :
  Q (mk_world (self w) st (cfg w) (clock w) (api_log w)
       (token_log w) (messages w) (detached w)) (Ok ()) ->
  wp (put_statics st) Q w.
Proof. done. Qed.
Lemma wp_get_cfg (Q : world -> result config -> Prop) w :
  Q w (Ok (cfg w)) -> wp get_cfg Q w.
Proof. done. Qed.
Lemma wp_put_cfg c (Q : world -> result unit -> Prop) w :
  Q (mk_world (self w) (statics w) c (clock w) (api_log w)
       (token_log w) (messages w) (detached w)) (Ok ()) ->
  wp (put_cfg c) Q w.
Proof. done. Qed.
Lemma wp_tick (Q : world -> result nat -> Prop) w :
  Q (mk_world (self w) (statics w) (cfg w) (S (clock w)) (api_log w)
       (token_log w) (messages w) (detached w)) (Ok (clock w)) ->
  wp tick Q w.
Proof. done. Qed.
Lemma wp_get_api_log (Q : world -> result (list exec_event) -> Prop) w :
  Q w (Ok (api_log w)) -> wp get_api_log Q w.
Proof. done. Qed.
Lemma wp_record_exec ev (Q : world -> result unit -> Prop) w :
  Q (mk_world (self w) (statics w) (cfg w) (clock w) (api_log w ++ [ev])
       (token_log w) (messages w) (detached w)) (Ok ()) ->
  wp (record_exec ev) Q w.
Proof. done. Qed.
Lemma wp_get_token_log (Q : world -> result (list (string * string)) -> Prop) w :
  Q w (Ok (token_log w)) -> wp get_token_log Q w.
Proof. done. Qed.
Lemma wp_record_token rq cr (Q : world -> result unit -> Prop) w :
  Q (mk_world (self w) (statics w) (cfg w) (clock w) (api_log w)
       (token_log w ++ [(rq, cr)]) (messages w) (detached w)) (Ok ()) ->
  wp (record_token rq cr) Q w.
Proof. done. Qed.
Lemma wp_blog lvl fmt (Q : world -> result unit -> Prop) w :
  Q (mk_world (self w) (statics w) (cfg w) (clock w) (api_log w)
       (token_log w) (messages w ++ [(lvl, fmt)]) (detached w)) (Ok ()) ->
  wp (blog lvl fmt) Q w.
Proof. done. Qed.
Lemma wp_detach t (Q : world -> result unit -> Prop) w :
  Q (mk_world (self w) (statics w) (cfg w) (clock w) (api_log w)
       (token_log w) (messages w) (detached w ++ [t])) (Ok ()) ->
  wp (detach t) Q w.
Proof. done. Qed.

(** One step of symbolic execution. *)
Ltac wp_simpl :=
  cbv beta iota;
  cbn [self statics cfg clock api_log token_log messages detached
       m_logged_in m_token m_refresh_token m_auth_code m_token_termination
       m_curl_timeout_ms m_creds m_timout_start m_timeout_length m_current
       m_last_state set_m_logged_in set_m_token set_m_refresh_token
       set_m_token_termination set_m_creds set_m_timout_start
       set_m_timeout_length set_m_current set_m_last_state
       timeout_start timeout timeout_multiplier].

Ltac wp_simpl_in H :=
  cbv beta iota in H;
  cbn [self statics cfg clock api_log token_log messages detached
       m_logged_in m_token m_refresh_token m_auth_code m_token_termination
       m_curl_timeout_ms m_creds m_timout_start m_timeout_length m_current
       m_last_state set_m_logged_in set_m_token set_m_refresh_token
       set_m_token_termination set_m_creds set_m_timout_start
       set_m_timeout_length set_m_current set_m_last_state
       timeout_start timeout timeout_multiplier] in H.

Ltac wp_step :=
  lazymatch goal with
  | |- wp (mbind _ _) _ _ => apply wp_bind
  | |- wp (mret _) _ _ => apply wp_ret
  | |- wp (throw _) _ _ => apply wp_throw
  | |- wp get_self _ _ => apply wp_get_self
  | |- wp (modify_self _) _ _ => apply wp_modify_self
  | |- wp get_statics _ _ => apply wp_get_statics
  | |- wp (put_statics _) _ _ => apply wp_put_statics
  | |- wp get_cfg _ _ => apply wp_get_cfg
  | |- wp (put_cfg _) _ _ => apply wp_put_cfg
  | |- wp tick _ _ => apply wp_tick
  | |- wp get_api_log _ _ => apply wp_get_api_log
  | |- wp (record_exec _) _ _ => apply wp_record_exec
  | |- wp get_token_log _ _ => apply wp_get_token_log
  | |- wp (record_token _ _) _ _ => apply wp_record_token
  | |- wp (blog _ _) _ _ => apply wp_blog
  | |- wp (berr _) _ _ => apply wp_blog
  | |- wp (bwarn _) _ _ => apply wp_blog
  | |- wp (binfo _) _ _ => apply wp_blog
  | |- wp (bdebug _) _ _ => apply wp_blog
  | |- wp (detach _) _ _ => apply wp_detach
  | |- wp (current_set _ _) _ _ => apply wp_modify_self
  | |- wp (current_set_state _ _) _ _ => apply wp_modify_self
  | |- wp current_clear _ _ => apply wp_modify_self
  | |- wp (epoch _) _ _ => unfold epoch
  | |- wp (os_gettime_ns _) _ _ => unfold os_gettime_ns
  | |- wp save _ _ => unfold save
  | |- wp begin_refresh _ _ => unfold begin_refresh
  | |- wp (build_credentials _) _ _ => unfold build_credentials
  | |- wp (if ?b then _ else _) _ _ =>
      lazymatch b with
      | true => idtac
      | false => idtac
      | _ => destruct b eqn:?
      end
  | |- wp (match ?x with _ => _ end) _ _ => destruct x eqn:?
  end; wp_simpl.

Ltac wp_run := repeat wp_step.

(** ** Frames of the token functions and of execute_command *)

Lemma wp_do_refresh_token env log (Q : world -> result (bool * string) -> Prop) w :
  (forall w' r, poll_view w' = poll_view w -> Q w' (Ok r)) ->
  wp (do_refresh_token env log) Q w.
Proof.
  intros HQ. unfold do_refresh_token, request_token.
  wp_run; apply HQ; reflexivity.
Qed.

Lemma wp_execute_command env tok url hdr doc t ty data
    (Q : world -> result (Z * string * QJsonDocument) -> Prop) w :
  (forall w' ev,
      self w' = self w -> cfg w' = cfg w -> token_log w' = token_log w ->
      detached w' = detached w ->
      api_log w' = (api_log w ++ [ev])%list ->
      ev_request ev = request_of tok url ty data ->
      Q w' (Ok (ev_http_code ev, ev_header ev, ev_json ev))) ->
  wp (execute_command env tok url hdr doc t ty data) Q w.
Proof.
  intros HQ. unfold execute_command.
  wp_run;
    match goal with
    | |- Q (mk_world _ _ _ _ (_ ++ [?ev]) _ _ _) _ => by apply (HQ _ ev)
    end.
Qed.

(** The same with what the call did. *)

Lemma wp_execute_command_full env tok url t ty data
    (Q : world -> result (Z * string * QJsonDocument) -> Prop) w :
  (forall w' ev,
      self w' = self w -> cfg w' = cfg w -> token_log w' = token_log w ->
      detached w' = detached w ->
      api_log w' = (api_log w ++ [ev])%list ->
      ev_request ev = request_of tok url ty data ->
      exec_outcome env w w' ev ->
      Q w' (Ok (ev_http_code ev, ev_header ev, ev_json ev))) ->
  wp (execute_command env tok url EmptyString DocNull t ty data) Q w.
Proof.
  intros HQ. unfold execute_command.
  wp_run; try discriminate.
  all: lazymatch goal with
       | |- _ (mk_world _ _ _ _ (_ ++ [?ev])%list _ _ _) _ => apply (HQ _ ev); [done..|]
       end.
  all: unfold exec_outcome, held_back; wp_simpl; simpl ev_request; simpl ev_sent.
  all: repeat match goal with
              | H : ?b = true |- context [?b] => rewrite H
              | H : ?b = false |- context [?b] => rewrite H
              end; simpl.
  all: unfold request_of.
  all: repeat match goal with
              | H : api_perform _ _ _ = _ |- _ => rewrite H
              end.
  all: repeat match goal with
              | H : ?b = true |- context [?b] => rewrite H
              | H : ?b = false |- context [?b] => rewrite H
              end; simpl.
  all: by repeat split.
Qed.

(** Whether the request of a call was sent. *)
Lemma exec_outcome_sent env w w' ev :
  exec_outcome env w w' ev -> ev_sent ev = negb (held_back env w).
Proof.
  unfold exec_outcome. destruct (held_back env w); [by intros (-> & _)|by intros (-> & _)].
Qed.

Lemma client_frame_refl w : client_frame w w.
Proof. repeat split; try done. exists []. by rewrite app_nil_r. Qed.

Lemma client_frame_trans w1 w2 w3 :
  client_frame w1 w2 -> client_frame w2 w3 -> client_frame w1 w3.
Proof.
  intros ([e1 He1] & ? & ? & ? & ?) ([e2 He2] & ? & ? & ? & ?).
  repeat split; try congruence.
  exists (e1 ++ e2)%list. by rewrite He2, He1, app_assoc.
Qed.

Lemma wp_bind_inv {A B : Type} (I : world -> Prop) (m : M A) (k : A -> M B)
    (Q : world -> result B -> Prop) (w : world) :
  wp m (fun w' r => (exists a, r = Ok a) /\ I w') w ->
  (forall w' a, I w' -> wp (k a) Q w') ->
  wp (m ≫= k) Q w.
Proof.
  intros Hm Hk. apply wp_bind. eapply wp_mono; [exact Hm|].
  intros w' r [[a ->] HI]. by apply Hk.
Qed.

Lemma client_frame_step w0 w w' :
  client_frame w0 w ->
  (exists extra, api_log w' = (api_log w ++ extra)%list) ->
  set_m_current ∅ (self w') = set_m_current ∅ (self w) ->
  cfg w' = cfg w -> token_log w' = token_log w -> detached w' = detached w ->
  client_frame w0 w'.
Proof. intros H ? ? ? ? ?. eapply client_frame_trans; [exact H|]. by repeat split. Qed.

(** Symbolic execution through the calls of the client. *)
Ltac wp_call :=
  lazymatch goal with
  | |- wp (execute_command _ _ _ _ _ _ _ _) _ _ =>
      apply wp_execute_command; intros ? ? ? ? ? ? ? ?
  | _ => wp_step
  end.

Ltac use_frame :=
  repeat match goal with
         | H : self ?w = _ |- context [self ?w] => rewrite H
         | H : cfg ?w = _ |- context [cfg ?w] => rewrite H
         | H : token_log ?w = _ |- context [token_log ?w] => rewrite H
         | H : detached ?w = _ |- context [detached ?w] => rewrite H
         | H : api_log ?w = _ |- context [api_log ?w] => rewrite H
         end; wp_simpl.

Ltac frame_side :=
  wp_simpl; use_frame;
  first [ by exists []; rewrite app_nil_r | by eexists | done ].

Ltac frame_tac :=
  lazymatch goal with
  | H : client_frame ?w0 ?w |- client_frame ?w0 _ =>
      apply (client_frame_step w0 w); [exact H| | | | |]; frame_side
  | |- client_frame ?w _ =>
      apply (client_frame_step w w); [apply client_frame_refl| | | | |]; frame_side
  end.

(** ** parse_track_json *)

Lemma release_unset_set k v s :
  k <> meta.RELEASE_YEAR -> k <> meta.RELEASE_MONTH -> k <> meta.RELEASE_DAY ->
  release_unset s -> release_unset (Song.set k v s).
Proof.
  intros ? ? ? (? & ? & ?). unfold release_unset, release_is, Song.set.
  by rewrite !lookup_insert_ne.
Qed.

Ltac unset_tac :=
  wp_simpl; use_frame; repeat (apply release_unset_set; [done|done|done|]);
  first [ done | by unfold Song.clear, release_unset, release_is; rewrite !lookup_empty ].

(** The parser never throws, touches nothing of the client but the record
    and leaves the release fields the date calls for. *)
Lemma wp_parse_track_json env response (Q : world -> result unit -> Prop) w :
  (forall w', client_frame w w' ->
      release_is (m_current (self w')) (expected_release (release_date_of response)) ->
      Q w' (Ok ())) ->
  wp (parse_track_json env response) Q w.
Proof.
  intros HQ. unfold parse_track_json. cbv zeta.
  set (I := fun w' => client_frame w w' /\ release_unset (m_current (self w'))).
  apply (wp_bind_inv I).
  { repeat wp_call. split; [by eexists|]. split; [frame_tac|unset_tac]. }
  intros w1 _ [HF HU].
  do 10 (apply (wp_bind_inv I);
    [ repeat wp_call; (split; [by eexists|]; split; [frame_tac|unset_tac])
    | clear dependent w1; intros w1 _ [HF HU] ]).
  fold (release_date_of response). unfold expected_release in HQ.
  destruct HU as (Hy & Hm & Hd). simpl in Hy, Hm, Hd.
  destruct (release_date_of response) as [|c date]; simpl isEmpty in HQ.
  { change (0 <? String.length EmptyString)%nat with false. cbv iota.
    repeat wp_call. by apply HQ. }
  change (0 <? String.length (String c date))%nat with true. cbv iota.
  destruct (split (String c date) "-") as [|y [|m [|d [|x l]]]];
    simpl List.length; simpl nth; cbv iota;
    repeat wp_call; (apply HQ; [frame_tac|]); unfold release_is, Song.set; wp_simpl; simpl;
    repeat (rewrite lookup_insert_eq || rewrite lookup_insert_ne by done); done.
Qed.

Lemma split_no_dash (s : string) : no_dash s = true -> split s "-" = [s].
Proof.
  induction s as [|c s IH]; [done|]. simpl. intros [Hc Hs]%andb_true_iff.
  apply negb_true_iff in Hc. rewrite Hc. by rewrite IH.
Qed.

Lemma split_dash (a b : string) :
  no_dash a = true ->
  split (a ++ String "-" b) "-" = a :: split b "-".
Proof.
  induction a as [|c a IH]; [done|]. simpl. intros [Hc Hs]%andb_true_iff.
  apply negb_true_iff in Hc. rewrite Hc.
  change (String.append a (String "-" b)) with (a ++ String "-" b).
  by rewrite IH.
Qed.

(** C7. Whatever the payload, [parse_track_json] ends without an error,
    and the release fields it leaves follow the parts of the release date:
    year, month and day for three parts, year and month for two, the year
    alone for one, nothing for the empty date. *)
Theorem parse_track_json_release_date env w response (y m d : string) :
  no_dash y = true -> no_dash m = true -> no_dash d = true ->
  let out := parse_track_json env response w in
  let cur := m_current (self (fst out)) in
  snd out = Ok ()
  /\ (release_date_of response = y ++ "-" ++ m ++ "-" ++ d ->
      release_is cur (Some (QString_toInt y), Some (QString_toInt m), Some (QString_toInt d)))
  /\ (release_date_of response = y ++ "-" ++ m ->
      release_is cur (Some (QString_toInt y), Some (QString_toInt m), None))
  /\ (release_date_of response = y -> y <> EmptyString ->
      release_is cur (Some (QString_toInt y), None, None))
  /\ (release_date_of response = EmptyString -> release_is cur (None, None, None)).
Proof.
  intros Hy Hm Hd out cur. subst out cur.
  change (wp (parse_track_json env response)
            (fun w' r =>
               r = Ok ()
               /\ (release_date_of response = y ++ "-" ++ m ++ "-" ++ d ->
                   release_is (m_current (self w'))
                     (Some (QString_toInt y), Some (QString_toInt m), Some (QString_toInt d)))
               /\ (release_date_of response = y ++ "-" ++ m ->
                   release_is (m_current (self w'))
                     (Some (QString_toInt y), Some (QString_toInt m), None))
               /\ (release_date_of response = y -> y <> EmptyString ->
                   release_is (m_current (self w')) (Some (QString_toInt y), None, None))
               /\ (release_date_of response = EmptyString ->
                   release_is (m_current (self w')) (None, None, None))) w).
  apply wp_parse_track_json. intros w' _ HR.
  split; [done|]. unfold expected_release in HR.
  split; [|split; [|split]].
  - intros E. rewrite E in HR.
    change (y ++ "-" ++ m ++ "-" ++ d) with (y ++ String "-" (m ++ String "-" d)) in HR.
    rewrite !split_dash, split_no_dash in HR by done.
    by destruct y.
  - intros E. rewrite E in HR.
    change (y ++ "-" ++ m) with (y ++ String "-" m) in HR.
    rewrite split_dash, split_no_dash in HR by done.
    by destruct y.
  - intros E Hne. rewrite E in HR. rewrite split_no_dash in HR by done.
    by destruct y.
  - intros E. by rewrite E in HR.
Qed.

Lemma parse_track_json_release_date_witness :
  let env := sample_env 1000 no_network no_network DocNull in
  let cur date :=
    m_current (self (fst (parse_track_json env (JObject (track_payload date)) sample_world))) in
  release_is (cur "2021-05-09") (Some 2021, Some 5, Some 9)
  /\ release_is (cur "2021-05") (Some 2021, Some 5, None)
  /\ release_is (cur "2021") (Some 2021, None, None)
  /\ release_is (cur EmptyString) (None, None, None).
Proof.
  intros env cur.
  pose proof (parse_track_json_release_date env sample_world
                (JObject (track_payload "2021-05-09")) "2021" "05" "09"
                eq_refl eq_refl eq_refl) as (_ & H3 & _).
  pose proof (parse_track_json_release_date env sample_world
                (JObject (track_payload "2021-05")) "2021" "05" "09"
                eq_refl eq_refl eq_refl) as (_ & _ & H2 & _).
  pose proof (parse_track_json_release_date env sample_world
                (JObject (track_payload "2021")) "2021" "05" "09"
                eq_refl eq_refl eq_refl) as (_ & _ & _ & H1 & _).
  pose proof (parse_track_json_release_date env sample_world
                (JObject (track_payload EmptyString)) "2021" "05" "09"
                eq_refl eq_refl eq_refl) as (_ & _ & _ & _ & H0).
  split; [exact (H3 eq_refl)|].
  split; [exact (H2 eq_refl)|].
  split; [apply (H1 eq_refl); discriminate|].
  exact (H0 eq_refl).
Defined.

(** ** The poll cycle *)

Lemma wp_do_refresh_token_view env log (Q : world -> result (bool * string) -> Prop) w :
  (forall w' r,
      m_current (self w') = m_current (self w) ->
      m_last_state (self w') = m_last_state (self w) ->
      m_timout_start (self w') = m_timout_start (self w) ->
      m_timeout_length (self w') = m_timeout_length (self w) ->
      statics w' = statics w -> api_log w' = api_log w -> detached w' = detached w ->
      Q w' (Ok r)) ->
  wp (do_refresh_token env log) Q w.
Proof.
  intros HQ. apply wp_do_refresh_token. intros w' r Hv.
  unfold poll_view in Hv. simplify_eq. by apply HQ.
Qed.

Ltac wp_simpl_all :=
  cbn [self statics cfg clock api_log token_log messages detached
       m_logged_in m_token m_refresh_token m_auth_code m_token_termination
       m_curl_timeout_ms m_creds m_timout_start m_timeout_length m_current
       m_last_state set_m_logged_in set_m_token set_m_refresh_token
       set_m_token_termination set_m_creds set_m_timout_start
       set_m_timeout_length set_m_current set_m_last_state
       timeout_start timeout timeout_multiplier] in *.

Ltac wp_cycle :=
  lazymatch goal with
  | |- wp (do_refresh_token _ _) _ _ =>
      apply wp_do_refresh_token_view; intros ? ? ? ? ? ? ? ? ?; wp_simpl_all
  | |- wp (parse_track_json _ _) _ _ =>
      apply wp_parse_track_json; intros ? ? ?; wp_simpl_all
  | |- wp (execute_command _ _ _ _ _ _ _ _) _ _ =>
      apply wp_execute_command; intros ? ? ? ? ? ? ? ?; wp_simpl_all
  | _ => wp_step
  end.

Lemma polled_inv {A} (l : list A) ev ev0 extra rest :
  (l ++ ev0 :: extra = l ++ ev :: rest)%list -> ev0 = ev /\ extra = rest.
Proof. intros H. apply app_inv_head in H. by inversion H. Qed.

Lemma not_polled {A} (l : list A) ev rest : (l = l ++ ev :: rest)%list -> False.
Proof.
  intros H. apply (f_equal (@List.length A)) in H.
  rewrite length_app in H. simpl in H. lia.
Qed.

Ltac use_view :=
  repeat match goal with
         | H : client_frame _ _ |- _ => destruct H as ([? ?] & ? & ? & ? & ?)
         end;
  wp_simpl;
  repeat match goal with
         | H : self ?w = _ |- context [self ?w] => rewrite H; wp_simpl
         | H : api_log ?w = _ |- context [api_log ?w] => rewrite H; wp_simpl
         | H : m_current (self ?w) = _ |- context [m_current (self ?w)] => rewrite H
         | H : m_last_state (self ?w) = _ |- context [m_last_state (self ?w)] => rewrite H
         | H : m_timout_start (self ?w) = _ |- context [m_timout_start (self ?w)] => rewrite H
         | H : m_timeout_length (self ?w) = _ |- context [m_timeout_length (self ?w)] => rewrite H
         | H : statics ?w = _ |- context [statics ?w] => rewrite H
         | H : detached ?w = _ |- context [detached ?w] => rewrite H
         end.

(** From [polled w w' ev] to the event the cycle recorded. *)
Ltac find_poll :=
  unfold polled; use_view;
  let rest := fresh "rest" in
  let Hp := fresh "Hp" in
  intros [rest Hp];
  rewrite <- ?app_assoc in Hp; simpl in Hp;
  first [ by apply not_polled in Hp
        | apply polled_inv in Hp as [? ?]; subst ].

(** C6. A cycle whose poll comes back with HTTP 200 and a payload whose
    [currently_playing_type] is the string "ad" ends without an error,
    sets the status to paused whatever [is_playing] holds, writes no other
    field of the record (progress included) and calls the API no further. *)
Theorem refresh_ad env w ev o :
  let out := refresh env w in
  polled w (fst out) ev ->
  ev_http_code ev = HTTP_OK ->
  ev_json ev = DocObject o ->
  value o "currently_playing_type" = JString "ad" ->
  snd out = Ok ()
  /\ m_current (self (fst out)) = Song.set_state meta.STATUS state_paused (m_current (self w))
  /\ m_current (self (fst out)) !! meta.PROGRESS = m_current (self w) !! meta.PROGRESS
  /\ api_log (fst out) = (api_log w ++ [ev])%list
  /\ m_last_state (self (fst out)) = m_last_state (self w).
Proof.
  intros out. subst out.
  change (wp (refresh env)
            (fun w' r =>
               polled w w' ev -> ev_http_code ev = HTTP_OK -> ev_json ev = DocObject o ->
               value o "currently_playing_type" = JString "ad" ->
               r = Ok ()
               /\ m_current (self w') = Song.set_state meta.STATUS state_paused (m_current (self w))
               /\ m_current (self w') !! meta.PROGRESS = m_current (self w) !! meta.PROGRESS
               /\ api_log w' = (api_log w ++ [ev])%list
               /\ m_last_state (self w') = m_last_state (self w)) w).
  unfold refresh. repeat wp_cycle.
  all: find_poll; intros Hc Hj Ht.
  all: rewrite ?Hc, ?Hj in *; simpl doc_isObject in *; simpl object in *; cbv iota in *;
       rewrite ?Ht in *; try discriminate.
  all: repeat split; try done.
  all: unfold Song.set_state, Song.set; by rewrite lookup_insert_ne.
Qed.

Lemma refresh_ad_witness :
  let out := refresh (player_env 200 "HTTP/1.1 200 OK" (DocObject ad_payload)) sample_world in
  m_current (self (fst out))
  = Song.set_state meta.STATUS state_paused (m_current (self sample_world)).
Proof.
  refine (proj1 (proj2 (refresh_ad
           (player_env 200 "HTTP/1.1 200 OK" (DocObject ad_payload)) sample_world
           (player_event 200 "HTTP/1.1 200 OK" (DocObject ad_payload)) ad_payload
           _ _ _ _)));
    [exists []; vm_compute; reflexivity|reflexivity|reflexivity|reflexivity].
Defined.





(** C8. A cycle whose poll comes back with HTTP 204 ends without an error
    with every field of the record reset, and no status other than 200 and
    204 changes the record; neither does a cycle that sends no poll. *)
Theorem refresh_no_content env w :
  let out := refresh env w in
  (forall ev, polled w (fst out) ev -> ev_http_code ev = HTTP_NO_CONTENT ->
     snd out = Ok ()
     /\ m_current (self (fst out)) = Song.clear (m_current (self w))
     /\ (forall id, m_current (self (fst out)) !! id = None)
     /\ api_log (fst out) = (api_log w ++ [ev])%list)
  /\ (forall ev, polled w (fst out) ev ->
        ev_http_code ev <> HTTP_OK -> ev_http_code ev <> HTTP_NO_CONTENT ->
        m_current (self (fst out)) = m_current (self w))
  /\ ((forall ev, ~ polled w (fst out) ev) ->
        m_current (self (fst out)) = m_current (self w)).
Proof.
  intros out. subst out.
  change (wp (refresh env)
            (fun w' r =>
               (forall ev, polled w w' ev -> ev_http_code ev = HTTP_NO_CONTENT ->
                  r = Ok ()
                  /\ m_current (self w') = Song.clear (m_current (self w))
                  /\ (forall id, m_current (self w') !! id = None)
                  /\ api_log w' = (api_log w ++ [ev])%list)
               /\ (forall ev, polled w w' ev ->
                     ev_http_code ev <> HTTP_OK -> ev_http_code ev <> HTTP_NO_CONTENT ->
                     m_current (self w') = m_current (self w))
               /\ ((forall ev, ~ polled w w' ev) ->
                     m_current (self w') = m_current (self w))) w).
  unfold refresh. repeat wp_cycle.
  all: split; [|split].
  all: first
    [ solve [ intros Hnp; first [done | exfalso; eapply Hnp; unfold polled; use_view;
                                 eexists; rewrite <- ?app_assoc; simpl; reflexivity ] ]
    | solve [ intros ev'; find_poll; intros Hc; rewrite ?Hc in *; try discriminate;
              repeat split; try done; intros id; apply lookup_empty ]
    | solve [ intros ev'; find_poll; intros Hn1 Hn2;
              repeat match goal with
                     | H : (_ =? _) = true |- _ => apply Z.eqb_eq in H
                     end; done ] ].
Qed.

Lemma refresh_no_content_witness :
  let env204 := empty_body_env 204 "HTTP/1.1 204 No Content" in
  let env503 := empty_body_env 503 "HTTP/1.1 503 Service Unavailable" in
  m_current (self (fst (refresh env204 sample_world)))
  = Song.clear (m_current (self sample_world))
  /\ m_current (self (fst (refresh env503 sample_world))) = m_current (self sample_world).
Proof.
  intros env204 env503. split.
  - refine (proj1 (proj2 (proj1 (refresh_no_content env204 sample_world)
             (player_event 204 "HTTP/1.1 204 No Content" DocNull) _ _)));
      [exists []; vm_compute; reflexivity|reflexivity].
  - refine (proj1 (proj2 (refresh_no_content env503 sample_world))
             (player_event 503 "HTTP/1.1 503 Service Unavailable" DocNull) _ _ _);
      [exists []; vm_compute; reflexivity|discriminate|discriminate].
Defined.

Lemma refresh_zero_timeout env w ev :
  let out := refresh env w in
  polled w (fst out) ev ->
  ev_http_code ev = STATUS_RETRY_AFTER ->
  fst (extract_timeout (ev_header ev)) = 0 ->
  m_timout_start (self (fst out)) = 0.
Proof.
  intros out. subst out. intros Hp Hc Hz. revert Hp.
  change (wp (refresh env)
            (fun w' r => polled w w' ev -> m_timout_start (self w') = 0) w).
  unfold refresh. repeat wp_cycle.
  all: find_poll.
  all: rewrite ?Hc in *; try discriminate.
  all: repeat match goal with
              | H : extract_timeout _ = _ |- _ => rewrite H in Hz; simpl in Hz; subst
              | H : negb (_ =? _) = false |- _ => apply negb_false_iff, Z.eqb_eq in H
              end; try done; congruence.
Qed.

(** C5 as amended. A header in which the first "Retry-After: " is the one
    of the line "Retry-After: 30" yields 30; a header without the token
    yields 0; and a cycle that is answered "too many requests" with a
    header that yields 0 leaves the cooldown of the poller unarmed. *)
Theorem extract_timeout_retry_after :
  (forall pre suf,
      find what pre = None ->
      extract_timeout (pre ++ retry_after_30 ++ suf) = (30, None))
  /\ (forall header, find what header = None -> extract_timeout header = (0, None))
  /\ (forall env w ev,
      polled w (fst (refresh env w)) ev ->
      ev_http_code ev = STATUS_RETRY_AFTER ->
      fst (extract_timeout (ev_header ev)) = 0 ->
      m_timout_start (self (fst (refresh env w))) = 0).
Proof.
  split; [|split].
  - apply extract_timeout_example.
  - apply extract_timeout_absent.
  - apply refresh_zero_timeout.
Qed.

Lemma extract_timeout_retry_after_witness :
  let status := "HTTP/1.1 429 Too Many Requests" ++ String newline EmptyString in
  extract_timeout (status ++ retry_after_30 ++ "Content-Length: 0") = (30, None)
  /\ extract_timeout status = (0, None)
  /\ m_timout_start (self (fst (refresh (empty_body_env 429 status) sample_world))) = 0.
Proof.
  intros status.
  destruct extract_timeout_retry_after as (H1 & H2 & H3).
  split; [|split].
  - refine (H1 status "Content-Length: 0" _). reflexivity.
  - refine (H2 status _). reflexivity.
  - refine (H3 (empty_body_env 429 status) sample_world (player_event 429 status DocNull) _ _ _);
      [exists []; vm_compute; reflexivity|reflexivity|reflexivity].
Defined.

(** C5 as stated fails: a header can contain the line "Retry-After: 30"
    and yield something else, since the first "Retry-After: " counts. With
    a line of 5 seconds before it the header yields 5; with the name of
    the header quoted in an earlier line [std::stoi] throws. *)
Lemma extract_timeout_earlier_token :
  (two_retry_lines = ("Retry-After: 5" ++ String newline EmptyString) ++ retry_after_30 ++ EmptyString
   /\ extract_timeout two_retry_lines = (5, None)
   /\ extract_timeout two_retry_lines <> (30, None))
  /\ (quoted_retry_line
      = ("Warning: no Retry-After: given" ++ String newline EmptyString)
        ++ retry_after_30 ++ EmptyString
      /\ extract_timeout quoted_retry_line = (0, Some invalid_argument)).
Proof. vm_compute. repeat split. discriminate. Qed.

(** ** The token refresh *)

Lemma isEmpty_refresh_request (x : string) :
  isEmpty ("grant_type=refresh_token&refresh_token=" ++ x) = false.
Proof. reflexivity. Qed.

Lemma wp_build_credentials env (Q : world -> result unit -> Prop) w :
  Q (mk_world (set_m_creds (credentials_of env (cfg w)) (self w)) (statics w) (cfg w)
       (clock w) (api_log w) (token_log w) (messages w) (detached w)) (Ok ()) ->
  wp (build_credentials env) Q w.
Proof.
  unfold build_credentials, credentials_of. intros HQ. wp_step. wp_step. wp_simpl.
  destruct (negb (isEmpty (CFG_SPOTIFY_CLIENT_ID (cfg w)))
            && negb (isEmpty (CFG_SPOTIFY_CLIENT_SECRET (cfg w)))); by wp_step.
Qed.

Lemma wp_request_token env rq cr doc0 t (Q : world -> result QJsonDocument -> Prop) w :
  isEmpty rq = false ->
  (forall msgs,
      Q (mk_world (self w) (statics w) (cfg w) (clock w) (api_log w)
           (if isEmpty cr then token_log w else token_log w ++ [(rq, cr)])%list
           (messages w ++ msgs) (detached w))
        (Ok (if isEmpty cr then doc0
             else match token_perform env (List.length (token_log w)) rq cr with
                  | CURLE_OK _ response _ => fromJson env response
                  | CURLE_FAILED _ => doc0
                  end))) ->
  wp (request_token env rq cr doc0 t) Q w.
Proof.
  intros Hrq HQ. unfold request_token. rewrite Hrq. simpl orb.
  destruct (isEmpty cr); wp_run; try apply HQ.
  all: rewrite <- app_assoc; apply HQ.
Qed.

(** The token refresh in closed form. *)

Lemma do_refresh_token_spec env w log :
  let creds := credentials_of env (cfg w) in
  let doc := token_response env w in
  let ok := isString (doc_at doc "access_token") && isDouble (doc_at doc "expires_in") in
  let rt := doc_at doc "refresh_token" in
  let out := do_refresh_token env log w in
  let s' := self (fst out) in
  (exists l, snd out = Ok (ok, l))
  /\ m_logged_in s' = ok
  /\ m_token s' = (if ok then toString (doc_at doc "access_token") else m_token (self w))
  /\ m_token_termination s'
     = (if ok then epoch_at env (clock w) + toInt (doc_at doc "expires_in")
        else m_token_termination (self w))
  /\ m_refresh_token s'
     = (if isString rt && negb (isEmpty (toString rt)) then toString rt
        else m_refresh_token (self w))
  /\ token_log (fst out)
     = (if isEmpty creds then token_log w
        else token_log w ++ [(refresh_request w, creds)])%list
  /\ (isEmpty (m_refresh_token (self w)) = true ->
      In (LOG_ERROR, "Refresh token is empty!") (messages (fst out))).
Proof.
  intros creds doc ok rt out s'. subst out s'.
  change (wp (do_refresh_token env log)
    (fun w' r =>
       (exists l, r = Ok (ok, l))
       /\ m_logged_in (self w') = ok
       /\ m_token (self w')
          = (if ok then toString (doc_at doc "access_token") else m_token (self w))
       /\ m_token_termination (self w')
          = (if ok then epoch_at env (clock w) + toInt (doc_at doc "expires_in")
             else m_token_termination (self w))
       /\ m_refresh_token (self w')
          = (if isString rt && negb (isEmpty (toString rt)) then toString rt
             else m_refresh_token (self w))
       /\ token_log w'
          = (if isEmpty creds then token_log w
             else token_log w ++ [(refresh_request w, creds)])%list
       /\ (isEmpty (m_refresh_token (self w)) = true ->
           In (LOG_ERROR, "Refresh token is empty!") (messages w'))) w).
  unfold do_refresh_token.
  apply wp_bind, wp_build_credentials. wp_simpl.
  wp_step. wp_step. wp_simpl. wp_step.
  apply (wp_mono _ (fun w' r => r = Ok () /\ self w' = set_m_creds creds (self w)
                               /\ cfg w' = cfg w /\ clock w' = clock w
                               /\ token_log w' = token_log w
                               /\ (isEmpty (m_refresh_token (self w)) = true ->
                                   In (LOG_ERROR, "Refresh token is empty!") (messages w')))).
  { wp_run; repeat split; try done. intros _. apply in_app_iff. simpl. tauto. }
  intros w1 r (-> & Hs & Hc & Hk & Ht & Hm). wp_simpl.
  wp_step. apply wp_request_token; [reflexivity|]. intros msgs. wp_simpl.
  rewrite Ht. fold creds. fold (refresh_request w). fold (credentials_of env (cfg w)).
  fold creds.
  change (if isEmpty creds then DocNull
          else match token_perform env (List.length (token_log w)) (refresh_request w) creds with
               | CURLE_OK _ response _ => fromJson env response
               | CURLE_FAILED _ => DocNull
               end) with doc.
  unfold ok, rt, doc_at. clear ok rt. clearbody doc.
  destruct doc as [|a|o]; simpl doc_isNull; simpl object; simpl value; simpl isString;
    simpl andb; cbv iota.
  all: wp_run; use_frame.
  all: repeat match goal with
              | H : ?b = true |- context [?b] => rewrite H
              | H : ?b = false |- context [?b] => rewrite H
              end; simpl.
  all: repeat split; try done; try (by eexists); try (by rewrite Hk).
  all: intros He; specialize (Hm He); rewrite !in_app_iff; tauto.
Qed.

(** C3 as amended. When the answer of the token endpoint lacks a string
    [access_token] or a numeric [expires_in] (also when no answer comes
    back at all), the refresh reports failure, marks the client logged out
    and leaves the access token and the expiry as they were. When it has
    both, the refresh succeeds and replaces the access token and the
    expiry, whatever else the answer holds: an [error] member plays no
    part in the decision. In both cases the refresh token is replaced
    when the answer carries a non-empty string [refresh_token], and kept
    otherwise. *)
Theorem do_refresh_token_failure env w log :
  let doc := token_response env w in
  let granted := isString (doc_at doc "access_token") && isDouble (doc_at doc "expires_in") in
  let rt := doc_at doc "refresh_token" in
  let out := do_refresh_token env log w in
  let s' := self (fst out) in
  (granted = false ->
     (exists l, snd out = Ok (false, l))
     /\ m_logged_in s' = false
     /\ m_token s' = m_token (self w)
     /\ m_token_termination s' = m_token_termination (self w))
  /\ (granted = true ->
     (exists l, snd out = Ok (true, l))
     /\ m_logged_in s' = true
     /\ m_token s' = toString (doc_at doc "access_token")
     /\ m_token_termination s' = epoch_at env (clock w) + toInt (doc_at doc "expires_in"))
  /\ m_refresh_token s'
     = (if isString rt && negb (isEmpty (toString rt)) then toString rt
        else m_refresh_token (self w)).
Proof.
  intros doc granted rt out s'.
  destruct (do_refresh_token_spec env w log) as (Hr & Hl & Ht & Hx & Hrt & _).
  fold doc in Hr, Hl, Ht, Hx, Hrt. fold granted in Hr, Hl, Ht, Hx.
  split; [|split; [|exact Hrt]]; intros Hg; rewrite Hg in Hr, Hl, Ht, Hx; by repeat split.
Qed.

Lemma do_refresh_token_failure_witness :
  let failed := do_refresh_token (token_env (DocObject rotated_payload)) EmptyString
                  sample_world in
  let granted := do_refresh_token (token_env (DocObject granted_with_error_payload))
                   EmptyString sample_world in
  (m_token (self (fst failed)) = m_token (self sample_world)
   /\ m_token_termination (self (fst failed)) = m_token_termination (self sample_world))
  /\ m_logged_in (self (fst granted)) = true.
Proof.
  intros failed granted. split.
  - pose proof (proj1 (do_refresh_token_failure (token_env (DocObject rotated_payload))
                         sample_world EmptyString) eq_refl) as (_ & _ & Ht & Hx).
    split; [exact Ht | exact Hx].
  - pose proof (proj1 (proj2 (do_refresh_token_failure
                         (token_env (DocObject granted_with_error_payload))
                         sample_world EmptyString)) eq_refl) as (_ & Hl & _).
    exact Hl.
Defined.

(** C3 as stated fails. An answer with an [error] member, no access token
    and a new refresh token is a failed refresh that still adopts the new
    refresh token; and an answer with an [error] member beside a string
    [access_token] and a numeric [expires_in] is a refresh that succeeds
    and replaces the access token. *)
Lemma do_refresh_token_partial_update :
  let env := token_env (DocObject rotated_payload) in
  let out := do_refresh_token env EmptyString sample_world in
  let env2 := token_env (DocObject granted_with_error_payload) in
  let out2 := do_refresh_token env2 EmptyString sample_world in
  (token_response env sample_world = DocObject rotated_payload
   /\ snd out = Ok (false, "{}")
   /\ m_token (self (fst out)) = m_token (self sample_world)
   /\ m_refresh_token (self sample_world) = "refresh"
   /\ m_refresh_token (self (fst out)) = "rotated")
  /\ (token_response env2 sample_world = DocObject granted_with_error_payload
      /\ isString (doc_at (token_response env2 sample_world) "error") = true
      /\ snd out2 = Ok (true, "{}")
      /\ m_token (self sample_world) = "token"
      /\ m_token (self (fst out2)) = "fresh").
Proof. vm_compute. repeat split. Qed.

(** C1, on the code. With an empty refresh token stored and credentials
    at hand, [do_refresh_token] logs the error and goes on: the request
    "grant_type=refresh_token&refresh_token=" is sent to the token
    endpoint, and an answer with a string [access_token] and a numeric
    [expires_in] makes the refresh succeed and replace the access token
    and the expiry. *)
Theorem do_refresh_token_empty_refresh_token env w log :
  m_refresh_token (self w) = EmptyString ->
  isEmpty (credentials_of env (cfg w)) = false ->
  let doc := token_response env w in
  let out := do_refresh_token env log w in
  token_log (fst out)
  = (token_log w ++ [("grant_type=refresh_token&refresh_token=", credentials_of env (cfg w))])%list
  /\ In (LOG_ERROR, "Refresh token is empty!") (messages (fst out))
  /\ (isString (doc_at doc "access_token") && isDouble (doc_at doc "expires_in") = true ->
      (exists l, snd out = Ok (true, l))
      /\ m_logged_in (self (fst out)) = true
      /\ m_token (self (fst out)) = toString (doc_at doc "access_token")
      /\ m_token_termination (self (fst out))
         = epoch_at env (clock w) + toInt (doc_at doc "expires_in")).
Proof.
  intros He Hc doc out.
  destruct (do_refresh_token_spec env w log) as (Hr & Hl & Ht & Hx & _ & Hlog & Hm).
  fold doc in Hr, Hl, Ht, Hx. fold out in Hr, Hl, Ht, Hx, Hlog, Hm.
  rewrite Hc in Hlog. unfold refresh_request in Hlog. rewrite He in Hlog.
  split; [exact Hlog|]. split; [apply Hm; by rewrite He|].
  intros Hok. rewrite Hok in Hr, Hl, Ht, Hx. by repeat split.
Qed.

Lemma do_refresh_token_empty_refresh_token_witness :
  let env := token_env (DocObject granted_payload) in
  let out := do_refresh_token env EmptyString signed_out_world in
  token_log (fst out) = [("grant_type=refresh_token&refresh_token=", "aWQ6c2VjcmV0")]
  /\ m_token (self (fst out)) = "fresh".
Proof.
  intros env out.
  pose proof (do_refresh_token_empty_refresh_token env signed_out_world EmptyString
                eq_refl eq_refl) as (Hlog & _ & Hok).
  split; [exact Hlog|]. exact (proj1 (proj2 (proj2 (Hok eq_refl)))).
Defined.

(** ** The back-off of execute_command *)

Lemma sent_count_app l ev :
  sent_count (l ++ [ev]) = (sent_count l + (if ev_sent ev then 1 else 0))%nat.
Proof.
  unfold sent_count. rewrite List.filter_app, List.length_app. simpl.
  by destruct (ev_sent ev).
Qed.

Lemma run_command_spec env c w :
  let out := run_command env c w in
  let w' := fst out in
  if held_back env w then
    snd out = Ok (0, EmptyString, DocNull)
    /\ statics w' = statics w
    /\ sent_count (api_log w') = sent_count (api_log w)
  else
    sent_count (api_log w') = S (sent_count (api_log w))
    /\ match api_perform env (sent_count (api_log w)) (command_request c) with
       | CURLE_FAILED h =>
           snd out = Ok (-1, h, DocNull)
           /\ (exists n, timeout_start (statics w') = to_int (epoch_at env n))
           /\ timeout (statics w') = to_int (5 * timeout_multiplier (statics w))
           /\ timeout_multiplier (statics w') = to_int (timeout_multiplier (statics w) + 1)
       | CURLE_OK code body h =>
           snd out = Ok (code, h, fromJson env body)
           /\ (doc_isNull (fromJson env body) && negb (isEmpty body) = false ->
               statics w' = mk_exec_statics 0 0 1)
       end.
Proof.
  intros out w'. subst out w'. unfold held_back.
  change (wp (run_command env c) (fun w' r =>
  if (0 <? timeout (statics w))
  && negb (epoch_at env (clock w) - timeout_start (statics w) >=? timeout (statics w)) then
    r = Ok (0, EmptyString, DocNull)
    /\ statics w' = statics w
    /\ sent_count (api_log w') = sent_count (api_log w)
  else
    sent_count (api_log w') = S (sent_count (api_log w))
    /\ match api_perform env (sent_count (api_log w)) (command_request c) with
       | CURLE_FAILED h =>
           r = Ok (-1, h, DocNull)
           /\ (exists n, timeout_start (statics w') = to_int (epoch_at env n))
           /\ timeout (statics w') = to_int (5 * timeout_multiplier (statics w))
           /\ timeout_multiplier (statics w') = to_int (timeout_multiplier (statics w) + 1)
       | CURLE_OK code body h =>
           r = Ok (code, h, fromJson env body)
           /\ (doc_isNull (fromJson env body) && negb (isEmpty body) = false ->
               statics w' = mk_exec_statics 0 0 1)
       end) w).
  unfold run_command, execute_command, command_request, request_of.
  wp_run.
  all: try discriminate.
  all: rewrite ?sent_count_app; simpl ev_sent; cbv iota.
  all: repeat match goal with
              | H : ?b = true |- context [?b] => rewrite H
              | H : ?b = false |- context [?b] => rewrite H
              | H : api_perform _ _ _ = _ |- _ => rewrite H
              end; simpl.
  all: repeat split; try done; try lia; try (by eexists).
Qed.

Lemma run_command_returns env c w : exists a, snd (run_command env c w) = Ok a.
Proof.
  change (wp (run_command env c) (fun _ r => exists a, r = Ok a) w).
  unfold run_command. apply wp_execute_command. intros. by eexists.
Qed.

Lemma run_commands_cons env c cs w :
  run_commands env (c :: cs) w = run_commands env cs (fst (run_command env c w)).
Proof.
  destruct (run_command_returns env c w) as [a Ha].
  simpl. unfold mbind, M_bind.
  destruct (run_command env c w) as [w1 r]. simpl in *. by subst.
Qed.

Lemma sent_count_run_command env c w :
  (sent_count (api_log w) <= sent_count (api_log (fst (run_command env c w))))%nat.
Proof.
  pose proof (run_command_spec env c w) as H. simpl in H.
  destruct (held_back env w); [destruct H as (_ & _ & ->); lia|].
  destruct H as [-> _]. lia.
Qed.

Lemma sent_count_run_commands env cs w :
  (sent_count (api_log w) <= sent_count (api_log (fst (run_commands env cs w))))%nat.
Proof.
  revert w. induction cs as [|c cs IH]; intros w; [done|].
  rewrite run_commands_cons. etrans; [apply (sent_count_run_command env c)|apply IH].
Qed.

Lemma to_int_small z : INT_MIN <= z <= INT_MAX -> to_int z = z.
Proof. unfold INT_MIN, INT_MAX, to_int. intros H. rewrite Z.mod_small; lia. Qed.

Lemma backoff_run env cs : forall w j,
  0 <= j ->
  timeout_multiplier (statics w) = j + 1 ->
  (1 <= j -> timeout (statics w) = 5 * j) ->
  (forall n req, (sent_count (api_log w) <= n)%nat ->
     exists h, api_perform env n req = CURLE_FAILED h) ->
  let w' := fst (run_commands env cs w) in
  let k := Z.of_nat (sent_count (api_log w')) - Z.of_nat (sent_count (api_log w)) in
  5 * (j + k) <= INT_MAX ->
  timeout_multiplier (statics w') = j + k + 1
  /\ (1 <= j + k -> timeout (statics w') = 5 * (j + k)).
Proof.
  induction cs as [|c cs IH]; intros w j Hj Hm Ht Hfail w' k Hk; subst w' k.
  { simpl in *. replace (j + (_ - _)) with j by lia. by split. }
  rewrite run_commands_cons in *.
  pose proof (run_command_spec env c w) as H. simpl in H.
  pose proof (sent_count_run_commands env cs (fst (run_command env c w))) as Hmono.
  set (w1 := fst (run_command env c w)) in *.
  destruct (held_back env w).
  - destruct H as (_ & Hs & Hc).
    specialize (IH w1 j Hj). rewrite Hs, Hc in IH. rewrite Hc in Hmono.
    apply IH; auto.
  - destruct H as (Hc & H).
    destruct (Hfail _ (command_request c) (le_n _)) as [h Hh]. rewrite Hh in H.
    destruct H as (_ & _ & Ht1 & Hm1). rewrite Hm in Ht1, Hm1.
    rewrite Hc in Hmono. unfold INT_MAX in Hk.
    rewrite to_int_small in Ht1 by (unfold INT_MIN, INT_MAX; lia).
    rewrite to_int_small in Hm1 by (unfold INT_MIN, INT_MAX; lia).
    specialize (IH w1 (j + 1)).
    replace (j + (Z.of_nat (sent_count (api_log (fst (run_commands env cs w1))))
                  - Z.of_nat (sent_count (api_log w))))
      with (j + 1 + (Z.of_nat (sent_count (api_log (fst (run_commands env cs w1))))
                     - Z.of_nat (sent_count (api_log w1)))) in * by lia.
    apply IH; try lia; try done.
    intros n req Hn. apply Hfail. lia.
Qed.

(** Reduction to [int] commutes with the arithmetic of the back-off. *)

Lemma to_int_mul a b : to_int (a * to_int b) = to_int (a * b).
Proof.
  unfold to_int. f_equal.
  rewrite (Z.mod_eq (b + 2147483648) 4294967296) by lia.
  replace (a * (b + 2147483648 - 4294967296 * ((b + 2147483648) / 4294967296) - 2147483648)
           + 2147483648)
    with (a * b + 2147483648 + (- a * ((b + 2147483648) / 4294967296)) * 4294967296) by lia.
  apply Z_mod_plus_full.
Qed.

Lemma to_int_add a b : to_int (to_int a + b) = to_int (a + b).
Proof.
  unfold to_int. f_equal.
  rewrite (Z.mod_eq (a + 2147483648) 4294967296) by lia.
  replace (a + 2147483648 - 4294967296 * ((a + 2147483648) / 4294967296) - 2147483648 + b
           + 2147483648)
    with (a + b + 2147483648 + (- ((a + 2147483648) / 4294967296)) * 4294967296) by lia.
  apply Z_mod_plus_full.
Qed.

Lemma to_int_range z : INT_MIN <= to_int z <= INT_MAX.
Proof.
  unfold to_int, INT_MIN, INT_MAX.
  pose proof (Z.mod_pos_bound (z + 2147483648) 4294967296). lia.
Qed.

Lemma offline_step c w j :
  backoff_state j w ->
  let w' := fst (run_command offline_env c w) in
  backoff_state (j + 1) w' /\ sent_count (api_log w') = S (sent_count (api_log w)).
Proof.
  intros (Hs & Ht & Hm) w'. subst w'.
  pose proof (run_command_spec offline_env c w) as H. simpl in H.
  assert (Hh : held_back offline_env w = false).
  { unfold held_back. rewrite Hs, Ht. simpl epoch_at.
    pose proof (to_int_range (5 * j)) as Hr. unfold INT_MAX, far_future in *.
    destruct (0 <? to_int (5 * j)); [|done]. simpl.
    apply negb_false_iff, Z.geb_le. lia. }
  rewrite Hh in H. destruct H as (Hc & _ & [n Hn] & Ht1 & Hm1).
  split; [|done]. repeat split.
  - by rewrite Hn.
  - rewrite Ht1, Hm. by rewrite to_int_mul.
  - rewrite Hm1, Hm. rewrite to_int_add. f_equal; lia.
Qed.

Lemma offline_run c (n : nat) : forall w j,
  backoff_state j w ->
  let w' := fst (run_commands offline_env (repeat c n) w) in
  backoff_state (j + Z.of_nat n) w'
  /\ sent_count (api_log w') = (sent_count (api_log w) + n)%nat.
Proof.
  induction n as [|n IH]; intros w j H w'; subst w'.
  - simpl. rewrite Z.add_0_r, Nat.add_0_r. by split.
  - change (repeat c (S n)) with (c :: repeat c n). rewrite run_commands_cons.
    destruct (offline_step c w j H) as [H1 Hc1].
    destruct (IH _ _ H1) as [H2 Hc2].
    replace (j + Z.of_nat (S n)) with (j + 1 + Z.of_nat n) by lia.
    split; [done|]. rewrite Hc2, Hc1. lia.
Qed.

(** *** The cooldown and the clock *)

(** The clock readings of one call: a call that is held back takes one,
    a failed transfer takes one more, and that one is the start of the
    cooldown. *)
Lemma run_command_clock env c w :
  let w' := fst (run_command env c w) in
  if held_back env w then clock w' = S (clock w)
  else match api_perform env (sent_count (api_log w)) (command_request c) with
       | CURLE_FAILED _ =>
           timeout_start (statics w') = to_int (epoch_at env (Nat.pred (clock w')))
           /\ (clock w <= Nat.pred (clock w'))%nat
       | CURLE_OK _ _ _ => True
       end.
Proof.
  intros w'. subst w'. unfold held_back.
  change (wp (run_command env c) (fun w' _ =>
    if (0 <? timeout (statics w))
       && negb (epoch_at env (clock w) - timeout_start (statics w) >=? timeout (statics w))
    then clock w' = S (clock w)
    else match api_perform env (sent_count (api_log w)) (command_request c) with
         | CURLE_FAILED _ =>
             timeout_start (statics w') = to_int (epoch_at env (Nat.pred (clock w')))
             /\ (clock w <= Nat.pred (clock w'))%nat
         | CURLE_OK _ _ _ => True
         end) w).
  unfold run_command, execute_command, command_request, request_of.
  wp_run.
  all: repeat match goal with
              | H : ?b = true |- context [?b] => rewrite H
              | H : ?b = false |- context [?b] => rewrite H
              | H : api_perform _ _ _ = _ |- _ => rewrite H
              end; simpl; try done.
  all: split; [done|lia].
Qed.

(** Calls made while the cooldown runs change nothing but the clock. *)
Lemma held_back_run env cs : forall w,
  0 < timeout (statics w) ->
  (forall k, (k < List.length cs)%nat ->
     epoch_at env (clock w + k) - timeout_start (statics w) < timeout (statics w)) ->
  let w2 := fst (run_commands env cs w) in
  statics w2 = statics w
  /\ sent_count (api_log w2) = sent_count (api_log w)
  /\ clock w2 = (clock w + List.length cs)%nat.
Proof.
  induction cs as [|c cs IH]; intros w Hpos Hk w2; subst w2.
  { simpl. by rewrite Nat.add_0_r. }
  rewrite run_commands_cons.
  assert (Hh : held_back env w = true).
  { unfold held_back. apply andb_true_iff. split; [by apply Z.ltb_lt|].
    apply negb_true_iff. specialize (Hk 0%nat). rewrite Nat.add_0_r in Hk.
    destruct (Z.geb_spec (epoch_at env (clock w) - timeout_start (statics w))
                (timeout (statics w))); [|done].
    simpl in Hk. lia. }
  pose proof (run_command_spec env c w) as H. simpl in H. rewrite Hh in H.
  pose proof (run_command_clock env c w) as Hc. simpl in Hc. rewrite Hh in Hc.
  destruct H as (_ & Hs & Hn).
  set (w1 := fst (run_command env c w)) in *.
  destruct (IH w1) as (Hs2 & Hn2 & Hc2).
  - by rewrite Hs.
  - intros k Hlt. rewrite Hs, Hc.
    replace (S (clock w) + k)%nat with (clock w + S k)%nat by lia.
    apply Hk. simpl. lia.
  - rewrite Hs2, Hn2, Hc2, Hs, Hn, Hc. simpl. repeat split; lia.
Qed.

(** The cooldown runs from the failure that scheduled it. *)
Lemma backoff_cooldown env cs c w N :
  timeout_multiplier (statics w) = 1 ->
  (forall n req, (sent_count (api_log w) <= n)%nat ->
     exists h, api_perform env n req = CURLE_FAILED h) ->
  let w1 := fst (run_commands env cs w) in
  Z.of_nat (sent_count (api_log w1)) = Z.of_nat (sent_count (api_log w)) + (N - 1) ->
  held_back env w1 = false ->
  1 <= N -> 5 * N <= INT_MAX ->
  let w' := fst (run_command env c w1) in
  let failed_at := to_int (epoch_at env (Nat.pred (clock w'))) in
  statics w' = mk_exec_statics failed_at (5 * N) (N + 1)
  /\ Z.of_nat (sent_count (api_log w')) = Z.of_nat (sent_count (api_log w)) + N
  /\ (forall cs2,
        (forall k, (k < List.length cs2)%nat ->
           epoch_at env (clock w' + k) - failed_at < 5 * N) ->
        let w2 := fst (run_commands env cs2 w') in
        statics w2 = statics w'
        /\ sent_count (api_log w2) = sent_count (api_log w')
        /\ clock w2 = (clock w' + List.length cs2)%nat
        /\ (forall c2,
              5 * N <= epoch_at env (clock w2) - failed_at ->
              sent_count (api_log (fst (run_command env c2 w2)))
              = S (sent_count (api_log w2)))).
Proof.
  intros Hm Hfail w1 Hn Hh HN Hmax w' failed_at.
  pose proof (backoff_run env cs w 0 (Z.le_refl 0) Hm) as H. simpl in H.
  fold w1 in H. replace (0 + _) with (N - 1) in H by lia.
  destruct H as [Hm1 _]; [lia|done|unfold INT_MAX in *; lia|].
  pose proof (run_command_spec env c w1) as S. simpl in S. rewrite Hh in S.
  pose proof (run_command_clock env c w1) as C. simpl in C. rewrite Hh in C.
  destruct (Hfail (sent_count (api_log w1)) (command_request c)) as [h Hf]; [lia|].
  rewrite Hf in S, C. fold w' in S, C.
  destruct S as (Hc & _ & _ & Ht & Hmul). destruct C as (Hstart & _).
  rewrite Hm1 in Ht, Hmul. unfold INT_MAX in Hmax.
  replace (N - 1 + 1) with N in Ht, Hmul by lia.
  rewrite to_int_small in Ht by (unfold INT_MIN, INT_MAX; lia).
  rewrite to_int_small in Hmul by (unfold INT_MIN, INT_MAX; lia).
  assert (Hst : statics w' = mk_exec_statics failed_at (5 * N) (N + 1)).
  { destruct (statics w') as [a b m]. simpl in *. by subst. }
  split; [exact Hst|]. split; [lia|].
  intros cs2 Hk w2.
  destruct (held_back_run env cs2 w') as (Hs2 & Hn2 & Hc2).
  - rewrite Hst. simpl. lia.
  - intros k Hlt. rewrite Hst. simpl. by apply Hk.
  - fold w2 in Hs2, Hn2, Hc2. split; [done|]. split; [done|]. split; [done|].
    intros c2 Hge.
    pose proof (run_command_spec env c2 w2) as S2. simpl in S2.
    assert (Hh2 : held_back env w2 = false).
    { unfold held_back. rewrite Hs2, Hst. simpl.
      apply andb_false_iff. right. apply negb_false_iff, Z.geb_le. lia. }
    rewrite Hh2 in S2. apply S2.
Qed.

(** C4 as stated fails for large N: the cooldown is an [int]. After
    429496730 failures in a row it is not 5 * 429496730, which no [int]
    holds. *)
Lemma backoff_overflow :
  let w' := fst (run_commands offline_env
                   (repeat poll_command (Z.to_nat overflow_count)) sample_world) in
  timeout_multiplier (statics sample_world) = 1
  /\ Z.of_nat (sent_count (api_log w')) = overflow_count
  /\ timeout (statics w') = -2147483646
  /\ timeout (statics w') <> 5 * overflow_count.
Proof.
  intros w'.
  assert (H0 : backoff_state 0 sample_world) by (repeat split).
  destruct (offline_run poll_command (Z.to_nat overflow_count) sample_world 0 H0) as [(_ & Ht & _) Hc].
  fold w' in Ht, Hc.
  rewrite Z2Nat.id in Ht by (unfold overflow_count; lia).
  split; [reflexivity|]. split.
  - rewrite Hc. change (sent_count (api_log sample_world)) with 0%nat.
    rewrite Nat.add_0_l. apply Z2Nat.id. unfold overflow_count; lia.
  - rewrite Ht. split; [reflexivity|]. unfold overflow_count. vm_compute. discriminate.
Qed.

(** C4 as amended. From a multiplier of 1, after N >= 1 transport failures
    in a row with 5 * N within [int], the cooldown is 5 * N seconds and the
    multiplier N + 1; while fewer seconds than the cooldown have passed
    the next call is held back and sends nothing, after that it goes out;
    a call that goes out and gets a body that parses resets the static
    locals, multiplier 1 included; and from there a failure schedules 5
    seconds. The cooldown counts from the N-th failure (last part): that
    failure sets the start to the reading of the clock it took, reduced
    to [int]; every call made while fewer than 5 * N seconds have passed
    since that reading is held back, sends nothing and leaves the static
    locals alone, and the first call made after that goes out as the next
    attempt. *)
Theorem execute_command_backoff env :
  (forall cs w N,
      timeout_multiplier (statics w) = 1 ->
      (forall n req, (sent_count (api_log w) <= n)%nat ->
         exists h, api_perform env n req = CURLE_FAILED h) ->
      let w' := fst (run_commands env cs w) in
      Z.of_nat (sent_count (api_log w')) = Z.of_nat (sent_count (api_log w)) + N ->
      1 <= N -> 5 * N <= INT_MAX ->
      timeout (statics w') = 5 * N /\ timeout_multiplier (statics w') = N + 1)
  /\ (forall c w,
      0 < timeout (statics w) ->
      epoch_at env (clock w) - timeout_start (statics w) < timeout (statics w) ->
      let out := run_command env c w in
      snd out = Ok (0, EmptyString, DocNull)
      /\ statics (fst out) = statics w
      /\ sent_count (api_log (fst out)) = sent_count (api_log w))
  /\ (forall c w,
      0 < timeout (statics w) ->
      timeout (statics w) <= epoch_at env (clock w) - timeout_start (statics w) ->
      sent_count (api_log (fst (run_command env c w))) = S (sent_count (api_log w)))
  /\ (forall c w code body h,
      held_back env w = false ->
      api_perform env (sent_count (api_log w)) (command_request c) = CURLE_OK code body h ->
      doc_isNull (fromJson env body) = false ->
      statics (fst (run_command env c w)) = mk_exec_statics 0 0 1)
  /\ (forall c w h,
      statics w = mk_exec_statics 0 0 1 ->
      api_perform env (sent_count (api_log w)) (command_request c) = CURLE_FAILED h ->
      timeout (statics (fst (run_command env c w))) = 5
      /\ timeout_multiplier (statics (fst (run_command env c w))) = 2)
  /\ (forall cs c w N,
      timeout_multiplier (statics w) = 1 ->
      (forall n req, (sent_count (api_log w) <= n)%nat ->
         exists h, api_perform env n req = CURLE_FAILED h) ->
      let w1 := fst (run_commands env cs w) in
      Z.of_nat (sent_count (api_log w1)) = Z.of_nat (sent_count (api_log w)) + (N - 1) ->
      held_back env w1 = false ->
      1 <= N -> 5 * N <= INT_MAX ->
      let w' := fst (run_command env c w1) in
      let failed_at := to_int (epoch_at env (Nat.pred (clock w'))) in
      statics w' = mk_exec_statics failed_at (5 * N) (N + 1)
      /\ Z.of_nat (sent_count (api_log w')) = Z.of_nat (sent_count (api_log w)) + N
      /\ (forall cs2,
            (forall k, (k < List.length cs2)%nat ->
               epoch_at env (clock w' + k) - failed_at < 5 * N) ->
            let w2 := fst (run_commands env cs2 w') in
            statics w2 = statics w'
            /\ sent_count (api_log w2) = sent_count (api_log w')
            /\ clock w2 = (clock w' + List.length cs2)%nat
            /\ (forall c2,
                  5 * N <= epoch_at env (clock w2) - failed_at ->
                  sent_count (api_log (fst (run_command env c2 w2)))
                  = S (sent_count (api_log w2))))).
Proof.
  split; [|split; [|split; [|split; [|split; [|exact (backoff_cooldown env)]]]]].
  - intros cs w N Hm Hfail w' Hc HN Hmax.
    pose proof (backoff_run env cs w 0 (Z.le_refl 0) Hm) as H. simpl in H.
    fold w' in H. replace (0 + _) with N in H by lia.
    destruct H as [H1 H2]; [lia|done|lia|]. split; [apply H2; lia|lia].
  - intros c w Ht Hlt out. subst out.
    pose proof (run_command_spec env c w) as H. simpl in H.
    assert (Hh : held_back env w = true).
    { unfold held_back. apply andb_true_iff. split; [by apply Z.ltb_lt|].
      apply negb_true_iff. destruct (Z.geb_spec (epoch_at env (clock w) - timeout_start (statics w))
                                      (timeout (statics w))); [lia|done]. }
    by rewrite Hh in H.
  - intros c w Ht Hge.
    pose proof (run_command_spec env c w) as H. simpl in H.
    assert (Hh : held_back env w = false).
    { unfold held_back. apply andb_false_iff. right.
      apply negb_false_iff, Z.geb_le. lia. }
    rewrite Hh in H. apply H.
  - intros c w code body h Hh Hok Hd.
    pose proof (run_command_spec env c w) as H. simpl in H.
    rewrite Hh, Hok in H. destruct H as (_ & _ & H). apply H. by rewrite Hd.
  - intros c w h Hs Hf.
    pose proof (run_command_spec env c w) as H. simpl in H.
    assert (Hh : held_back env w = false) by (unfold held_back; by rewrite Hs).
    rewrite Hh, Hf, Hs in H. by destruct H as (_ & _ & _ & -> & ->).
Qed.

Lemma execute_command_backoff_witness :
  timeout (statics (fst (run_commands offline_env [poll_command; poll_command] sample_world)))
  = 5 * 2
  /\ snd (run_command (sample_env 1000 no_network no_network DocNull) poll_command cooling_world)
     = Ok (0, EmptyString, DocNull)
  /\ sent_count (api_log (fst (run_command (sample_env 1008 no_network no_network DocNull)
                                 poll_command cooling_world))) = 1%nat
  /\ statics (fst (run_command
                     (sample_env 1010 (CURLE_OK 200 "{...}" EmptyString) no_network
                        (DocObject ad_payload))
                     poll_command cooling_world)) = mk_exec_statics 0 0 1
  /\ timeout (statics (fst (run_command offline_env poll_command sample_world))) = 5
  /\ (let w1 := fst (run_commands ticking_env [poll_command; poll_command] sample_world) in
      let w' := fst (run_command ticking_env poll_command w1) in
      statics w'
      = mk_exec_statics (to_int (epoch_at ticking_env (Nat.pred (clock w')))) (5 * 2) (2 + 1)).
Proof.
  split; [|split; [|split; [|split; [|split]]]].
  - refine (proj1 (proj1 (execute_command_backoff offline_env)
                     [poll_command; poll_command] sample_world 2 _ _ _ _ _)).
    + reflexivity.
    + intros n req _. by exists EmptyString.
    + vm_compute. reflexivity.
    + lia.
    + unfold INT_MAX. lia.
  - refine (proj1 (proj1 (proj2 (execute_command_backoff
                                   (sample_env 1000 no_network no_network DocNull)))
                     poll_command cooling_world _ _)); simpl; lia.
  - refine (proj1 (proj2 (proj2 (execute_command_backoff
                                   (sample_env 1008 no_network no_network DocNull))))
                     poll_command cooling_world _ _); simpl; lia.
  - refine (proj1 (proj2 (proj2 (proj2 (execute_command_backoff
                     (sample_env 1010 (CURLE_OK 200 "{...}" EmptyString) no_network
                        (DocObject ad_payload))))))
                     poll_command cooling_world 200 "{...}" EmptyString _ _ _); reflexivity.
  - refine (proj1 (proj1 (proj2 (proj2 (proj2 (proj2 (execute_command_backoff offline_env)))))
                     poll_command sample_world EmptyString _ _)); reflexivity.
  - refine (proj1 (proj2 (proj2 (proj2 (proj2 (proj2 (execute_command_backoff ticking_env)))))
                     [poll_command; poll_command] poll_command sample_world 2 _ _ _ _ _ _)).
    + reflexivity.
    + intros n req _. by exists EmptyString.
    + vm_compute. reflexivity.
    + vm_compute. reflexivity.
    + lia.
    + unfold INT_MAX. lia.
Defined.

(** ** execute_capability *)

(** The thread of a capability that has a request. *)
Lemma capability_thread_call env timeout token playing c url ty data w :
  capability_request c playing = Some (url, ty, data) ->
  let out := capability_thread env (mk_thread_args timeout token playing c) w in
  snd out = Ok ()
  /\ exists ev,
       api_log (fst out) = (api_log w ++ [ev])%list
       /\ ev_request ev = mk_request token url (Some ty) (Some (default "{}" data))
       /\ ev_sent ev = negb (held_back env w)
       /\ (ev_http_code ev <> HTTP_NO_CONTENT ->
           forall m, In m capability_report -> In m (messages (fst out))).
Proof.
  intros Hr out. subst out.
  change (wp (capability_thread env (mk_thread_args timeout token playing c))
            (fun w' r =>
               r = Ok ()
               /\ exists ev,
                    api_log w' = (api_log w ++ [ev])%list
                    /\ ev_request ev
                       = mk_request token url (Some ty) (Some (default "{}" data))
                    /\ ev_sent ev = negb (held_back env w)
                    /\ (ev_http_code ev <> HTTP_NO_CONTENT ->
                        forall m, In m capability_report -> In m (messages w'))) w).
  unfold capability_thread. simpl th_c. simpl th_playing. rewrite Hr.
  simpl th_token. simpl th_timeout.
  wp_step. apply wp_execute_command_full. intros w1 ev Hs Hc Ht Hd Hl Hq Ho.
  apply exec_outcome_sent in Ho.
  repeat wp_step; use_frame; (split; [done|]); exists ev.
  all: split; [done|]; split; [done|]; split; [done|].
  all: intros Hne m Hm.
  all: try (apply negb_false_iff, Z.eqb_eq in Heqb; done).
  all: rewrite <- !app_assoc; apply in_or_app; right; exact Hm.
Qed.

(** C10 as amended. The stop capability always arrives at the call of the
    pause endpoint, whatever the last known status: the detached thread
    calls [execute_command] for a PUT on the pause url and ends without an
    error; the request is sent unless the back-off of [execute_command]
    holds the call back, and then nothing is sent. The thread does
    exactly what the thread of play/pause does when the status is
    non-zero; with the status 0 play/pause calls the play endpoint. *)
Theorem stop_dispatches_pause env w :
  let t0 := mk_thread_args (m_curl_timeout_ms (self w)) (m_token (self w))
              (Song.get_int (m_current (self w)) meta.STATUS) CAP_STOP_SONG in
  snd (execute_capability CAP_STOP_SONG w) = Ok true
  /\ detached (fst (execute_capability CAP_STOP_SONG w)) = (detached w ++ [t0])%list
  /\ (forall timeout token playing w1,
        let t := mk_thread_args timeout token playing CAP_STOP_SONG in
        capability_request CAP_STOP_SONG playing = Some (PLAYER_PAUSE_URL, "PUT", None)
        /\ snd (capability_thread env t w1) = Ok ()
        /\ (exists ev,
              api_log (fst (capability_thread env t w1)) = (api_log w1 ++ [ev])%list
              /\ ev_request ev = mk_request token PLAYER_PAUSE_URL (Some "PUT") (Some "{}")
              /\ ev_sent ev = negb (held_back env w1))
        /\ (forall p', p' <> 0 ->
              capability_thread env t w1
              = capability_thread env (mk_thread_args timeout token p' CAP_PLAY_PAUSE) w1)
        /\ (exists ev,
              api_log (fst (capability_thread env
                              (mk_thread_args timeout token 0 CAP_PLAY_PAUSE) w1))
              = (api_log w1 ++ [ev])%list
              /\ ev_request ev
                 = mk_request token PLAYER_PLAY_URL (Some "PUT") (Some position_zero))).
Proof.
  intros t0. split; [reflexivity|]. split; [reflexivity|].
  intros timeout token playing w1 t. subst t. split; [reflexivity|].
  destruct (capability_thread_call env timeout token playing CAP_STOP_SONG
              PLAYER_PAUSE_URL "PUT" None w1 eq_refl) as (H1 & ev & Hl & Hq & Hs & _).
  split; [done|]. split; [by exists ev|]. split.
  - intros p' Hp. unfold capability_thread. simpl.
    apply Z.eqb_neq in Hp. by rewrite Hp.
  - destruct (capability_thread_call env timeout token 0 CAP_PLAY_PAUSE
                PLAYER_PLAY_URL "PUT" (Some position_zero) w1 eq_refl)
      as (_ & ev' & Hl' & Hq' & _).
    by exists ev'.
Qed.

Lemma stop_dispatches_pause_witness :
  capability_thread offline_env (mk_thread_args 1000 "token" 0 CAP_STOP_SONG) sample_world
  = capability_thread offline_env (mk_thread_args 1000 "token" 1 CAP_PLAY_PAUSE) sample_world.
Proof.
  refine (proj1 (proj2 (proj2 (proj2
            (proj2 (proj2 (stop_dispatches_pause offline_env sample_world))
               1000 "token" 0 sample_world)))) 1 _).
  discriminate.
Defined.

(** C10 as stated fails. A stop issued while the back-off of
    [execute_command] runs is held back: the call returns before the
    transfer and nothing is sent. And with the status playing (0),
    play/pause calls the play endpoint where stop calls the pause
    endpoint. *)
Lemma stop_held_back :
  let env := sample_env 1000 no_network no_network DocNull in
  let stop := mk_thread_args 1000 "token" (play_state_int state_playing) CAP_STOP_SONG in
  let toggle := mk_thread_args 1000 "token" (play_state_int state_playing) CAP_PLAY_PAUSE in
  (held_back env cooling_world = true
   /\ map ev_sent (api_log (fst (capability_thread env stop cooling_world))) = [false]
   /\ sent_count (api_log (fst (capability_thread env stop cooling_world))) = 0%nat)
  /\ (map (fun ev => req_url (ev_request ev))
        (api_log (fst (capability_thread env stop sample_world))) = [PLAYER_PAUSE_URL]
      /\ map (fun ev => req_url (ev_request ev))
           (api_log (fst (capability_thread env toggle sample_world))) = [PLAYER_PLAY_URL]).
Proof. vm_compute. repeat split. Qed.

(** * Further properties *)

(** ** parse_track_json as a function of the payload *)

Ltac rw_branches :=
  repeat match goal with
         | H : ?b = true |- context [?b] => rewrite H
         | H : ?b = false |- context [?b] => rewrite H
         | H : List.length _ = _ |- _ => rewrite H
         end; simpl andb; cbv iota.

Lemma with_record_id w : with_record (fun s => s) w = w.
Proof. by destruct w as [[] ? ? ? ? ? ? ?]. Qed.

Lemma updates_record_set id v : updates_record (current_set id v) (Song.set id v).
Proof. by intros w. Qed.

Lemma updates_record_ret : updates_record (mret ()) (fun s => s).
Proof. intros w. by rewrite with_record_id. Qed.

Lemma updates_record_seq m k f g :
  updates_record m f -> updates_record k g ->
  updates_record (m;; k) (fun s => g (f s)).
Proof.
  intros Hm Hk w. unfold mbind, M_bind. by rewrite Hm, Hk.
Qed.

Lemma updates_record_if (b : bool) m1 m2 f1 f2 :
  updates_record m1 f1 -> updates_record m2 f2 ->
  updates_record (if b then m1 else m2) (fun s => if b then f1 s else f2 s).
Proof. by destruct b. Qed.

Lemma updates_record_ext m f g :
  (forall s, f s = g s) -> updates_record m f -> updates_record m g.
Proof.
  intros E H w. rewrite H. unfold with_record. by rewrite E.
Qed.

Lemma updates_record_parts (n : nat) m0 m1 m2 m3 f0 f1 f2 f3 :
  updates_record m0 f0 -> updates_record m1 f1 ->
  updates_record m2 f2 -> updates_record m3 f3 ->
  updates_record (match n with 1%nat => m1 | 2%nat => m2 | 3%nat => m3 | _ => m0 end)
    (fun s => match n with 1%nat => f1 s | 2%nat => f2 s | 3%nat => f3 s | _ => f0 s end).
Proof. by destruct n as [|[|[|[|n]]]]. Qed.

Lemma wp_updates_record m f (Q : world -> result unit -> Prop) w :
  updates_record m f -> Q (with_record f w) (Ok ()) -> wp m Q w.
Proof. intros H HQ. unfold wp. by rewrite H. Qed.

(** A step that keeps what [execute_command] did with its request. *)
Ltac wp_poll_step :=
  lazymatch goal with
  | |- wp (execute_command _ _ _ _ _ _ _ _) _ _ =>
      let H := fresh "Hout" in
      apply wp_execute_command_full; intros ? ? ? ? ? ? ? ? H;
      apply exec_outcome_sent in H; unfold held_back in H; wp_simpl_all
  end.

Lemma sent_unless_held (b : bool) (now start t : Z) :
  b = negb ((0 <? t) && negb (now - start >=? t)) ->
  (t <= 0 -> b = true) /\ (0 < t -> now - start < t -> b = false).
Proof.
  intros ->. split.
  - intros H. apply Z.ltb_ge in H. by rewrite H.
  - intros H1 H2. apply Z.ltb_lt in H1. rewrite H1.
    destruct (Z.geb_spec (now - start) t); [lia|done].
Qed.

Lemma wp_parse_track_json_record env response (Q : world -> result unit -> Prop) w :
  (forall w',
      set_m_current ∅ (self w') = set_m_current ∅ (self w) ->
      cfg w' = cfg w -> token_log w' = token_log w -> detached w' = detached w ->
      parsed env response w w' ->
      Q w' (Ok ())) ->
  wp (parse_track_json env response) Q w.
Proof.
  intros HQ. unfold parse_track_json. cbv zeta.
  wp_step. wp_step. wp_simpl.
  (* the context block *)
  apply (wp_bind_inv (fun w1 =>
    set_m_current ∅ (self w1) = set_m_current ∅ (self w)
    /\ cfg w1 = cfg w /\ token_log w1 = token_log w /\ detached w1 = detached w
    /\ match playlist_link response with
       | None => api_log w1 = api_log w
                 /\ m_current (self w1) = context_fields response None ∅
       | Some href =>
           exists ev,
             api_log w1 = (api_log w ++ [ev])%list
             /\ ev_request ev = request_of (m_token (self w)) href None None
             /\ ev_sent ev = negb (held_back env w)
             /\ m_current (self w1) = context_fields response (playlist_of ev) ∅
       end)).
  { unfold playlist_link, context_fields, playlist_of, held_back. cbv zeta.
    repeat first [wp_poll_step | wp_step]; use_frame; (split; [by eexists|]).
    all: rw_branches.
    all: (split; [done|]); (split; [done|]); (split; [done|]); (split; [done|]).
    all: try (by split).
    all: match goal with H : ev_request ?e = _ |- _ => exists e end;
         (split; [done|]); (split; [done|]); (split; [done|]); rw_branches; done. }
  intros w1 _ (Hs & Hc & Ht & Hd & Hctx).
  (* the rest updates the record and nothing else *)
  eapply wp_updates_record.
  { repeat first [ apply updates_record_seq
                 | apply updates_record_if
                 | apply updates_record_parts
                 | apply updates_record_set
                 | apply updates_record_ret ]. }
  unfold with_record. apply HQ; wp_simpl; try done.
  unfold parsed.
  destruct (playlist_link response).
  - destruct Hctx as (ev & Hl & Hr & Hsent & Hm). exists ev. rewrite Hm. by repeat split.
  - destruct Hctx as (Hl & Hm). rewrite Hm. by split.
Qed.

(** X1. [parse_track_json] never throws and touches nothing of the client
    but the record, the static locals of [execute_command] and the log.
    The record it leaves is [track_record] of the payload, whatever the
    record held before. It calls [execute_command] once when the payload
    has a context object with a string [href] (a GET on that address with
    the token of the client), and not at all otherwise; the request of
    that call is sent exactly when the back-off of [execute_command] does
    not hold the call back. *)
Theorem parse_track_json_refines env response w :
  let out := parse_track_json env response w in
  let w' := fst out in
  snd out = Ok ()
  /\ set_m_current ∅ (self w') = set_m_current ∅ (self w)
  /\ cfg w' = cfg w /\ token_log w' = token_log w /\ detached w' = detached w
  /\ match playlist_link response with
     | None => api_log w' = api_log w /\ m_current (self w') = track_record response None
     | Some href =>
         exists ev,
           api_log w' = (api_log w ++ [ev])%list
           /\ ev_request ev = request_of (m_token (self w)) href None None
           /\ ev_sent ev = negb (held_back env w)
           /\ sent_count (api_log w')
              = (sent_count (api_log w) + (if held_back env w then 0 else 1))%nat
           /\ m_current (self w') = track_record response (playlist_of ev)
     end.
Proof.
  intros out w'. subst out w'.
  apply (wp_parse_track_json_record env response
           (fun w' r => r = Ok ()
              /\ set_m_current ∅ (self w') = set_m_current ∅ (self w)
              /\ cfg w' = cfg w /\ token_log w' = token_log w /\ detached w' = detached w
              /\ match playlist_link response with
                 | None => api_log w' = api_log w
                           /\ m_current (self w') = track_record response None
                 | Some href =>
                     exists ev,
                       api_log w' = (api_log w ++ [ev])%list
                       /\ ev_request ev = request_of (m_token (self w)) href None None
                       /\ ev_sent ev = negb (held_back env w)
                       /\ sent_count (api_log w')
                          = (sent_count (api_log w)
                             + (if held_back env w then 0 else 1))%nat
                       /\ m_current (self w') = track_record response (playlist_of ev)
                 end)).
  intros w' ? ? ? ? Hp. repeat (split; [done|]).
  unfold parsed in Hp. destruct (playlist_link response); [|done].
  destruct Hp as (ev & Hl & Hr & Hs & Hm). exists ev.
  repeat (split; [done|]). split; [|done].
  rewrite Hl, sent_count_app, Hs. by destruct (held_back env w).
Qed.

(** ** The fields of the parsed record *)

Ltac through :=
  unfold Song.set_state, Song.set;
  repeat (rewrite lookup_insert_eq || rewrite lookup_insert_ne by done).

Lemma release_fields_lookup (k : meta.type) date s :
  k <> meta.RELEASE_DAY -> k <> meta.RELEASE_MONTH -> k <> meta.RELEASE_YEAR ->
  release_fields date s !! k = s !! k.
Proof.
  intros ? ? ?. unfold release_fields. cbv zeta.
  destruct (0 <? String.length date)%nat; [|done].
  by destruct (List.length (split date "-")) as [|[|[|[|n]]]]; through.
Qed.

Lemma scalar_fields_lookup (k : meta.type) trackObj album s :
  k <> meta.TRACK_NUMBER -> k <> meta.DISC_NUMBER -> k <> meta.EXPLICIT ->
  k <> meta.ALBUM -> k <> meta.DURATION -> k <> meta.TITLE ->
  scalar_fields trackObj album s !! k = s !! k.
Proof. intros ? ? ? ? ? ?. unfold scalar_fields. by through. Qed.

Lemma url_field_lookup (k : meta.type) urls s :
  k <> meta.URL -> url_field urls s !! k = s !! k.
Proof. intros ?. unfold url_field. by destruct (_ && _); through. Qed.

Lemma cover_field_lookup (k : meta.type) album s :
  k <> meta.COVER -> cover_field album s !! k = s !! k.
Proof.
  intros ?. unfold cover_field. cbv zeta.
  destruct (_ && _); [|done]. by destruct (_ && _); through.
Qed.



Lemma track_record_context response playlist (k : meta.type) :
  isObject (value_at response "context") = false ->
  k = meta.CONTEXT \/ k = meta.CONTEXT_URL \/ k = meta.CONTEXT_EXTERNAL_URL
  \/ k = meta.PLAYLIST_NAME ->
  track_record response playlist !! k = None.
Proof.
  intros Hc Hk. unfold track_record. cbv zeta.
  rewrite release_fields_lookup, scalar_fields_lookup, url_field_lookup,
    cover_field_lookup by (destruct Hk as [-> | [-> | [-> | ->]]]; done).
  unfold context_fields. rewrite Hc.
  destruct Hk as [-> | [-> | [-> | ->]]]; by through.
Qed.


Lemma playlist_link_no_context response :
  isObject (value_at response "context") = false -> playlist_link response = None.
Proof. unfold playlist_link. cbv zeta. by intros ->. Qed.

(** X2. After [parse_track_json] the title, the artists, the album, the
    duration, the explicit flag and the disc and track numbers are set
    for every payload, with the defaults of Qt (the empty text, 0, false,
    the empty list) where the payload has no such member; the artists are
    the names of the array in its order. Progress and status are unset:
    the parser clears them and leaves them to its caller. *)
Theorem parse_track_json_fields env response w :
  let s := m_current (self (fst (parse_track_json env response w))) in
  let trackObj := toObject (value_at response "item") in
  let album := toObject (value trackObj "album") in
  s !! meta.TITLE = Some (VString (toString (value trackObj "name")))
  /\ s !! meta.ARTIST
     = Some (VStringList (map (fun artist => toString (value (toObject artist) "name"))
                            (toArray (value trackObj "artists"))))
  /\ s !! meta.ALBUM = Some (VString (toString (value album "name")))
  /\ s !! meta.DURATION = Some (VInt (toInt (value trackObj "duration_ms")))
  /\ s !! meta.EXPLICIT = Some (VBool (toBool (value trackObj "explicit")))
  /\ s !! meta.DISC_NUMBER = Some (VInt (toInt (value trackObj "disc_number")))
  /\ s !! meta.TRACK_NUMBER = Some (VInt (toInt (value trackObj "track_number")))
  /\ s !! meta.PROGRESS = None
  /\ s !! meta.STATUS = None.
Proof.
  intros s trackObj album. subst s.
  apply (wp_parse_track_json_record env response
           (fun w' _ =>
              m_current (self w') !! meta.TITLE = Some (VString (toString (value trackObj "name")))
  /\ m_current (self w') !! meta.ARTIST
     = Some (VStringList (map (fun artist => toString (value (toObject artist) "name"))
                            (toArray (value trackObj "artists"))))
  /\ m_current (self w') !! meta.ALBUM = Some (VString (toString (value album "name")))
  /\ m_current (self w') !! meta.DURATION = Some (VInt (toInt (value trackObj "duration_ms")))
  /\ m_current (self w') !! meta.EXPLICIT = Some (VBool (toBool (value trackObj "explicit")))
  /\ m_current (self w') !! meta.DISC_NUMBER = Some (VInt (toInt (value trackObj "disc_number")))
  /\ m_current (self w') !! meta.TRACK_NUMBER = Some (VInt (toInt (value trackObj "track_number")))
  /\ m_current (self w') !! meta.PROGRESS = None
  /\ m_current (self w') !! meta.STATUS = None)).
  intros w' _ _ _ _ Hp.
  assert (exists playlist, m_current (self w') = track_record response playlist) as [pl ->].
  { unfold parsed in Hp. destruct (playlist_link response).
    - destruct Hp as (ev & _ & _ & _ & ->). by eexists.
    - destruct Hp as (_ & ->). by eexists. }
  unfold track_record. cbv zeta. fold trackObj. fold album.
  rewrite !release_fields_lookup by done.
  repeat split.
  1,3,4,5,6,7: unfold scalar_fields; by through.
  all: rewrite scalar_fields_lookup, url_field_lookup, cover_field_lookup by done.
  all: through; try done.
  all: unfold context_fields; cbv zeta.
  all: destruct (isObject (value_at response "context")); [|done].
  all: destruct pl; through; destruct (isObject _); through; done.
Qed.

(** X3. For a payload without a context object [parse_track_json] sends
    no request, and the context type, uri, external url and playlist
    name of the record are unset, whatever they were before. *)
Theorem parse_track_json_no_context env response w :
  let out := parse_track_json env response w in
  let s := m_current (self (fst out)) in
  isObject (value_at response "context") = false ->
  api_log (fst out) = api_log w
  /\ s !! meta.CONTEXT = None /\ s !! meta.CONTEXT_URL = None
  /\ s !! meta.CONTEXT_EXTERNAL_URL = None /\ s !! meta.PLAYLIST_NAME = None.
Proof.
  intros out s Hc. subst out s.
  apply (wp_parse_track_json_record env response
           (fun w' _ =>
              api_log w' = api_log w
              /\ m_current (self w') !! meta.CONTEXT = None
              /\ m_current (self w') !! meta.CONTEXT_URL = None
              /\ m_current (self w') !! meta.CONTEXT_EXTERNAL_URL = None
              /\ m_current (self w') !! meta.PLAYLIST_NAME = None)).
  intros w' _ _ _ _ Hp. unfold parsed in Hp.
  rewrite (playlist_link_no_context _ Hc) in Hp. destruct Hp as [Hl ->].
  split; [done|]. repeat split; apply track_record_context; auto.
Qed.

Lemma parse_track_json_no_context_witness :
  let env := player_env 200 "HTTP/1.1 200 OK" DocNull in
  let out := parse_track_json env (JObject (track_payload "2021")) sample_world in
  api_log (fst out) = api_log sample_world.
Proof.
  intros env out.
  refine (proj1 (parse_track_json_no_context env (JObject (track_payload "2021"))
                   sample_world _)).
  reflexivity.
Defined.



(** ** The poll cycle, branch by branch *)

Lemma extract_timeout_empty : extract_timeout EmptyString = (0, None).
Proof. reflexivity. Qed.

Lemma isEmpty_true (s : string) : isEmpty s = true -> s = EmptyString.
Proof. by destruct s. Qed.

(** X7. A cycle whose poll comes back with HTTP 429 and a header from
    which [extract_timeout] reads [t] seconds, [t] not 0, ends without an
    error, leaves the record and [m_last_state] alone and arms the
    cooldown: its length is [t * SECOND_TO_NS] reduced to [uint64_t], its
    start the last reading of the nanosecond clock. *)
Theorem refresh_rate_limited env w ev t :
  let out := refresh env w in
  polled w (fst out) ev ->
  ev_http_code ev = STATUS_RETRY_AFTER ->
  extract_timeout (ev_header ev) = (t, None) ->
  t <> 0 ->
  snd out = Ok ()
  /\ m_current (self (fst out)) = m_current (self w)
  /\ m_last_state (self (fst out)) = m_last_state (self w)
  /\ m_timeout_length (self (fst out)) = to_uint64 (t * SECOND_TO_NS)
  /\ m_timout_start (self (fst out)) = gettime_ns_at env (Nat.pred (clock (fst out)))
  /\ api_log (fst out) = (api_log w ++ [ev])%list.
Proof.
  intros out. subst out. intros Hp Hc Hx Ht. revert Hp.
  change (wp (refresh env)
            (fun w' r => polled w w' ev ->
               r = Ok ()
               /\ m_current (self w') = m_current (self w)
               /\ m_last_state (self w') = m_last_state (self w)
               /\ m_timeout_length (self w') = to_uint64 (t * SECOND_TO_NS)
               /\ m_timout_start (self w') = gettime_ns_at env (Nat.pred (clock w'))
               /\ api_log w' = (api_log w ++ [ev])%list) w).
  unfold refresh. repeat wp_cycle.
  all: find_poll.
  all: rewrite ?Hc in *; try discriminate.
  all: repeat match goal with
              | H : extract_timeout _ = _, H' : extract_timeout _ = _ |- _ =>
                  rewrite H in H'; simplify_eq
              | H : negb (_ =? _) = false |- _ => apply negb_false_iff, Z.eqb_eq in H
              | H : _ && negb (isEmpty _) = false |- _ =>
                  apply andb_false_iff in H as [H|H]; [discriminate|]
              | H : negb (isEmpty _) = false |- _ =>
                  apply negb_false_iff, isEmpty_true in H; rewrite H in Hx;
                  rewrite extract_timeout_empty in Hx; simplify_eq
              end; try done.
  all: by repeat split; use_view.
Qed.

Lemma refresh_rate_limited_witness :
  let env := empty_body_env 429 (too_many_requests ++ retry_after_30) in
  let out := refresh env sample_world in
  m_timeout_length (self (fst out)) = to_uint64 (30 * SECOND_TO_NS).
Proof.
  intros env out.
  refine (proj1 (proj2 (proj2 (proj2 (refresh_rate_limited env sample_world
                   (player_event 429 (too_many_requests ++ retry_after_30) DocNull) 30
                   _ _ _ _)))));
    [exists []; vm_compute; reflexivity|reflexivity|vm_compute; reflexivity|discriminate].
Defined.

Lemma extract_timeout_thrown header t e :
  extract_timeout header = (t, Some e) -> t = 0.
Proof.
  unfold extract_timeout.
  destruct (find what header); [|congruence].
  destruct (scan_newline _ _); [|congruence].
  destruct (stoi _); congruence.
Qed.

(** X8. A cycle whose poll comes back with HTTP 429 and a header on which
    [extract_timeout] throws lets that exception out of
    [spotify_source::refresh]: the cycle does not catch it. The record
    and [m_last_state] are as before and no cooldown is armed. *)
Theorem refresh_rate_limit_throws env w ev t e :
  let out := refresh env w in
  polled w (fst out) ev ->
  ev_http_code ev = STATUS_RETRY_AFTER ->
  extract_timeout (ev_header ev) = (t, Some e) ->
  snd out = Throw e
  /\ m_current (self (fst out)) = m_current (self w)
  /\ m_last_state (self (fst out)) = m_last_state (self w)
  /\ m_timout_start (self (fst out)) = 0
  /\ m_timeout_length (self (fst out)) = 0
  /\ api_log (fst out) = (api_log w ++ [ev])%list.
Proof.
  intros out. subst out. intros Hp Hc Hx. revert Hp.
  pose proof (extract_timeout_thrown _ _ _ Hx) as ->.
  change (wp (refresh env)
            (fun w' r => polled w w' ev ->
               r = Throw e
               /\ m_current (self w') = m_current (self w)
               /\ m_last_state (self w') = m_last_state (self w)
               /\ m_timout_start (self w') = 0
               /\ m_timeout_length (self w') = 0
               /\ api_log w' = (api_log w ++ [ev])%list) w).
  unfold refresh. repeat wp_cycle.
  all: find_poll.
  all: rewrite ?Hc in *; try discriminate.
  all: repeat match goal with
              | H : extract_timeout _ = _, H' : extract_timeout _ = _ |- _ =>
                  rewrite H in H'; simplify_eq
              | H : negb (_ =? _) = false |- _ => apply negb_false_iff, Z.eqb_eq in H
              | H : _ && negb (isEmpty _) = false |- _ =>
                  apply andb_false_iff in H as [H|H]; [discriminate|]
              | H : negb (isEmpty _) = false |- _ =>
                  apply negb_false_iff, isEmpty_true in H; rewrite H in Hx;
                  rewrite extract_timeout_empty in Hx; simplify_eq
              end; try done.
  all: first [by repeat split; use_view | repeat split; congruence].
Qed.

Lemma refresh_rate_limit_throws_witness :
  let env := empty_body_env 429 (too_many_requests ++ retry_after_date) in
  let out := refresh env sample_world in
  snd out = Throw invalid_argument.
Proof.
  intros env out.
  refine (proj1 (refresh_rate_limit_throws env sample_world
                   (player_event 429 (too_many_requests ++ retry_after_date) DocNull)
                   0 invalid_argument _ _ _));
    [exists []; vm_compute; reflexivity|reflexivity|vm_compute; reflexivity].
Defined.

Ltac view_in_hyps :=
  repeat match goal with
         | H : m_timout_start (self ?w) = _, H' : context [m_timout_start (self ?w)] |- _ =>
             rewrite H in H'
         | H : m_timeout_length (self ?w) = _, H' : context [m_timeout_length (self ?w)] |- _ =>
             rewrite H in H'
         | H : statics ?w = _, H' : context [statics ?w] |- _ => rewrite H in H'
         end.

(** X9. While the rate-limit cooldown runs (the start is set and every
    reading of the nanosecond clock is less than the length past it, in
    [uint64_t]), a cycle ends without an error, calls the API not at all
    and leaves the record, [m_last_state], the cooldown and the static
    locals of [execute_command] as they were. *)
Theorem refresh_cooldown_holds env w :
  let out := refresh env w in
  m_timout_start (self w) <> 0 ->
  (forall n, to_uint64 (gettime_ns_at env n - m_timout_start (self w))
             < m_timeout_length (self w)) ->
  snd out = Ok ()
  /\ api_log (fst out) = api_log w
  /\ statics (fst out) = statics w
  /\ m_current (self (fst out)) = m_current (self w)
  /\ m_last_state (self (fst out)) = m_last_state (self w)
  /\ m_timout_start (self (fst out)) = m_timout_start (self w)
  /\ m_timeout_length (self (fst out)) = m_timeout_length (self w).
Proof.
  intros out Hs Hn. subst out.
  change (wp (refresh env)
            (fun w' r =>
               r = Ok ()
               /\ api_log w' = api_log w
               /\ statics w' = statics w
               /\ m_current (self w') = m_current (self w)
               /\ m_last_state (self w') = m_last_state (self w)
               /\ m_timout_start (self w') = m_timout_start (self w)
               /\ m_timeout_length (self w') = m_timeout_length (self w)) w).
  unfold refresh.
  repeat lazymatch goal with
         | |- wp (execute_command _ _ _ _ _ _ _ _) _ _ => fail
         | _ => wp_cycle
         end.
  all: try done.
  all: view_in_hyps.
  all: repeat match goal with
              | H : negb (_ =? _) = false |- _ => apply negb_false_iff, Z.eqb_eq in H
              | H : (_ >=? _) = true |- _ => apply Z.geb_le in H
              end; try done.
  all: match goal with
       | H : _ <= to_uint64 (gettime_ns_at _ ?n - _) |- _ => specialize (Hn n); lia
       end.
Qed.

Lemma refresh_cooldown_holds_witness :
  let env := ns_env 5000000000 no_network in
  let out := refresh env limited_world in
  api_log (fst out) = api_log limited_world.
Proof.
  intros env out.
  refine (proj1 (proj2 (refresh_cooldown_holds env limited_world _ _)));
    [discriminate|intros n; vm_compute; reflexivity].
Defined.

Lemma held_back_running env w w1 :
  0 < timeout (statics w) ->
  (forall n, epoch_at env n - timeout_start (statics w) < timeout (statics w)) ->
  statics w1 = statics w ->
  held_back env w1 = true.
Proof.
  intros Hpos Hn Hst. unfold held_back. rewrite Hst.
  apply andb_true_iff. split; [by apply Z.ltb_lt|].
  apply negb_true_iff. destruct (_ >=? _) eqn:E; [|done].
  apply Z.geb_le in E. specialize (Hn (clock w1)). lia.
Qed.

(** X11. While the transport back-off of [execute_command] runs (the
    cooldown is positive and at every reading of the clock fewer seconds
    have passed since its start), a cycle ends without an error and sends
    no request to the player API; the static locals, the record and
    [m_last_state] are as before. While the access token has not run
    out, nothing goes to the token endpoint either. *)
Theorem refresh_backoff_holds env w :
  let out := refresh env w in
  0 < timeout (statics w) ->
  (forall n, epoch_at env n - timeout_start (statics w) < timeout (statics w)) ->
  snd out = Ok ()
  /\ sent_count (api_log (fst out)) = sent_count (api_log w)
  /\ statics (fst out) = statics w
  /\ m_current (self (fst out)) = m_current (self w)
  /\ m_last_state (self (fst out)) = m_last_state (self w)
  /\ (epoch_at env (clock w) <= m_token_termination (self w) ->
      token_log (fst out) = token_log w).
Proof.
  intros out Hpos Hn. subst out.
  change (wp (refresh env)
            (fun w' r =>
               r = Ok ()
               /\ sent_count (api_log w') = sent_count (api_log w)
               /\ statics w' = statics w
               /\ m_current (self w') = m_current (self w)
               /\ m_last_state (self w') = m_last_state (self w)
               /\ (epoch_at env (clock w) <= m_token_termination (self w) ->
                   token_log w' = token_log w)) w).
  unfold refresh.
  repeat lazymatch goal with
         | |- wp (execute_command _ _ _ _ _ _ _ _) _ _ => fail
         | _ => wp_cycle
         end.
  all: lazymatch goal with
       | |- wp (execute_command _ _ _ _ _ _ _ _) _ _ => idtac
       | _ => repeat split; try congruence;
              intros Hv;
              first [ done
                    | match goal with
                      | H : (_ >? _) = true |- _ =>
                          rewrite Z.gtb_ltb in H; apply Z.ltb_lt in H; lia
                      end ]
       end.
  all: apply wp_execute_command_full; intros w2 ev Hself Hcfg Htl Hdet Hlog Hreq Hout.
  all: unfold exec_outcome in Hout;
       rewrite (held_back_running env w) in Hout by (wp_simpl; congruence).
  all: destruct Hout as (Hsent & Hcode & Hhdr & Hjson & Hst).
  all: rewrite Hcode, Hhdr, Hjson; wp_simpl_all.
  all: change (0 =? HTTP_OK) with false; change (0 =? HTTP_NO_CONTENT) with false;
       change (0 =? STATUS_RETRY_AFTER) with false; cbv iota; simpl andb; cbv iota.
  all: repeat wp_cycle.
  all: rewrite Hlog, sent_count_app, Hsent, Hself, Hst, Htl; wp_simpl.
  all: repeat split; try congruence; rewrite ?Nat.add_0_r; try congruence.
  all: intros Hv;
       first [ done
             | match goal with
               | H : (_ >? _) = true |- _ =>
                   rewrite Z.gtb_ltb in H; apply Z.ltb_lt in H; lia
               end ].
Qed.

Lemma refresh_backoff_holds_witness :
  let env := sample_env 1000 no_network no_network DocNull in
  let out := refresh env cooling_world in
  sent_count (api_log (fst out)) = sent_count (api_log cooling_world).
Proof.
  intros env out.
  refine (proj1 (proj2 (refresh_backoff_holds env cooling_world _ _)));
    [reflexivity|intros n; vm_compute; reflexivity].
Defined.

Ltac wp_cycle_rec :=
  lazymatch goal with
  | |- wp (do_refresh_token _ _) _ _ =>
      apply wp_do_refresh_token_view; intros ? ? ? ? ? ? ? ? ?; wp_simpl_all
  | |- wp (parse_track_json _ _) _ _ =>
      apply wp_parse_track_json_record; intros ? ? ? ? ? ?; wp_simpl_all
  | |- wp (execute_command _ _ _ _ _ _ _ _) _ _ =>
      apply wp_execute_command; intros ? ? ? ? ? ? ? ?; wp_simpl_all
  | _ => wp_step
  end.




Ltac in_messages :=
  repeat (apply in_or_app; first [ right; by left | left ]).



Lemma same_but_record (s s' : spotify_source) :
  set_m_current ∅ s' = set_m_current ∅ s ->
  m_logged_in s' = m_logged_in s /\ m_token s' = m_token s
  /\ m_refresh_token s' = m_refresh_token s /\ m_auth_code s' = m_auth_code s
  /\ m_token_termination s' = m_token_termination s
  /\ m_curl_timeout_ms s' = m_curl_timeout_ms s
  /\ m_timout_start s' = m_timout_start s /\ m_timeout_length s' = m_timeout_length s
  /\ m_last_state s' = m_last_state s.
Proof. destruct s, s'. simpl. intros H. by simplify_eq. Qed.

Ltac self_fields :=
  repeat match goal with
         | H : set_m_current ∅ (self _) = set_m_current ∅ (self _) |- _ =>
             apply same_but_record in H;
             destruct H as (? & ? & ? & ? & ? & ? & ? & ? & ?)
         end;
  wp_simpl_all;
  repeat match goal with
         | H : self ?w = _ |- context [self ?w] => rewrite H; wp_simpl
         | H : m_token (self ?w) = _ |- context [m_token (self ?w)] => rewrite H; wp_simpl
         | H : m_logged_in (self ?w) = _ |- context [m_logged_in (self ?w)] =>
             rewrite H; wp_simpl
         | H : m_timout_start (self ?w) = _ |- context [m_timout_start (self ?w)] =>
             rewrite H; wp_simpl
         | H : m_timeout_length (self ?w) = _ |- context [m_timeout_length (self ?w)] =>
             rewrite H; wp_simpl
         | H : m_token_termination (self ?w) = _ |- context [m_token_termination (self ?w)] =>
             rewrite H; wp_simpl
         | H : m_refresh_token (self ?w) = _ |- context [m_refresh_token (self ?w)] =>
             rewrite H; wp_simpl
         | H : m_auth_code (self ?w) = _ |- context [m_auth_code (self ?w)] =>
             rewrite H; wp_simpl
         | H : m_curl_timeout_ms (self ?w) = _ |- context [m_curl_timeout_ms (self ?w)] =>
             rewrite H; wp_simpl
         end.

(** X10. When the rate-limit cooldown has run out, a cycle of a logged-in
    client polls: its first call of [execute_command] is a GET on the
    player address with the token the client holds at the end of the
    cycle. The request of that call is sent when no transport back-off
    is pending, and held back while one runs. Unless the answer is
    another 429, the start and the length of the cooldown are 0
    afterwards. *)
Theorem refresh_cooldown_expires env w :
  let out := refresh env w in
  m_logged_in (self w) = true ->
  m_timout_start (self w) <> 0 ->
  (forall n, m_timeout_length (self w)
             <= to_uint64 (gettime_ns_at env n - m_timout_start (self w))) ->
  exists ev,
    polled w (fst out) ev
    /\ ev_request ev = request_of (m_token (self (fst out))) PLAYER_URL None None
    /\ (timeout (statics w) <= 0 -> ev_sent ev = true)
    /\ (0 < timeout (statics w) ->
        (forall n, epoch_at env n - timeout_start (statics w) < timeout (statics w)) ->
        ev_sent ev = false)
    /\ (ev_http_code ev <> STATUS_RETRY_AFTER ->
        m_timout_start (self (fst out)) = 0 /\ m_timeout_length (self (fst out)) = 0).
Proof.
  intros out Hin Hs Hn. subst out.
  change (wp (refresh env)
            (fun w' r =>
               exists ev,
                 polled w w' ev
                 /\ ev_request ev = request_of (m_token (self w')) PLAYER_URL None None
                 /\ (timeout (statics w) <= 0 -> ev_sent ev = true)
                 /\ (0 < timeout (statics w) ->
                     (forall n, epoch_at env n - timeout_start (statics w)
                                < timeout (statics w)) ->
                     ev_sent ev = false)
                 /\ (ev_http_code ev <> STATUS_RETRY_AFTER ->
                     m_timout_start (self w') = 0 /\ m_timeout_length (self w') = 0)) w).
  unfold refresh. repeat first [wp_poll_step | wp_cycle_rec].
  all: try (rewrite Hin in *; discriminate).
  all: view_in_hyps.
  all: repeat match goal with
              | H : negb (_ =? _) = false |- _ => apply negb_false_iff, Z.eqb_eq in H
              | H : (_ >=? _) = false |- _ => rewrite Z.geb_leb in H; apply Z.leb_gt in H
              end; try done.
  all: try match goal with
           | H : to_uint64 (gettime_ns_at _ ?n - _) < _ |- _ => specialize (Hn n); lia
           end.
  all: try match goal with
           | H : parsed _ _ _ _ |- _ =>
               unfold parsed in H; destruct (playlist_link _) eqn:Hlink in H;
               [destruct H as (ev2 & Hlog2 & Hreq2 & Hsent2 & Hrec)
               |destruct H as (Hlog2 & Hrec)]
           end.
  all: match goal with H : ev_request ?e = request_of _ PLAYER_URL None None |- _ => exists e end.
  all: split; [unfold polled; use_view; eexists; rewrite <- ?app_assoc; simpl; reflexivity|].
  all: split; [match goal with H : ev_request _ = _ |- _ => rewrite H end; by self_fields|].
  all: apply sent_unless_held in Hout; destruct Hout as [Hs1 Hs2].
  all: split; [exact Hs1|].
  all: split; [intros Hpos Hrun; apply Hs2; [exact Hpos|apply Hrun]|].
  all: intros Hne.
  all: repeat match goal with
              | H : (_ =? _) = true |- _ => apply Z.eqb_eq in H
              | H : (_ =? _) && _ = true |- _ => apply andb_true_iff in H as [H _]
              end; try done.
  all: by self_fields.
Qed.

Lemma refresh_cooldown_expires_witness :
  let env := ns_env 40000000000 no_network in
  let out := refresh env limited_world in
  exists ev,
    polled limited_world (fst out) ev
    /\ ev_request ev = request_of (m_token (self (fst out))) PLAYER_URL None None
    /\ (timeout (statics limited_world) <= 0 -> ev_sent ev = true)
    /\ (0 < timeout (statics limited_world) ->
        (forall n, epoch_at env n - timeout_start (statics limited_world)
                   < timeout (statics limited_world)) ->
        ev_sent ev = false)
    /\ (ev_http_code ev <> STATUS_RETRY_AFTER ->
        m_timout_start (self (fst out)) = 0 /\ m_timeout_length (self (fst out)) = 0).
Proof.
  intros env out.
  refine (refresh_cooldown_expires env limited_world _ _ _);
    [reflexivity|discriminate|intros n; vm_compute; discriminate].
Defined.

(** ** The token state through a cycle *)

Lemma wp_do_refresh_token_full env log (Q : world -> result (bool * string) -> Prop) w :
  (forall w' l,
      poll_view w' = poll_view w -> token_outcome env w w' ->
      Q w' (Ok (refresh_granted env w, l))) ->
  wp (do_refresh_token env log) Q w.
Proof.
  intros HQ. unfold wp.
  pose proof (do_refresh_token_spec env w log) as S. cbv zeta in S.
  pose proof (wp_do_refresh_token env log (fun w' _ => poll_view w' = poll_view w) w
                (fun _ _ H => H)) as V.
  unfold wp in V.
  destruct S as ([l Hl] & S1 & S2 & S3 & S4 & S5 & _).
  rewrite Hl. by apply HQ.
Qed.

Ltac wp_cycle_tok :=
  lazymatch goal with
  | |- wp (do_refresh_token _ _) _ _ =>
      apply wp_do_refresh_token_full;
      let V := fresh "V" in
      let T := fresh "T" in
      intros ? ? V T; unfold poll_view in V; simplify_eq;
      unfold token_outcome in T; cbv zeta in T; wp_simpl_in T;
      repeat match type of T with
             | context [refresh_granted ?e (mk_world (self ?w) ?st (cfg ?w) ?k ?a
                                              (token_log ?w) ?m ?d)] =>
                 change (refresh_granted e (mk_world (self w) st (cfg w) k a
                                              (token_log w) m d))
                   with (refresh_granted e w) in T
             | context [token_response ?e (mk_world (self ?w) ?st (cfg ?w) ?k ?a
                                             (token_log ?w) ?m ?d)] =>
                 change (token_response e (mk_world (self w) st (cfg w) k a
                                             (token_log w) m d))
                   with (token_response e w) in T
             | context [refresh_request (mk_world (self ?w) ?st ?c ?k ?a ?t ?m ?d)] =>
                 change (refresh_request (mk_world (self w) st c k a t m d))
                   with (refresh_request w) in T
             end;
      destruct T as (? & ? & ? & ? & ?); wp_simpl_all
  | |- wp (parse_track_json _ _) _ _ =>
      apply wp_parse_track_json_record; intros ? ? ? ? ? ?; wp_simpl_all
  | |- wp (execute_command _ _ _ _ _ _ _ _) _ _ =>
      apply wp_execute_command; intros ? ? ? ? ? ? ? ?; wp_simpl_all
  | _ => wp_step
  end.

(** X12. A cycle of a logged-in client whose token has run out and whose
    token refresh is not granted leaves the client logged out, in the
    object and in the stored settings, with the old access token. Every
    poll of that cycle carries the old token; when no rate-limit cooldown
    has been started the cycle does poll, and the request of that poll is
    sent when no transport back-off is pending either. The next cycle
    does nothing at all. *)
Theorem refresh_token_failure env w :
  let out := refresh env w in
  m_logged_in (self w) = true ->
  epoch_at env (clock w) > m_token_termination (self w) ->
  refresh_granted env w = false ->
  m_logged_in (self (fst out)) = false
  /\ CFG_SPOTIFY_LOGGEDIN (cfg (fst out)) = false
  /\ m_token (self (fst out)) = m_token (self w)
  /\ (forall ev, polled w (fst out) ev ->
        ev_request ev = request_of (m_token (self w)) PLAYER_URL None None)
  /\ (m_timout_start (self w) = 0 ->
      exists ev, polled w (fst out) ev /\ (timeout (statics w) <= 0 -> ev_sent ev = true))
  /\ refresh env (fst out) = (fst out, Ok ()).
Proof.
  intros out Hin Hexp Hno. subst out.
  assert (Hnext : forall w', m_logged_in (self w') = false -> refresh env w' = (w', Ok ())).
  { intros w' H. unfold refresh, mbind, M_bind, get_self. simpl. by rewrite H. }
  assert (W : wp (refresh env)
            (fun w' r =>
               m_logged_in (self w') = false
               /\ CFG_SPOTIFY_LOGGEDIN (cfg w') = false
               /\ m_token (self w') = m_token (self w)
               /\ (forall ev, polled w w' ev ->
                     ev_request ev = request_of (m_token (self w)) PLAYER_URL None None)
               /\ (m_timout_start (self w) = 0 ->
                   exists ev, polled w w' ev
                              /\ (timeout (statics w) <= 0 -> ev_sent ev = true))) w).
  2: { unfold wp in W. destruct W as (A & B & C & D & E).
       repeat split; try done. by apply Hnext. }
  unfold refresh. repeat first [wp_poll_step | wp_cycle_tok].
  all: try (rewrite Hin in *; discriminate).
  all: try match goal with
           | H : (_ >? _) = false |- _ => rewrite Z.gtb_ltb in H; apply Z.ltb_ge in H; lia
           end.
  all: try match goal with
           | H : parsed _ _ _ _ |- _ =>
               unfold parsed in H; destruct (playlist_link _) eqn:Hlink in H;
               [destruct H as (ev2 & Hlog2 & Hreq2 & Hsent2 & Hrec)
               |destruct H as (Hlog2 & Hrec)]
           end.
  all: rewrite Hno in *.
  all: (split; [by self_fields|]); (split; [use_frame; by self_fields|]);
       (split; [by self_fields|]).
  all: split; [intros ev'; find_poll;
               match goal with H : ev_request _ = _ |- _ => rewrite H end; by self_fields|].
  all: intros Hz.
  all: view_in_hyps.
  all: repeat match goal with
              | H : negb (_ =? _) = true |- _ => apply negb_true_iff, Z.eqb_neq in H
              end; try done.
  all: match goal with H : ev_request ?e = request_of _ PLAYER_URL None None |- _ => exists e end.
  all: split; [unfold polled; use_view; eexists; rewrite <- ?app_assoc; simpl; reflexivity|].
  all: apply sent_unless_held in Hout; by destruct Hout as [Hs1 _].
Qed.

Lemma refresh_token_failure_witness :
  let env := sample_env 1000 no_network no_network DocNull in
  let out := refresh env expired_world in
  m_logged_in (self (fst out)) = false.
Proof.
  intros env out.
  refine (proj1 (refresh_token_failure env expired_world _ _ _));
    [reflexivity|reflexivity|vm_compute; reflexivity].
Defined.

Ltac split_parsed :=
  try match goal with
      | H : parsed _ _ _ _ |- _ =>
          unfold parsed in H; destruct (playlist_link _) eqn:Hlink in H;
          [destruct H as (ev2 & Hlog2 & Hreq2 & Hsent2 & Hrec)
          |destruct H as (Hlog2 & Hrec)]
      end.

(** X13. A cycle of a logged-in client whose token has run out and whose
    token refresh is granted leaves the client logged in with the access
    token of the answer and the expiry counted from the reading of the
    clock the refresh took, both stored in the settings too; a poll of
    that cycle carries the new token. *)
Theorem refresh_token_renewed env w :
  let out := refresh env w in
  let doc := token_response env w in
  m_logged_in (self w) = true ->
  epoch_at env (clock w) > m_token_termination (self w) ->
  refresh_granted env w = true ->
  m_logged_in (self (fst out)) = true
  /\ m_token (self (fst out)) = toString (doc_at doc "access_token")
  /\ m_token_termination (self (fst out))
     = epoch_at env (S (clock w)) + toInt (doc_at doc "expires_in")
  /\ CFG_SPOTIFY_TOKEN (cfg (fst out)) = toString (doc_at doc "access_token")
  /\ CFG_SPOTIFY_TOKEN_TERMINATION (cfg (fst out))
     = epoch_at env (S (clock w)) + toInt (doc_at doc "expires_in")
  /\ (forall ev, polled w (fst out) ev ->
        ev_request ev
        = request_of (toString (doc_at doc "access_token")) PLAYER_URL None None).
Proof.
  intros out doc Hin Hexp Hyes. subst out doc.
  change (wp (refresh env)
            (fun w' r =>
  m_logged_in (self w') = true
  /\ m_token (self w') = toString (doc_at (token_response env w) "access_token")
  /\ m_token_termination (self w')
     = epoch_at env (S (clock w)) + toInt (doc_at (token_response env w) "expires_in")
  /\ CFG_SPOTIFY_TOKEN (cfg w') = toString (doc_at (token_response env w) "access_token")
  /\ CFG_SPOTIFY_TOKEN_TERMINATION (cfg w')
     = epoch_at env (S (clock w)) + toInt (doc_at (token_response env w) "expires_in")
  /\ (forall ev, polled w w' ev ->
        ev_request ev
        = request_of (toString (doc_at (token_response env w) "access_token"))
            PLAYER_URL None None)) w).
  unfold refresh. repeat wp_cycle_tok.
  all: try (rewrite Hin in *; discriminate).
  all: try match goal with
           | H : (_ >? _) = false |- _ => rewrite Z.gtb_ltb in H; apply Z.ltb_ge in H; lia
           end.
  all: split_parsed.
  all: rewrite Hyes in *.
  all: (split; [by self_fields|]); (split; [by self_fields|]); (split; [by self_fields|]).
  all: (split; [use_frame; by self_fields|]); (split; [use_frame; by self_fields|]).
  all: intros ev'; find_poll.
  all: match goal with H : ev_request _ = _ |- _ => rewrite H end; by self_fields.
Qed.

Lemma refresh_token_renewed_witness :
  let env := token_env (DocObject granted_payload) in
  let out := refresh env expired_world in
  m_token (self (fst out))
  = toString (doc_at (token_response env expired_world) "access_token").
Proof.
  intros env out.
  refine (proj1 (proj2 (refresh_token_renewed env expired_world _ _ _)));
    [reflexivity|reflexivity|vm_compute; reflexivity].
Defined.

(** X14. While the token has not run out, a cycle sends nothing to the
    token endpoint and leaves the settings, the login flag, the access
    token, the refresh token and the expiry as they were; a poll carries
    the token of the client. *)
Theorem refresh_token_valid env w :
  let out := refresh env w in
  epoch_at env (clock w) <= m_token_termination (self w) ->
  token_log (fst out) = token_log w
  /\ cfg (fst out) = cfg w
  /\ m_logged_in (self (fst out)) = m_logged_in (self w)
  /\ m_token (self (fst out)) = m_token (self w)
  /\ m_refresh_token (self (fst out)) = m_refresh_token (self w)
  /\ m_token_termination (self (fst out)) = m_token_termination (self w)
  /\ (forall ev, polled w (fst out) ev ->
        ev_request ev = request_of (m_token (self w)) PLAYER_URL None None).
Proof.
  intros out Hexp. subst out.
  change (wp (refresh env)
            (fun w' r =>
  token_log w' = token_log w
  /\ cfg w' = cfg w
  /\ m_logged_in (self w') = m_logged_in (self w)
  /\ m_token (self w') = m_token (self w)
  /\ m_refresh_token (self w') = m_refresh_token (self w)
  /\ m_token_termination (self w') = m_token_termination (self w)
  /\ (forall ev, polled w w' ev ->
        ev_request ev = request_of (m_token (self w)) PLAYER_URL None None)) w).
  unfold refresh.
  repeat lazymatch goal with
         | |- wp (do_refresh_token _ _) _ _ => fail
         | _ => wp_cycle_tok
         end.
  all: try match goal with
           | H : (_ >? _) = true |- _ => rewrite Z.gtb_ltb in H; apply Z.ltb_lt in H; lia
           end.
  all: split_parsed.
  all: (split; [by use_frame|]); (split; [by use_frame|]).
  all: (split; [by self_fields|]); (split; [by self_fields|]).
  all: (split; [by self_fields|]); (split; [by self_fields|]).
  all: intros ev'; find_poll.
  all: match goal with H : ev_request _ = _ |- _ => rewrite H end; by self_fields.
Qed.

Lemma refresh_token_valid_witness :
  let env := sample_env 1000 no_network no_network DocNull in
  let out := refresh env sample_world in
  token_log (fst out) = token_log sample_world.
Proof.
  intros env out.
  refine (proj1 (refresh_token_valid env sample_world _)).
  vm_compute. discriminate.
Defined.

(** X15. What a cycle can do at most: it calls [execute_command] at most
    twice and the token endpoint at most once, starts no thread and leaves
    the auth code and the request timeout alone; and it throws only when
    its poll came back with HTTP 429 and [extract_timeout] threw on the
    header of the answer, and then that exception. *)
Theorem refresh_footprint env w :
  let out := refresh env w in
  (exists extra,
      api_log (fst out) = (api_log w ++ extra)%list /\ (List.length extra <= 2)%nat)
  /\ (exists sent,
        token_log (fst out) = (token_log w ++ sent)%list /\ (List.length sent <= 1)%nat)
  /\ detached (fst out) = detached w
  /\ m_auth_code (self (fst out)) = m_auth_code (self w)
  /\ m_curl_timeout_ms (self (fst out)) = m_curl_timeout_ms (self w)
  /\ (forall e, snd out = Throw e ->
        exists ev, polled w (fst out) ev /\ ev_http_code ev = STATUS_RETRY_AFTER
                   /\ snd (extract_timeout (ev_header ev)) = Some e).
Proof.
  intros out. subst out.
  change (wp (refresh env)
            (fun w' r =>
  (exists extra,
      api_log w' = (api_log w ++ extra)%list /\ (List.length extra <= 2)%nat)
  /\ (exists sent,
        token_log w' = (token_log w ++ sent)%list /\ (List.length sent <= 1)%nat)
  /\ detached w' = detached w
  /\ m_auth_code (self w') = m_auth_code (self w)
  /\ m_curl_timeout_ms (self w') = m_curl_timeout_ms (self w)
  /\ (forall e, r = Throw e ->
        exists ev, polled w w' ev /\ ev_http_code ev = STATUS_RETRY_AFTER
                   /\ snd (extract_timeout (ev_header ev)) = Some e)) w).
  unfold refresh. repeat wp_cycle_tok.
  all: split_parsed.
  all: split;
       [ use_frame; use_view; eexists;
         (split; [ first [ rewrite <- ?app_assoc; simpl; reflexivity
                         | symmetry; apply app_nil_r ]
                 | simpl; lia ]) |].
  all: split;
       [ use_frame;
         repeat match goal with
                | H : token_log ?w = _ |- context [token_log ?w] => rewrite H
                end;
         try destruct (isEmpty (credentials_of _ _));
         eexists;
         (split; [ first [ reflexivity | symmetry; apply app_nil_r ] | simpl; lia ]) |].
  all: (split; [use_frame; by use_view|]).
  all: (split; [by self_fields|]); (split; [by self_fields|]).
  all: intros e' He'; try discriminate; simplify_eq.
  all: match goal with H : ev_request ?e = request_of _ PLAYER_URL None None |- _ => exists e end.
  all: split; [unfold polled; use_view; eexists; rewrite <- ?app_assoc; simpl; reflexivity|].
  all: match goal with
       | H : (_ =? _) && _ = true |- _ => apply andb_true_iff in H as [H _]; apply Z.eqb_eq in H
       end.
  all: split; [done|].
  all: match goal with H : extract_timeout _ = _ |- _ => by rewrite H end.
Qed.

(** ** new_token and request_token *)

(** X16. [new_token] in closed form. It succeeds exactly when the answer
    carries a string [access_token], a string [refresh_token] and a
    numeric [expires_in]; then all three token fields are replaced (the
    expiry counted from the clock), otherwise all three are kept. The
    login flag is the result, the settings are saved with the fields as
    they end up, the log is the answer when it is an object, and neither
    the record nor the API is touched. One request goes to the token
    endpoint unless the credentials are empty. *)
Theorem new_token_atomic env w log :
  let creds := credentials_of env (cfg w) in
  let doc := code_response env w in
  let ok := isString (doc_at doc "access_token") && isString (doc_at doc "refresh_token")
            && isDouble (doc_at doc "expires_in") in
  let out := new_token env log w in
  let s' := self (fst out) in
  snd out = Ok (ok, if doc_isObject doc then toJson env doc else log)
  /\ m_logged_in s' = ok
  /\ m_token s' = (if ok then toString (doc_at doc "access_token") else m_token (self w))
  /\ m_refresh_token s'
     = (if ok then toString (doc_at doc "refresh_token") else m_refresh_token (self w))
  /\ m_token_termination s'
     = (if ok then epoch_at env (clock w) + toInt (doc_at doc "expires_in")
        else m_token_termination (self w))
  /\ token_log (fst out)
     = (if isEmpty creds then token_log w
        else token_log w ++ [(code_request w, creds)])%list
  /\ cfg (fst out)
     = mk_config (CFG_SPOTIFY_CLIENT_ID (cfg w)) (CFG_SPOTIFY_CLIENT_SECRET (cfg w))
         (m_logged_in s') (m_token s') (m_auth_code (self w)) (m_refresh_token s')
         (m_token_termination s')
  /\ api_log (fst out) = api_log w
  /\ m_current (self (fst out)) = m_current (self w).
Proof.
  intros creds doc ok out s'. subst out s'.
  change (wp (new_token env log)
    (fun w' r =>
       r = Ok (ok, if doc_isObject doc then toJson env doc else log)
  /\ m_logged_in (self w') = ok
  /\ m_token (self w') = (if ok then toString (doc_at doc "access_token") else m_token (self w))
  /\ m_refresh_token (self w')
     = (if ok then toString (doc_at doc "refresh_token") else m_refresh_token (self w))
  /\ m_token_termination (self w')
     = (if ok then epoch_at env (clock w) + toInt (doc_at doc "expires_in")
        else m_token_termination (self w))
  /\ token_log w'
     = (if isEmpty creds then token_log w
        else token_log w ++ [(code_request w, creds)])%list
  /\ cfg w'
     = mk_config (CFG_SPOTIFY_CLIENT_ID (cfg w)) (CFG_SPOTIFY_CLIENT_SECRET (cfg w))
         (m_logged_in (self w')) (m_token (self w')) (m_auth_code (self w))
         (m_refresh_token (self w')) (m_token_termination (self w'))
  /\ api_log w' = api_log w
  /\ m_current (self w') = m_current (self w)) w).
  unfold new_token.
  apply wp_bind, wp_build_credentials. wp_simpl.
  wp_step. wp_step. wp_simpl. wp_step.
  apply wp_request_token; [reflexivity|]. intros msgs. wp_simpl.
  fold (code_request w). fold (credentials_of env (cfg w)). fold creds.
  change (if isEmpty creds then DocNull
          else match token_perform env (List.length (token_log w)) (code_request w) creds with
               | CURLE_OK _ response _ => fromJson env response
               | CURLE_FAILED _ => DocNull
               end) with doc.
  unfold ok, doc_at. clear ok. clearbody doc.
  destruct doc as [|a|o]; simpl doc_isObject; simpl object; simpl value; simpl isString;
    simpl andb; cbv iota.
  all: wp_run; use_frame.
  all: repeat match goal with
              | H : ?b = true |- context [?b] => rewrite H
              | H : ?b = false |- context [?b] => rewrite H
              end; simpl.
  all: by repeat split.
Qed.

Lemma toBase64_isEmpty (s : string) : isEmpty (toBase64 s) = isEmpty s.
Proof. by destruct s as [|a [|b [|c r]]]. Qed.

(** X17. [request_token] in closed form. With an empty request or empty
    credentials it logs an error, sends nothing and leaves the document
    it was given; otherwise it sends the one request. An answer replaces
    the document by what its body parses to (null when it does not
    parse), a failed transfer leaves the document as given. Nothing of
    the client but the log and the list of requests changes. *)
Theorem request_token_spec env rq cr doc0 t w :
  let out := request_token env rq cr doc0 t w in
  snd out
  = Ok (if isEmpty rq || isEmpty cr then doc0
        else match token_perform env (List.length (token_log w)) rq cr with
             | CURLE_OK _ response _ => fromJson env response
             | CURLE_FAILED _ => doc0
             end)
  /\ token_log (fst out)
     = (if isEmpty rq || isEmpty cr then token_log w else token_log w ++ [(rq, cr)])%list
  /\ (isEmpty rq || isEmpty cr = true ->
      In (LOG_ERROR, "Cannot request token without valid credentials and/or auth code!")
        (messages (fst out)))
  /\ self (fst out) = self w /\ cfg (fst out) = cfg w /\ statics (fst out) = statics w
  /\ api_log (fst out) = api_log w /\ clock (fst out) = clock w.
Proof.
  intros out. subst out.
  change (wp (request_token env rq cr doc0 t)
            (fun w' r =>
  r = Ok (if isEmpty rq || isEmpty cr then doc0
        else match token_perform env (List.length (token_log w)) rq cr with
             | CURLE_OK _ response _ => fromJson env response
             | CURLE_FAILED _ => doc0
             end)
  /\ token_log w'
     = (if isEmpty rq || isEmpty cr then token_log w else token_log w ++ [(rq, cr)])%list
  /\ (isEmpty rq || isEmpty cr = true ->
      In (LOG_ERROR, "Cannot request token without valid credentials and/or auth code!")
        (messages w'))
  /\ self w' = self w /\ cfg w' = cfg w /\ statics w' = statics w
  /\ api_log w' = api_log w /\ clock w' = clock w) w).
  unfold request_token.
  destruct (isEmpty rq || isEmpty cr) eqn:E; wp_run.
  all: repeat split; try done; try (intros _; in_messages).
Qed.

(** X18. When the client id or the client secret is not configured and the
    compiled-in credentials are empty, [do_refresh_token] and [new_token]
    send nothing to the token endpoint, report failure, mark the client
    logged out and leave the access token and the refresh token as they
    were. *)
Theorem tokens_need_credentials env w log :
  let refreshed := do_refresh_token env log w in
  let granted := new_token env log w in
  isEmpty (CFG_SPOTIFY_CLIENT_ID (cfg w)) || isEmpty (CFG_SPOTIFY_CLIENT_SECRET (cfg w)) = true ->
  isEmpty (SPOTIFY_CREDENTIALS env) = true ->
  (exists l, snd refreshed = Ok (false, l))
  /\ token_log (fst refreshed) = token_log w
  /\ m_logged_in (self (fst refreshed)) = false
  /\ m_token (self (fst refreshed)) = m_token (self w)
  /\ m_refresh_token (self (fst refreshed)) = m_refresh_token (self w)
  /\ snd granted = Ok (false, log)
  /\ token_log (fst granted) = token_log w
  /\ m_logged_in (self (fst granted)) = false
  /\ m_token (self (fst granted)) = m_token (self w)
  /\ m_refresh_token (self (fst granted)) = m_refresh_token (self w).
Proof.
  intros refreshed granted Hcfg Henv. subst refreshed granted.
  assert (Hc : credentials_of env (cfg w) = EmptyString).
  { unfold credentials_of.
    apply orb_true_iff in Hcfg.
    replace (negb (isEmpty (CFG_SPOTIFY_CLIENT_ID (cfg w)))
             && negb (isEmpty (CFG_SPOTIFY_CLIENT_SECRET (cfg w)))) with false
      by (destruct Hcfg as [-> | ->]; by rewrite ?andb_false_r).
    apply isEmpty_true. by rewrite toBase64_isEmpty. }
  pose proof (do_refresh_token_spec env w log) as S. cbv zeta in S.
  unfold token_response in S. rewrite Hc in S. simpl in S.
  destruct S as (S1 & S2 & S3 & _ & S5 & S6 & _).
  split; [done|]. split; [done|]. split; [done|]. split; [done|]. split; [done|].
  apply (fun H => H : wp (new_token env log)
           (fun w' r => r = Ok (false, log) /\ token_log w' = token_log w
              /\ m_logged_in (self w') = false /\ m_token (self w') = m_token (self w)
              /\ m_refresh_token (self w') = m_refresh_token (self w)) w).
  unfold new_token.
  apply wp_bind, wp_build_credentials. wp_simpl.
  wp_step. wp_step. wp_simpl. wp_step.
  apply wp_request_token; [reflexivity|]. intros msgs. wp_simpl.
  rewrite Hc. simpl isEmpty. cbv iota. simpl doc_isObject. cbv iota.
  wp_run. by repeat split.
Qed.

Lemma tokens_need_credentials_witness :
  token_log (fst (do_refresh_token bare_env EmptyString unconfigured_world))
  = token_log unconfigured_world.
Proof.
  refine (proj1 (proj2 (tokens_need_credentials bare_env unconfigured_world EmptyString
                          _ _)));
    reflexivity.
Defined.

(** ** extract_timeout on a well-formed line *)

Lemma has_newline_app (text suf : string) :
  has_newline (text ++ String newline suf) = true.
Proof.
  induction text as [|c text IH]; cbn.
  - done.
  - change (has_newline (text ++ String newline suf) = true) in IH.
    change (Ascii.eqb c newline || has_newline (text ++ String newline suf) = true).
    rewrite IH. apply orb_true_r.
Qed.

Lemma line_app (text suf : string) :
  has_newline text = false -> line (text ++ String newline suf) = text.
Proof.
  induction text as [|c text IH]; cbn; intros H.
  - done.
  - apply orb_false_iff in H as [Hc Ht].
    change (line (String c text ++ String newline suf))
      with (if Ascii.eqb c newline then EmptyString
            else String c (line (text ++ String newline suf))).
    rewrite Hc. f_equal. by apply IH.
Qed.

(** X22. For a header whose first "Retry-After: " is followed by a text
    without a line break and then a line break, [extract_timeout] is
    what [std::stoi] makes of that text: its value reduced to
    [uint64_t], or its exception with the timeout left at 0. What
    follows the line plays no part. *)
Theorem extract_timeout_line (pre text suf : string) :
  find what pre = None ->
  has_newline text = false ->
  extract_timeout (pre ++ what ++ text ++ String newline suf)
  = match stoi text with
    | Ok v => (to_uint64 v, None)
    | Throw e => (0, Some e)
    end.
Proof.
  intros Hpre Htext.
  assert (Hf : find what (pre ++ what ++ text ++ String newline suf)
               = Some (String.length pre)).
  { unfold find. by rewrite find_from_app. }
  rewrite (extract_timeout_found _ _ Hf). unfold retry_after_text.
  rewrite string_drop_app.
  replace (String.length what) with (String.length what + 0)%nat by lia.
  rewrite string_drop_app. simpl string_drop.
  by rewrite has_newline_app, line_app.
Qed.

Lemma extract_timeout_line_witness :
  extract_timeout (too_many_requests ++ what ++ " -1" ++ String newline EmptyString)
  = match stoi " -1" with
    | Ok v => (to_uint64 v, None)
    | Throw e => (0, Some e)
    end.
Proof.
  refine (extract_timeout_line too_many_requests " -1" EmptyString _ _);
    vm_compute; reflexivity.
Defined.

(** ** execute_command: a reply that came through *)

(** X19. A call of [execute_command] that is not held back and whose
    transfer succeeds returns the status, the header and the parsed body
    of the answer and records one sent request. An empty body resets the
    static locals like a body that parses; a body that is not empty and
    does not parse logs an error and leaves the failure multiplier and
    the start of the back-off as they were. *)
Theorem execute_command_reply env c w code body h :
  let out := run_command env c w in
  held_back env w = false ->
  api_perform env (sent_count (api_log w)) (command_request c) = CURLE_OK code body h ->
  snd out = Ok (code, h, fromJson env body)
  /\ (exists ev, api_log (fst out) = (api_log w ++ [ev])%list
                 /\ ev_sent ev = true /\ ev_request ev = command_request c)
  /\ (isEmpty body = true -> statics (fst out) = mk_exec_statics 0 0 1)
  /\ (doc_isNull (fromJson env body) = true -> isEmpty body = false ->
      timeout_multiplier (statics (fst out)) = timeout_multiplier (statics w)
      /\ timeout_start (statics (fst out)) = timeout_start (statics w)
      /\ timeout (statics (fst out)) <= 0
      /\ In (LOG_ERROR, "Failed to parse json response: %s, Error: %s")
           (messages (fst out))).
Proof.
  intros out Hh Hp. subst out.
  change (wp (run_command env c)
            (fun w' r =>
  r = Ok (code, h, fromJson env body)
  /\ (exists ev, api_log w' = (api_log w ++ [ev])%list
                 /\ ev_sent ev = true /\ ev_request ev = command_request c)
  /\ (isEmpty body = true -> statics w' = mk_exec_statics 0 0 1)
  /\ (doc_isNull (fromJson env body) = true -> isEmpty body = false ->
      timeout_multiplier (statics w') = timeout_multiplier (statics w)
      /\ timeout_start (statics w') = timeout_start (statics w)
      /\ timeout (statics w') <= 0
      /\ In (LOG_ERROR, "Failed to parse json response: %s, Error: %s") (messages w'))) w).
  unfold run_command, execute_command, command_request, request_of, held_back in *.
  wp_run.
  all: repeat match goal with
              | H : ?b = true, H' : context [?b] |- _ => rewrite H in H'
              | H : ?b = false, H' : context [?b] |- _ => rewrite H in H'
              end; try discriminate.
  all: rewrite Hp in *; simplify_eq.
  all: split; [reflexivity|]; split; [by eexists|].
  all: split; [intros He; rewrite ?He, ?andb_false_r in *; done|].
  all: intros Hn He; rewrite ?Hn, ?He in *; try discriminate.
  all: repeat split; try done; try in_messages.
  all: match goal with H : (0 <? _) = false |- _ => apply Z.ltb_ge in H; lia end.
Qed.

Lemma execute_command_reply_witness :
  let env := sample_env 2000 (CURLE_OK 502 "<html>" "HTTP/1.1 502 Bad Gateway")
               no_network DocNull in
  let out := run_command env poll_command cooling_world in
  snd out = Ok (502, "HTTP/1.1 502 Bad Gateway", fromJson env "<html>").
Proof.
  intros env out.
  refine (proj1 (execute_command_reply env poll_command cooling_world 502 "<html>"
                   "HTTP/1.1 502 Bad Gateway" _ _));
    [vm_compute; reflexivity|reflexivity].
Defined.

(** ** The threads of execute_capability *)

Lemma wp_run_eq {A} (m : M A) (w : world) (x : world * result A) :
  wp m (fun w' r => (w', r) = x) w -> m w = x.
Proof. unfold wp. by destruct (m w). Qed.

(** X20. [execute_capability] accepts the volume capabilities like every
    other: it returns true and starts a thread with the token, the status
    and the timeout of the client. That thread sends nothing and does
    nothing but log the three lines of a failed command. *)
Theorem capability_volume env c w w1 :
  let t := mk_thread_args (m_curl_timeout_ms (self w)) (m_token (self w))
             (Song.get_int (m_current (self w)) meta.STATUS) c in
  c = CAP_VOLUME_UP \/ c = CAP_VOLUME_DOWN \/ c = CAP_VOLUME_MUTE ->
  snd (execute_capability c w) = Ok true
  /\ detached (fst (execute_capability c w)) = (detached w ++ [t])%list
  /\ capability_thread env t w1 = (logged capability_report w1, Ok ()).
Proof.
  intros t Hc. split; [reflexivity|]. split; [reflexivity|].
  apply wp_run_eq. unfold capability_thread, logged, capability_report.
  destruct Hc as [-> | [-> | ->]]; simpl capability_request; cbv iota.
  all: wp_run; try discriminate; by rewrite <- !app_assoc.
Qed.

Lemma capability_volume_witness :
  snd (execute_capability CAP_VOLUME_MUTE sample_world) = Ok true.
Proof.
  refine (proj1 (capability_volume offline_env CAP_VOLUME_MUTE sample_world sample_world _)).
  right. right. reflexivity.
Defined.

(** X21. The requests of the threads: next and previous are a POST on
    their address, play/pause is a PUT on the play address with the
    position 0 as body when the status is 0 and a PUT on the pause address
    otherwise; a request without data carries the body "{}". The thread
    calls [execute_command] once for that request, which is sent exactly
    when the back-off of [execute_command] does not hold the call back;
    it ends without an error and logs the failure lines whenever the
    status of the call is not 204, a call that was held back included. *)
Theorem capability_thread_requests env timeout token playing w :
  let sends := fun c rq =>
    let out := capability_thread env (mk_thread_args timeout token playing c) w in
    snd out = Ok ()
    /\ exists ev,
         api_log (fst out) = (api_log w ++ [ev])%list
         /\ ev_request ev = rq
         /\ ev_sent ev = negb (held_back env w)
         /\ (ev_http_code ev <> HTTP_NO_CONTENT ->
             forall m, In m capability_report -> In m (messages (fst out))) in
  sends CAP_NEXT_SONG (mk_request token PLAYER_NEXT_URL (Some "POST") (Some "{}"))
  /\ sends CAP_PREV_SONG (mk_request token PLAYER_PREVIOUS_URL (Some "POST") (Some "{}"))
  /\ (playing = 0 ->
      sends CAP_PLAY_PAUSE (mk_request token PLAYER_PLAY_URL (Some "PUT") (Some position_zero)))
  /\ (playing <> 0 ->
      sends CAP_PLAY_PAUSE (mk_request token PLAYER_PAUSE_URL (Some "PUT") (Some "{}"))).
Proof.
  intros sends.
  split; [exact (capability_thread_call env timeout token playing CAP_NEXT_SONG
                   PLAYER_NEXT_URL "POST" None w eq_refl)|].
  split; [exact (capability_thread_call env timeout token playing CAP_PREV_SONG
                   PLAYER_PREVIOUS_URL "POST" None w eq_refl)|].
  split.
  - intros ->. exact (capability_thread_call env timeout token 0 CAP_PLAY_PAUSE
                        PLAYER_PLAY_URL "PUT" (Some position_zero) w eq_refl).
  - intros Hp. apply (capability_thread_call env timeout token playing CAP_PLAY_PAUSE
                        PLAYER_PAUSE_URL "PUT" None w).
    unfold capability_request. apply Z.eqb_neq in Hp. by rewrite Hp.
Qed.

Import Config.

(** ** Properties of the output list *)

Lemma value_insert_eq o key v : value (insert o key v) key = v.
Proof.
  induction o as [|[k v'] o IH]; simpl.
  - by rewrite String.eqb_refl.
  - destruct (String.eqb k key) eqn:E; simpl; by rewrite E.
Qed.

Lemma value_insert_ne o key key' v :
  key <> key' -> value (insert o key v) key' = value o key'.
Proof.
  intros Hne. induction o as [|[k v'] o IH]; simpl.
  - apply String.eqb_neq in Hne. by rewrite Hne.
  - destruct (String.eqb k key) eqn:E; simpl; [|by rewrite IH].
    apply String.eqb_eq in E. subst k.
    apply String.eqb_neq in Hne. by rewrite Hne.
Qed.

Lemma string_drop_length (k : nat) (s : string) :
  String.length (string_drop k s) = (String.length s - k)%nat.
Proof.
  revert s. induction k as [|k IH]; intros [|c s]; simpl; auto.
Qed.

Lemma starts_with_length (w s : string) :
  starts_with w s = true -> (String.length w <= String.length s)%nat.
Proof.
  revert s. induction w as [|a w IH]; intros [|b s]; simpl; try done; try lia.
  intros [_ H]%andb_true_iff. apply IH in H. lia.
Qed.

(** The bound of [replace] is enough: more steps change nothing. *)
Lemma replace_upto_enough (n m : nat) (before after s : string) :
  before <> EmptyString ->
  (String.length s <= n)%nat -> (String.length s <= m)%nat ->
  replace_upto n before after s = replace_upto m before after s.
Proof.
  intros Hb. revert m s. induction n as [|n IH]; intros m s Hn Hm.
  - destruct s; [|simpl in Hn; lia].
    destruct m; [done|]. simpl. by destruct before.
  - destruct m as [|m].
    + destruct s; [|simpl in Hm; lia]. simpl. by destruct before.
    + simpl. destruct (starts_with before s) eqn:E.
      * f_equal. apply starts_with_length in E.
        assert (0 < String.length before)%nat by (destruct before; [done|simpl; lia]).
        apply IH; rewrite string_drop_length; lia.
      * destruct s as [|c s]; [done|]. f_equal. simpl in Hn, Hm. apply IH; lia.
Qed.

Lemma replace_upto_absent (n : nat) (before after s : string) :
  contains_text before s = false -> replace_upto n before after s = s.
Proof.
  revert s. induction n as [|n IH]; intros s H; [done|].
  cbn [replace_upto]. destruct s as [|c s]; cbn [contains_text] in H.
  - apply orb_false_iff in H as [-> _]. done.
  - apply orb_false_iff in H as [-> H]. f_equal. by apply IH.
Qed.

Lemma fold_replace_absent (l : list (string * string)) (s : string) :
  (forall t, In t l -> contains_text (fst t) s = false) ->
  fold_left (fun copy t => replace (fst t) (snd t) copy) l s = s.
Proof.
  induction l as [|t l IH]; intros H; [done|].
  cbn [fold_left]. unfold replace at 2.
  rewrite replace_upto_absent by (apply H; by left).
  apply IH. intros t' Ht'. apply H. by right.
Qed.

(** X24. A format in which none of the fourteen old place holders occurs
    is loaded as it is. *)
Theorem legacy_convert_fixed (s : string) :
  no_legacy s -> legacy_convert s = s.
Proof. apply fold_replace_absent. Qed.

Lemma starts_with_pat (c a : ascii) (s : string) :
  starts_with (pat c) (String a s)
  = Ascii.eqb "%" a && match s with
                       | String b _ => Ascii.eqb c b
                       | EmptyString => false
                       end.
Proof.
  cbn [starts_with]. destruct s as [|b s]; [done|].
  cbn [starts_with]. by rewrite andb_true_r.
Qed.

Lemma contains_pat_cons (c a : ascii) (s : string) :
  Ascii.eqb "%" a = false ->
  contains_text (pat c) (String a s) = contains_text (pat c) s.
Proof.
  intros H. cbn [contains_text]. by rewrite starts_with_pat, H.
Qed.

Lemma contains_pat_app (c : ascii) (after s : string) :
  has_percent after = false ->
  contains_text (pat c) (after ++ s) = contains_text (pat c) s.
Proof.
  induction after as [|a after IH]; intros H; [done|].
  cbn [has_percent] in H. apply orb_false_iff in H as [Ha H].
  change (String a after ++ s) with (String a (after ++ s)).
  rewrite contains_pat_cons by (by rewrite Ascii.eqb_sym). by apply IH.
Qed.

(** Replacing "%d" by a text in braces brings no "%c" about, and
    leaves none where [d] is [c]. *)
Lemma contains_pat_replace (n : nat) (c d : ascii) (after s : string) :
  has_percent after = false -> c <> "{"%char ->
  (String.length s <= n)%nat ->
  contains_text (pat c) s = false \/ d = c ->
  contains_text (pat c) (replace_upto n (pat d) (String "{" after) s) = false.
Proof.
  intros Hafter Hc. revert s. induction n as [|n IH]; intros s Hn H.
  { destruct s; [|simpl in Hn; lia]. done. }
  cbn [replace_upto]. destruct s as [|a s]; [done|].
  rewrite starts_with_pat.
  destruct (Ascii.eqb "%" a) eqn:Ea; cbn [andb].
  - apply Ascii.eqb_eq in Ea. subst a.
    destruct s as [|b s].
    { cbn [replace_upto]. destruct n; done. }
    destruct (Ascii.eqb d b) eqn:Ed.
    + (* the pattern is found *)
      apply Ascii.eqb_eq in Ed. subst b.
      cbn [String.length string_drop].
      change (String "{" after ++ ?x) with (String "{" (after ++ x)).
      rewrite contains_pat_cons by done.
      rewrite contains_pat_app by done.
      apply IH; [simpl in Hn; lia|].
      destruct H as [H|H]; [|by right]. left.
      cbn [contains_text] in H. apply orb_false_iff in H as [_ H].
      cbn [contains_text] in H. by apply orb_false_iff in H as [_ H].
    + (* a percent sign and another character *)
      cbn [contains_text]. rewrite starts_with_pat. cbn [andb].
      assert (Hcb : Ascii.eqb c b = false).
      { destruct H as [H| ->]; [|done].
        cbn [contains_text] in H. apply orb_false_iff in H as [H _].
        by rewrite starts_with_pat in H. }
      assert (Hrest : contains_text (pat c) (replace_upto n (pat d) (String "{" after)
                                               (String b s)) = false).
      { apply IH; [simpl in *; lia|].
        destruct H as [H|H]; [|by right]. left.
        cbn [contains_text] in H. by apply orb_false_iff in H as [_ H]. }
      rewrite Hrest, orb_false_r.
      destruct n as [|n]; [simpl in Hn; lia|].
      cbn [replace_upto]. rewrite starts_with_pat.
      destruct (Ascii.eqb "%" b && _); [|done].
      change (String "{" after ++ ?x) with (String "{" (after ++ x)).
      destruct (Ascii.eqb c "{") eqn:E; [|done].
      by apply Ascii.eqb_eq in E.
  - rewrite contains_pat_cons by done.
    apply IH; [simpl in Hn; lia|].
    destruct H as [H|H]; [|by right]. left.
    by rewrite contains_pat_cons in H.
Qed.

Lemma conversions_braced : Forall braced conversions.
Proof.
  unfold conversions.
  repeat (constructor; [eexists _, _; split; [reflexivity|]; by split|]).
  constructor.
Qed.

Lemma fold_replace_clears (l : list (string * string)) (s : string) (c : ascii) :
  Forall braced l -> c <> "{"%char ->
  contains_text (pat c) s = false \/ In (pat c) (map fst l) ->
  contains_text (pat c)
    (fold_left (fun copy t => replace (fst t) (snd t) copy) l s) = false.
Proof.
  intros Hl Hc. revert s. induction Hl as [|t l Ht Hl IH]; intros s H.
  { by destruct H. }
  destruct Ht as (d & after & -> & Hafter & Hd).
  cbn [fold_left fst snd]. apply IH.
  cbn [map fst In] in H.
  destruct H as [H|[H|H]]; [left|left|by right].
  - apply contains_pat_replace; auto.
  - apply contains_pat_replace; auto. right. congruence.
Qed.

(** X25. What [legacy_convert] returns holds none of the old place
    holders, so converting it again changes nothing: formats survive
    being loaded and saved any number of times. *)
Theorem legacy_convert_idempotent (s : string) :
  no_legacy (legacy_convert s)
  /\ legacy_convert (legacy_convert s) = legacy_convert s.
Proof.
  assert (H : no_legacy (legacy_convert s)).
  { intros t Ht.
    pose proof conversions_braced as Hb.
    pose proof (proj1 (List.Forall_forall _ _) Hb t Ht) as (d & after & -> & _ & Hd).
    cbn [fst]. apply fold_replace_clears; [exact Hb|exact Hd|].
    right. by apply (in_map fst) in Ht. }
  split; [exact H|]. exact (fold_replace_absent conversions (legacy_convert s) H).
Qed.

Section OutputProperties.
Variables JSON_FORMAT_ID JSON_OUTPUT_PATH_ID JSON_FORMAT_LOG_MODE JSON_LAST_OUTPUT : string.
Variable toNativeSeparators : string -> string.
Hypothesis distinct :
  NoDup [JSON_FORMAT_ID; JSON_OUTPUT_PATH_ID; JSON_FORMAT_LOG_MODE; JSON_LAST_OUTPUT].

Lemma distinct_keys :
  JSON_FORMAT_ID <> JSON_OUTPUT_PATH_ID /\ JSON_FORMAT_ID <> JSON_FORMAT_LOG_MODE
  /\ JSON_FORMAT_ID <> JSON_LAST_OUTPUT /\ JSON_OUTPUT_PATH_ID <> JSON_FORMAT_LOG_MODE
  /\ JSON_OUTPUT_PATH_ID <> JSON_LAST_OUTPUT /\ JSON_FORMAT_LOG_MODE <> JSON_LAST_OUTPUT.
Proof.
  pose proof distinct as D.
  apply NoDup_cons in D as [D1 D]. apply NoDup_cons in D as [D2 D].
  apply NoDup_cons in D as [D3 _].
  set_solver.
Qed.

(** X23. With member names that differ from each other, loading the
    document [save_outputs] writes gives the outputs back in their order:
    the log mode and the last output as they were, the path with native
    separators, the format through [legacy_convert]. *)
Theorem load_save_outputs (outputs : list output) :
  load_outputs JSON_FORMAT_ID JSON_OUTPUT_PATH_ID JSON_FORMAT_LOG_MODE JSON_LAST_OUTPUT
    (Some (save_outputs JSON_FORMAT_ID JSON_OUTPUT_PATH_ID JSON_FORMAT_LOG_MODE
             JSON_LAST_OUTPUT toNativeSeparators outputs))
  = map (fun o => mk_output (legacy_convert (format o)) (toNativeSeparators (path o))
                    (log_mode o) (last_output o)) outputs.
Proof.
  destruct distinct_keys as (H1 & H2 & H3 & H4 & H5 & H6).
  unfold load_outputs, save_outputs. cbn [doc_isArray array].
  rewrite map_map. apply map_ext. intros o. cbv zeta. cbn [toObject].
  by repeat (rewrite value_insert_eq || rewrite value_insert_ne by done).
Qed.
End OutputProperties.

Lemma legacy_convert_fixed_witness :
  legacy_convert "100% {title}" = "100% {title}".
Proof.
  refine (legacy_convert_fixed "100% {title}" _).
  intros t Ht. unfold conversions in Ht.
  repeat (destruct Ht as [<-|Ht]; [vm_compute; reflexivity|]). destruct Ht.
Defined.

Lemma load_save_outputs_witness :
  load_outputs "format" "output" "log_mode" "last_output"
    (Some (save_outputs "format" "output" "log_mode" "last_output" (fun p => p)
             sample_outputs))
  = map (fun o => mk_output (legacy_convert (format o)) ((fun p => p) (path o))
                    (log_mode o) (last_output o)) sample_outputs.
Proof.
  refine (load_save_outputs "format" "output" "log_mode" "last_output" (fun p => p)
            _ sample_outputs).
  apply (bool_decide_unpack _). vm_compute. exact I.
Defined.
